(** * Shallow embedding of image-scraper: the blob store (core/src/store.rs),
    the index database (index/src/db.rs) and the download manager
    (service/src/manager.rs), with the properties of its specification. *)

From Stdlib Require Import Ascii String.
From Stdlib Require Import List NArith ZArith Lia Bool Sorting.Sorted
  Sorting.Permutation.
Import ListNotations.

(** A byte ([u8]) is an [N] in [0..255]; a byte string ([Vec<u8>], [&[u8]],
    an [OsStr], the UTF-8 bytes of a [&str]) is a list of them. *)
Definition bytes := list N.

Definition byte_ok (b : N) : Prop := (b < 256)%N.

(** Rust's [Result]. *)
Inductive result (A E : Type) : Type :=
| Ok (a : A)
| Err (e : E).
Arguments Ok {A E} a.
Arguments Err {A E} e.

(** Byte-wise lexicographic order: [Ord for [u8]], the order of an [OsStr]
    and RocksDB's default comparator. *)
Fixpoint bytes_compare (a b : bytes) : comparison :=
  match a, b with
  | [], [] => Eq
  | [], _ :: _ => Lt
  | _ :: _, [] => Gt
  | x :: a', y :: b' =>
      match N.compare x y with
      | Eq => bytes_compare a' b'
      | c => c
      end
  end.

Definition bytes_eqb (a b : bytes) : bool :=
  match bytes_compare a b with Eq => true | _ => false end.

(** [std::str::from_utf8] accepts exactly the well-formed UTF-8 sequences
    (Unicode, table 3-7). *)
Definition in_range (lo hi x : N) : bool := (lo <=? x)%N && (x <=? hi)%N.

Definition cont (x : N) : bool := in_range 128 191 x.

Fixpoint utf8_valid (b : bytes) : bool :=
  match b with
  | [] => true
  | x :: r =>
      if (x <? 128)%N then utf8_valid r else
      match r with
      | [] => false
      | y :: r1 =>
          if in_range 194 223 x then cont y && utf8_valid r1 else
          match r1 with
          | [] => false
          | z :: r2 =>
              if (x =? 224)%N then in_range 160 191 y && cont z && utf8_valid r2
              else if in_range 225 236 x || in_range 238 239 x then
                cont y && cont z && utf8_valid r2
              else if (x =? 237)%N then in_range 128 159 y && cont z && utf8_valid r2
              else
              match r2 with
              | [] => false
              | w :: r3 =>
                  if (x =? 240)%N then in_range 144 191 y && cont z && cont w && utf8_valid r3
                  else if in_range 241 243 x then cont y && cont z && cont w && utf8_valid r3
                  else if (x =? 244)%N then in_range 128 143 y && cont z && cont w && utf8_valid r3
                  else false
              end
          end
      end
  end.

(** * The index database (index/src/db.rs, index/src/timestamp.rs,
      core/src/image_type.rs) *)
Module Index.

(** [imghdr::Type] *)
Inductive Type_ :=
| Bgp | Bmp | Exr | Flif | Gif | Ico | Jpeg | Pbm | Pgm | Png | Ppm | Rast
| Rgb | Rgbe | Tiff | Webp | Xbm.

(** [ImageType(Option<Type>)] *)
Definition ImageType := option Type_.

(** [ImageType::code] *)
Definition code (t : ImageType) : N :=
  match t with
  | None => 0 | Some Bgp => 1 | Some Bmp => 2 | Some Exr => 3 | Some Flif => 4
  | Some Gif => 5 | Some Ico => 6 | Some Jpeg => 7 | Some Pbm => 8
  | Some Pgm => 9 | Some Png => 10 | Some Ppm => 11 | Some Rast => 12
  | Some Rgb => 13 | Some Rgbe => 14 | Some Tiff => 15 | Some Webp => 16
  | Some Xbm => 17
  end.

(** [ImageType::from_code] *)
Definition from_code (c : N) : option ImageType :=
  match c with
  | 0 => Some None | 1 => Some (Some Bgp) | 2 => Some (Some Bmp)
  | 3 => Some (Some Exr) | 4 => Some (Some Flif) | 5 => Some (Some Gif)
  | 6 => Some (Some Ico) | 7 => Some (Some Jpeg) | 8 => Some (Some Pbm)
  | 9 => Some (Some Pgm) | 10 => Some (Some Png) | 11 => Some (Some Ppm)
  | 12 => Some (Some Rast) | 13 => Some (Some Rgb) | 14 => Some (Some Rgbe)
  | 15 => Some (Some Tiff) | 16 => Some (Some Webp) | 17 => Some (Some Xbm)
  | _ => None
  end%N.

(** A [DateTime<Utc>] at second resolution, by its epoch seconds
    ([DateTime::timestamp]). *)
Definition DateTime := Z.

(** [DateTime::from_timestamp(secs, 0)]: [None] outside chrono's date range
    (years -262144 to 262143). *)
Definition chrono_min_secs : Z := -8334632851200.
Definition chrono_max_secs : Z := 8210298412799.

Definition datetime_from_timestamp (secs : Z) : option DateTime :=
  if (chrono_min_secs <=? secs)%Z && (secs <=? chrono_max_secs)%Z
  then Some secs else None.

Definition u32_max : N := 4294967295.

(** [u32::try_from(t).unwrap_or(u32::MAX)] for an [i64] [t]. *)
Definition u32_try_from_unwrap_or_max (t : Z) : N :=
  if (0 <=? t)%Z && (t <=? Z.of_N u32_max)%Z then Z.to_N t else u32_max.

(** [u32::to_be_bytes] *)
Definition u32_to_be_bytes (n : N) : bytes :=
  [N.land (N.shiftr n 24) 255; N.land (N.shiftr n 16) 255;
   N.land (N.shiftr n 8) 255; N.land n 255].

(** [u32::from_be_bytes] *)
Definition u32_from_be_bytes (b0 b1 b2 b3 : N) : N :=
  N.lor (N.shiftl b0 24) (N.lor (N.shiftl b1 16) (N.lor (N.shiftl b2 8) b3)).

(** [bincode::error::DecodeError], the cases the value decoder raises. *)
Inductive DecodeError :=
| UnexpectedEnd
| OtherDecode (msg : string).

(** [db::Error] *)
Inductive Error :=
| Db
| Decode (e : DecodeError)
| Encode
| InvalidKeyBytes (b : bytes)
| ExtraKeyBytes (b : bytes)
| ExtraValueBytes (b : bytes).

(** [struct Key] *)
Record Key := { url : bytes; timestamp : DateTime }.

(** [Key::from_bytes] *)
Definition key_from_bytes (b : bytes) : result Key Error :=
  if (length b <? 5)%nat then Err (InvalidKeyBytes b) else
  match skipn (length b - 4) b with
  | [b0; b1; b2; b3] =>
      let timestamp_s := u32_from_be_bytes b0 b1 b2 b3 in
      match datetime_from_timestamp (Z.of_N timestamp_s) with
      | None => Err (InvalidKeyBytes b)
      | Some ts =>
          let u := firstn (length b - 5) b in
          if utf8_valid u then Ok {| url := u; timestamp := ts |}
          else Err (InvalidKeyBytes b)
      end
  | _ => Err (InvalidKeyBytes b)
  end.

(** [Key::to_bytes] *)
Definition key_to_bytes (k : Key) : bytes :=
  let timestamp_s := u32_try_from_unwrap_or_max (timestamp k) in
  url k ++ [0%N] ++ u32_to_be_bytes timestamp_s.

(** [struct Value], encoded by bincode (big endian, fixed ints): the 16
    digest bytes as they are, then the one-byte code of the image type. *)
Record Value := { digest : bytes; image_type : ImageType }.

Definition encode_value (v : Value) : bytes := digest v ++ [code (image_type v)].

(** [bincode::borrow_decode_from_slice::<Value, _>]: the value and the
    number of bytes read. *)
Definition decode_value (b : bytes) : result (Value * nat) DecodeError :=
  if (length b <? 16)%nat then Err UnexpectedEnd else
  match skipn 16 b with
  | [] => Err UnexpectedEnd
  | c :: _ =>
      match from_code c with
      | Some t => Ok ({| digest := firstn 16 b; image_type := t |}, 17%nat)
      | None => Err (OtherDecode "invalid image type code")
      end
  end.

(** [image_scraper_index::Entry] *)
Record Entry := { e_timestamp : DateTime; e_digest : bytes; e_image_type : Type_ }.

(** A row of a lookup: [Result<Entry, DateTime<Utc>>]. *)
Inductive Row :=
| RowOk (e : Entry)
| RowErr (t : DateTime).

Definition row_timestamp (r : Row) : DateTime :=
  match r with RowOk e => e_timestamp e | RowErr t => t end.

(** The value half of one loop iteration of [Database::lookup] (and of
    [Database::iter]). *)
Definition decode_row (ts : DateTime) (value_bytes : bytes) : result Row Error :=
  match decode_value value_bytes with
  | Err e => Err (Decode e)
  | Ok (value, value_read) =>
      if Nat.eqb value_read (length value_bytes) then
        match image_type value with
        | Some t => Ok (RowOk {| e_timestamp := ts; e_digest := digest value; e_image_type := t |})
        | None => Ok (RowErr ts)
        end
      else Err (ExtraValueBytes value_bytes)
  end.

(** The RocksDB instance: its key/value pairs in ascending key order. *)
Definition DB := list (bytes * bytes).

(** [DB::put]: insert at the key's place, replacing an equal key. *)
Fixpoint put (db : DB) (k v : bytes) : DB :=
  match db with
  | [] => [(k, v)]
  | (k', v') :: rest =>
      match bytes_compare k k' with
      | Lt => (k, v) :: db
      | Eq => (k, v) :: rest
      | Gt => (k', v') :: put rest k v
      end
  end.

(** [DB::iterator(IteratorMode::From(start, Direction::Forward))]: seek to
    the first key not below [start], then run to the end. *)
Fixpoint iterator_from (start : bytes) (db : DB) : DB :=
  match db with
  | [] => []
  | (k, v) :: rest =>
      match bytes_compare k start with
      | Lt => iterator_from start rest
      | _ => db
      end
  end.

(** The [for] loop of [Database::lookup]; [entries] is the [Vec] filled by
    [push]. *)
Fixpoint lookup_loop (u : bytes) (items : DB) (entries : list Row) : result (list Row) Error :=
  match items with
  | [] => Ok entries
  | (key_bytes, value_bytes) :: rest =>
      match key_from_bytes key_bytes with
      | Err e => Err e
      | Ok key =>
          if negb (bytes_eqb (url key) u) then Ok entries else
          match decode_row (timestamp key) value_bytes with
          | Err e => Err e
          | Ok row => lookup_loop u rest (entries ++ [row])
          end
      end
  end.

(** [entries.sort_by_key(|r| Reverse(timestamp))]: a stable sort, most
    recent first (insertion sort; an element goes before the equal keys
    that follow it). *)
Fixpoint insert_by_reverse_timestamp (r : Row) (l : list Row) : list Row :=
  match l with
  | [] => [r]
  | r' :: l' =>
      if (row_timestamp r' <=? row_timestamp r)%Z then r :: l
      else r' :: insert_by_reverse_timestamp r l'
  end.

Definition sort_by_reverse_timestamp (l : list Row) : list Row :=
  fold_right insert_by_reverse_timestamp [] l.

(** [Database::lookup] *)
Definition lookup (db : DB) (u : bytes) : result (list Row) Error :=
  match lookup_loop u (iterator_from u db) [] with
  | Err e => Err e
  | Ok entries => Ok (sort_by_reverse_timestamp entries)
  end.

(** The key and value bytes written by [Database::add]. *)
Definition add_kv (u : bytes) (entry : Entry) : bytes * bytes :=
  let key := {| url := u; timestamp := e_timestamp entry |} in
  let value := {| digest := e_digest entry; image_type := Some (e_image_type entry) |} in
  (key_to_bytes key, encode_value value).

(** [ERROR_DIGEST] *)
Definition ERROR_DIGEST : bytes := repeat 0%N 16.

(** The key and value bytes written by [Database::add_failed]. *)
Definition add_failed_kv (u : bytes) (ts : DateTime) : bytes * bytes :=
  let key := {| url := u; timestamp := ts |} in
  let value := {| digest := ERROR_DIGEST; image_type := None |} in
  (key_to_bytes key, encode_value value).

(** [Database::add] *)
Definition add (db : DB) (u : bytes) (entry : Entry) : DB :=
  let '(k, v) := add_kv u entry in put db k v.

(** [Database::add_failed] *)
Definition add_failed (db : DB) (u : bytes) (ts : DateTime) : DB :=
  let '(k, v) := add_failed_kv u ts in put db k v.

(** The index contents the program can produce: any sequence of [add] and
    [add_failed] on an initially empty database, with [&str] urls (valid
    UTF-8) and [md5::Digest]s (16 bytes). *)
Inductive built : DB -> Prop :=
| built_empty : built []
| built_add db u e :
    built db -> utf8_valid u = true -> length (e_digest e) = 16%nat ->
    Forall byte_ok (e_digest e) -> built (add db u e)
| built_add_failed db u ts :
    built db -> utf8_valid u = true -> built (add_failed db u ts).

(** [ImageStatus] (service/src/manager.rs) *)
Inductive ImageStatus :=
| Downloaded (entry : Entry)
| Downloading
| Failed (ts : DateTime).

(** [results.iter().find_map(|result| result.ok())] *)
Fixpoint find_ok (l : list Row) : option Entry :=
  match l with
  | [] => None
  | RowOk e :: _ => Some e
  | RowErr _ :: l' => find_ok l'
  end.

(** [results.iter().find_map(|result| result.err())] *)
Fixpoint find_err (l : list Row) : option DateTime :=
  match l with
  | [] => None
  | RowErr t :: _ => Some t
  | RowOk _ :: l' => find_err l'
  end.

(** [Manager::lookup_status]; [unwrap_or_default] of a [DateTime<Utc>] is
    the epoch. *)
Definition lookup_status (db : DB) (image_url : bytes) : result ImageStatus Error :=
  match lookup db image_url with
  | Err e => Err e
  | Ok results =>
      match results with
      | [] => Ok Downloading
      | _ =>
          match find_ok results with
          | Some entry => Ok (Downloaded entry)
          | None =>
              let ts := match find_err results with Some t => t | None => 0%Z end in
              Ok (Failed ts)
          end
      end
  end.

(** Specification side: the rows of [db] whose key decodes to the url [u],
    decoded, in key order. *)
Fixpoint rows_for (u : bytes) (db : DB) : list Row :=
  match db with
  | [] => []
  | (k, v) :: rest =>
      match key_from_bytes k with
      | Ok key =>
          if bytes_eqb (url key) u then
            match decode_row (timestamp key) v with
            | Ok r => r :: rows_for u rest
            | Err _ => rows_for u rest
            end
          else rows_for u rest
      | Err _ => rows_for u rest
      end
  end.

(** Specification side: no url written to [db] contains a NUL byte. *)
Definition urls_nul_free (db : DB) : Prop :=
  forall k v key, In (k, v) db -> key_from_bytes k = Ok key -> ~ In 0%N (url key).

Definition urls_nul_freeb (db : DB) : bool :=
  forallb (fun kv => match key_from_bytes (fst kv) with
                     | Ok key => negb (existsb (N.eqb 0) (url key))
                     | Err _ => true
                     end) db.

(** Key order of the sorted contents. *)
Definition key_lt (a b : bytes * bytes) : Prop := bytes_compare (fst a) (fst b) = Lt.

(** What a row of a built index is: the bytes of one [add] or one
    [add_failed]. *)
Definition written_row (kv : bytes * bytes) : Prop :=
  (exists u e, utf8_valid u = true /\ length (e_digest e) = 16%nat /\
     Forall byte_ok (e_digest e) /\ kv = add_kv u e) \/
  (exists u ts, utf8_valid u = true /\ kv = add_failed_kv u ts).


(** ** More of [ImageType] (core/src/image_type.rs) *)

(** [ImageType::as_str], also what [Display] and [Serialize] write. *)
Definition as_str (t : ImageType) : string :=
  match t with
  | None => "" | Some Bgp => "bgp" | Some Bmp => "bmp" | Some Exr => "exr"
  | Some Flif => "flif" | Some Gif => "gif" | Some Ico => "ico"
  | Some Jpeg => "jpeg" | Some Pbm => "pbm" | Some Pgm => "pgm"
  | Some Png => "png" | Some Ppm => "ppm" | Some Rast => "rast"
  | Some Rgb => "rgb" | Some Rgbe => "rgbe" | Some Tiff => "tiff"
  | Some Webp => "webp" | Some Xbm => "xbm"
  end.

(** [<ImageType as FromStr>::from_str], also what [Deserialize] parses. *)
Definition from_str (s : string) : result ImageType string :=
  if String.eqb s "" then Ok None
  else if String.eqb s "bmp" then Ok (Some Bmp)
  else if String.eqb s "exr" then Ok (Some Exr)
  else if String.eqb s "flif" then Ok (Some Flif)
  else if String.eqb s "gif" then Ok (Some Gif)
  else if String.eqb s "ico" then Ok (Some Ico)
  else if String.eqb s "jpeg" then Ok (Some Jpeg)
  else if String.eqb s "pbm" then Ok (Some Pbm)
  else if String.eqb s "pgm" then Ok (Some Pgm)
  else if String.eqb s "png" then Ok (Some Png)
  else if String.eqb s "ppm" then Ok (Some Ppm)
  else if String.eqb s "rast" then Ok (Some Rast)
  else if String.eqb s "rgb" then Ok (Some Rgb)
  else if String.eqb s "rgbe" then Ok (Some Rgbe)
  else if String.eqb s "tiff" then Ok (Some Tiff)
  else if String.eqb s "webp" then Ok (Some Webp)
  else if String.eqb s "xbm" then Ok (Some Xbm)
  else Err s.

(** [ImageType::mime_type], a [mime::Mime] by its essence string: the
    [mime] constants, and the literals it parses, which are well-formed
    MIME types (so [parse().ok()] is [Some]). *)
Definition mime_type (t : ImageType) : option string :=
  match t with
  | Some Bmp => Some "image/bmp"%string
  | Some Gif => Some "image/gif"%string
  | Some Ico => Some "image/x-icon"%string
  | Some Jpeg => Some "image/jpeg"%string
  | Some Png => Some "image/png"%string
  | Some Tiff => Some "image/tiff"%string
  | Some Webp => Some "image/webp"%string
  | _ => None
  end.

(** ** [Timestamp] (index/src/timestamp.rs) *)



(** [<Timestamp as Decode>::decode] under the same configuration: the
    timestamp and the bytes left after it. *)
Definition timestamp_decode (b : bytes) : result (DateTime * bytes) DecodeError :=
  match b with
  | b0 :: b1 :: b2 :: b3 :: rest =>
      let timestamp_s := Z.of_N (u32_from_be_bytes b0 b1 b2 b3) in
      match datetime_from_timestamp timestamp_s with
      | Some t => Ok (t, rest)
      | None => Err (OtherDecode "invalid epoch second")
      end
  | _ => Err UnexpectedEnd
  end.

(** ** [Database::iter] *)

(** [Database::iter]: one item per stored pair, in key order. *)
Definition iter (db : DB) : list (result (bytes * Row) Error) :=
  map (fun kv =>
    match key_from_bytes (fst kv) with
    | Err e => Err e
    | Ok key =>
        match decode_row (timestamp key) (snd kv) with
        | Err e => Err e
        | Ok row => Ok (url key, row)
        end
    end) db.

End Index.

(** * Properties of the index *)
(** * The request manager (service/src/manager.rs) *)

Module Manager.

(** [ShutdownError] (service/src/error.rs) *)
Inductive ShutdownError :=
| RequestTaskJoin
| Send.

(** A queued request: [None] is the shutdown sentinel, [Some url] a download
    request (its reply sender is not modelled). *)
Definition Request := option string.

Inductive JoinHandle := RequestTask.

(** The state a [Manager] shares with its request task: whether the
    task's [Receiver] is still open, the messages queued in the channel,
    the [Mutex<Option<JoinHandle<()>>>], the urls the task has downloaded,
    and how many times a join handle has been awaited. *)
Record Manager := mkManager {
  rx_open : bool;
  queue : list Request;
  request_receiver_handle : option JoinHandle;
  served : list string;
  joins : nat
}.

(** [Manager::new]: a fresh channel and the spawned task. *)
Definition new : Manager :=
  {| rx_open := true; queue := []; request_receiver_handle := Some RequestTask;
     served := []; joins := 0 |}.

(** [Sender::send]: fails once the receiver is closed. *)
Definition send (m : Manager) (r : Request) : result Manager ShutdownError :=
  if rx_open m then
    Ok {| rx_open := true; queue := queue m ++ [r];
          request_receiver_handle := request_receiver_handle m;
          served := served m; joins := joins m |}
  else Err Send.

(** The loop of [Manager::handle_requests] over the queued messages: it
    downloads each [Some url] and stops at the sentinel, after which the
    receiver is closed.  [None] when the queue runs out first: the task
    then waits for more messages. *)
Fixpoint handle_requests (q : list Request) (done_ : list string) : option (list string) :=
  match q with
  | [] => None
  | Some url :: q' => handle_requests q' (done_ ++ [url])
  | None :: _ => Some done_
  end.

(** [handle.await]: the task runs until it returns; [None] if it never
    does. *)
Definition await_task (m : Manager) : option Manager :=
  match handle_requests (queue m) (served m) with
  | None => None
  | Some s =>
      Some {| rx_open := false; queue := []; request_receiver_handle := request_receiver_handle m;
              served := s; joins := S (joins m) |}
  end.

(** [Manager::close]: the result and the new state, [None] if the await
    does not return. *)
Definition close (m : Manager) : option (result unit ShutdownError * Manager) :=
  match send m None with
  | Err e => Some (Err e, m)
  | Ok m1 =>
      match request_receiver_handle m1 with
      | None => Some (Ok tt, m1)
      | Some _ =>
          let m2 := {| rx_open := rx_open m1; queue := queue m1;
                       request_receiver_handle := None;
                       served := served m1; joins := joins m1 |} in
          match await_task m2 with
          | None => None
          | Some m3 => Some (Ok tt, m3)
          end
      end
  end.


(** [ChannelError] (service/src/error.rs) *)
Inductive ChannelError :=
| ChannelSend
| Receive.

(** The sending half of [Manager::request]: the url is queued, or the send
    fails with [ChannelError::Send] once the receiver is closed.  (The
    reply then awaited on the oneshot channel is not modelled.) *)
Definition request (m : Manager) (image_url : string) : result Manager ChannelError :=
  match send m (Some image_url) with
  | Ok m' => Ok m'
  | Err _ => Err ChannelSend
  end.

(** A caller issuing [request] for each url in turn, stopping at the first
    failure. *)
Fixpoint request_all (m : Manager) (urls : list string) : result Manager ChannelError :=
  match urls with
  | [] => Ok m
  | u :: urls' =>
      match request m u with
      | Ok m' => request_all m' urls'
      | Err e => Err e
      end
  end.

End Manager.

(** * The content-addressed store (core/src/store.rs) *)

Module Store.

(** The file system below the store's base: a file and its bytes, or a
    directory and its entries in the order [read_dir] lists them. *)
Inductive node :=
| File (contents : bytes)
| Dir (children : list (bytes * node)).

(** A [PathBuf] below the base, as its components (file names); the base
    itself is [[]]. *)
Definition PathBuf := list bytes.

Fixpoint lookup_child (c : bytes) (cs : list (bytes * node)) : option node :=
  match cs with
  | [] => None
  | (c', n) :: cs' => if bytes_eqb c' c then Some n else lookup_child c cs'
  end.

Fixpoint get (n : node) (p : PathBuf) : option node :=
  match p with
  | [] => Some n
  | c :: p' =>
      match n with
      | File _ => None
      | Dir cs => match lookup_child c cs with Some n' => get n' p' | None => None end
      end
  end.

Definition is_file (fs : node) (p : PathBuf) : bool :=
  match get fs p with Some (File _) => true | _ => false end.

Definition is_dir (fs : node) (p : PathBuf) : bool :=
  match get fs p with Some (Dir _) => true | _ => false end.

(** [Path::exists] *)
Definition exists_ (fs : node) (p : PathBuf) : bool :=
  match get fs p with Some _ => true | None => false end.

(** [read_dir(p)] mapped to [entry.path()]. *)
Definition read_dir (fs : node) (p : PathBuf) : option (list PathBuf) :=
  match get fs p with
  | Some (Dir cs) => Some (map (fun cn => p ++ [fst cn]) cs)
  | _ => None
  end.

(** [Path::file_name] *)
Definition file_name (p : PathBuf) : option bytes :=
  match rev p with [] => None | c :: _ => Some c end.

(** [Ord for Path]: component-wise, each component as an [OsStr]. *)
Fixpoint path_compare (a b : PathBuf) : comparison :=
  match a, b with
  | [], [] => Eq
  | [], _ :: _ => Lt
  | _ :: _, [] => Gt
  | x :: a', y :: b' =>
      match bytes_compare x y with Eq => path_compare a' b' | c => c end
  end.

(** [Vec::sort] (ascending). *)
Fixpoint insert_path (p : PathBuf) (l : list PathBuf) : list PathBuf :=
  match l with
  | [] => [p]
  | q :: l' => match path_compare p q with Gt => q :: insert_path p l' | _ => p :: l end
  end.

Definition sort_paths (l : list PathBuf) : list PathBuf := fold_right insert_path [] l.

(** [format!("{digest:x}")]: two lowercase hex digits per byte. *)
Definition hex_digit (d : N) : N := if (d <? 10)%N then (48 + d)%N else (87 + d)%N.

Definition to_hex (b : bytes) : bytes :=
  flat_map (fun x => [hex_digit (x / 16); hex_digit (x mod 16)]) b.

(** [hex::FromHexError] *)
Inductive FromHexError :=
| InvalidHexCharacter (c : N) (index : nat)
| OddLength
| InvalidStringLength.

(** [hex]'s [val] *)
Definition val (c : N) (idx : nat) : result N FromHexError :=
  if in_range 65 70 c then Ok (c - 55)%N
  else if in_range 97 102 c then Ok (c - 87)%N
  else if in_range 48 57 c then Ok (c - 48)%N
  else Err (InvalidHexCharacter c idx).

(** The loop of [hex::decode_to_slice], from byte [i] of the output. *)
Fixpoint decode_pairs (s : bytes) (i : nat) : result bytes FromHexError :=
  match s with
  | a :: b :: s' =>
      match val a (2 * i) with
      | Err e => Err e
      | Ok hi =>
          match val b (2 * i + 1) with
          | Err e => Err e
          | Ok lo =>
              match decode_pairs s' (S i) with
              | Err e => Err e
              | Ok rest => Ok (N.lor (N.shiftl hi 4) lo :: rest)
              end
          end
      end
  | _ => Ok []
  end.

(** [<[u8; 16]>::from_hex] *)
Definition from_hex16 (s : bytes) : result bytes FromHexError :=
  if Nat.odd (length s) then Err OddLength
  else if negb (Nat.eqb (length s / 2) 16) then Err InvalidStringLength
  else decode_pairs s 0.

(** [store::Entry] *)
Record Entry := { path : PathBuf; digest : bytes }.

(** [IterationError] *)
Inductive IterationError :=
| Io
| InvalidFileName (p : PathBuf)
| ExpectedDirectory (p : PathBuf)
| ExpectedFile (p : PathBuf)
| Hex (e : FromHexError).

(** [Entries::is_valid_char]: [is_ascii_lowercase || is_ascii_digit]. *)
Definition is_valid_char (b : N) : bool := in_range 97 122 b || in_range 48 57 b.

(** [Entries::path_to_entry] *)
Definition path_to_entry (fs : node) (p : PathBuf) : result Entry IterationError :=
  if is_file fs p then
    match file_name p with
    | None => Err (InvalidFileName p)
    | Some name =>
        if forallb is_valid_char name then
          match from_hex16 name with
          | Ok d => Ok {| path := p; digest := d |}
          | Err e => Err (Hex e)
          end
        else Err (InvalidFileName p)
    end
  else Err (ExpectedFile p).

(** The predicate given to [find] in [Entries::path_to_paths]. *)
Definition invalid_name (prefix_part_length : nat) (p : PathBuf) : bool :=
  match file_name p with
  | None => true
  | Some name =>
      negb (Nat.eqb (length name) prefix_part_length) &&
      existsb (fun b => negb (is_valid_char b)) name
  end.

(** [Entries::path_to_paths]: the [Vec] it returns, in its own order (the
    sorted paths reversed, so that [pop] takes the smallest). *)
Definition path_to_paths (fs : node) (p : PathBuf) (prefix_part_length : option nat)
  : result (list PathBuf) IterationError :=
  if is_dir fs p then
    match read_dir fs p with
    | None => Err Io
    | Some ps =>
        let paths := rev (sort_paths ps) in
        match prefix_part_length with
        | Some n =>
            match find (invalid_name n) paths with
            | Some invalid_path => Err (InvalidFileName invalid_path)
            | None => Ok paths
            end
        | None => Ok paths
        end
    end
  else Err (ExpectedDirectory p).

(** The state of [Entries].  Each [Vec] is kept top first: the head of
    [stack] is the [Vec] that [pop] returns, and the head of each inner list
    the path its [pop] returns. *)
Record Entries := { stack : list (list PathBuf); level : option nat }.

Section Iteration.

Variable prefix_part_lengths : list nat.

(** [Store::entries] *)
Definition entries : Entries := {| stack := [[[]]]; level := None |}.

Definition is_last (st : Entries) : bool :=
  match level st with
  | Some l => Nat.eqb l (length prefix_part_lengths)
  | None => false
  end.

Definition current_prefix_part_length (st : Entries) : option nat :=
  match level st with Some l => nth_error prefix_part_lengths l | None => None end.

Definition increment_level (l : option nat) : option nat :=
  Some (match l with Some l => S l | None => 0 end).

Definition decrement_level (l : option nat) : option nat :=
  match l with Some (S l) => Some l | _ => None end.

(** One run of the body of [Entries::next] up to its tail call
    [self.next()]: the iteration ends, yields an item, or continues
    from a new state. *)
Inductive step_result :=
| Finished
| Yield (item : result Entry IterationError) (st : Entries)
| Continue (st : Entries).

Definition step (fs : node) (st : Entries) : step_result :=
  match stack st with
  | [] => Finished
  | next_paths :: stack' =>
      if is_last st then
        match next_paths with
        | next_path :: rest =>
            Yield (path_to_entry fs next_path) {| stack := rest :: stack'; level := level st |}
        | [] => Continue {| stack := stack'; level := decrement_level (level st) |}
        end
      else
        match next_paths with
        | next_path :: rest =>
            match path_to_paths fs next_path (current_prefix_part_length st) with
            | Err e => Yield (Err e) {| stack := stack'; level := level st |}
            | Ok next_level =>
                Continue {| stack := rev next_level :: rest :: stack';
                            level := increment_level (level st) |}
            end
        | [] => Continue {| stack := stack'; level := decrement_level (level st) |}
        end
  end.

(** [Entries::next], with [fuel] bounding its recursive calls ([None] when
    it runs out). *)
Fixpoint next (fs : node) (fuel : nat) (st : Entries)
  : option (option (result Entry IterationError) * Entries) :=
  match fuel with
  | O => None
  | S fuel' =>
      match step fs st with
      | Finished => Some (None, st)
      | Yield item st' => Some (Some item, st')
      | Continue st' => next fs fuel' st'
      end
  end.

(** Draining the iterator: the items of successive [next] calls. *)
Fixpoint collect (fs : node) (fuel : nat) (st : Entries)
  : option (list (result Entry IterationError)) :=
  match fuel with
  | O => None
  | S fuel' =>
      match next fs fuel st with
      | None => None
      | Some (None, _) => Some []
      | Some (Some item, st') =>
          match collect fs fuel' st' with
          | None => None
          | Some items => Some (item :: items)
          end
      end
  end.

End Iteration.

(** Replaces the entry named [c] (the first one). *)
Fixpoint set_child (c : bytes) (n : node) (cs : list (bytes * node)) : list (bytes * node) :=
  match cs with
  | [] => []
  | (c', n') :: cs' => if bytes_eqb c' c then (c', n) :: cs' else (c', n') :: set_child c n cs'
  end.

(** [std::fs::create_dir_all]: fails when a component exists as a file; a
    missing directory is added at the end of its parent's listing. *)
Fixpoint create_dir_all (n : node) (p : PathBuf) : option node :=
  match p with
  | [] => match n with Dir _ => Some n | File _ => None end
  | c :: p' =>
      match n with
      | File _ => None
      | Dir cs =>
          match lookup_child c cs with
          | Some n' =>
              match create_dir_all n' p' with
              | Some n'' => Some (Dir (set_child c n'' cs))
              | None => None
              end
          | None =>
              match create_dir_all (Dir []) p' with
              | Some n'' => Some (Dir (cs ++ [(c, n'')]))
              | None => None
              end
          end
      end
  end.

(** [File::create] followed by [write_all]: the parent must be a directory;
    an existing file is truncated and rewritten, a directory is an error. *)
Fixpoint create_file (n : node) (p : PathBuf) (b : bytes) : option node :=
  match n, p with
  | Dir cs, [c] =>
      match lookup_child c cs with
      | None => Some (Dir (cs ++ [(c, File b)]))
      | Some (File _) => Some (Dir (set_child c (File b) cs))
      | Some (Dir _) => None
      end
  | Dir cs, c :: p' =>
      match lookup_child c cs with
      | Some n' =>
          match create_file n' p' b with
          | Some n'' => Some (Dir (set_child c n'' cs))
          | None => None
          end
      | None => None
      end
  | _, _ => None
  end.

(** The loop of [Store::path]: the slices [&digest_remaining[0..len]];
    [None] where a slice is out of range (a panic). *)
Fixpoint path_parts (prefix_part_lengths : list nat) (digest_remaining : bytes)
  : option (list bytes) :=
  match prefix_part_lengths with
  | [] => Some []
  | len :: ppl' =>
      if Nat.leb len (length digest_remaining) then
        match path_parts ppl' (skipn len digest_remaining) with
        | Some parts => Some (firstn len digest_remaining :: parts)
        | None => None
        end
      else None
  end.

(** [Store::path] *)
Definition store_path (prefix_part_lengths : list nat) (d : bytes) : option PathBuf :=
  let digest_string := to_hex d in
  match path_parts prefix_part_lengths digest_string with
  | Some parts => Some (parts ++ [digest_string])
  | None => None
  end.

(** [Path::parent] *)
Definition parent (p : PathBuf) : PathBuf := removelast p.

(** [store::Error] as [save] and [infer_prefix_part_lengths] raise it. *)
Inductive Error :=
| StoreIo
| StoreExpectedDirectory (p : PathBuf).

(** [store::Action] *)
Inductive Action :=
| Added (entry : Entry) (image_type : Index.ImageType)
| Found (entry : Entry).

(** [Store::with_prefix_part_lengths]: the lengths it accepts. *)
Definition valid_prefix_part_lengths (ppl : list nat) : bool :=
  Nat.leb (list_sum ppl) 32 && negb (existsb (Nat.eqb 0) ppl).

Section Save.

(** [md5::compute] and [imghdr::from_bytes]. *)
Variable md5 : bytes -> bytes.
Variable imghdr_from_bytes : bytes -> option Index.Type_.

(** [Store::save] on the store [{base; prefix_part_lengths}] whose base
    holds [fs]: the result and the new contents; [None] if [Store::path]
    panics. *)
Definition save (prefix_part_lengths : list nat) (fs : node) (b : bytes)
  : option (result Action Error * node) :=
  let d := md5 b in
  match store_path prefix_part_lengths d with
  | None => None
  | Some p =>
      match create_dir_all fs (parent p) with
      | None => Some (Err StoreIo, fs)
      | Some fs1 =>
          if exists_ fs1 p then Some (Ok (Found {| path := p; digest := d |}), fs1)
          else
            let image_type := if Nat.ltb (length b) 8 then None else imghdr_from_bytes b in
            match create_file fs1 p b with
            | None => Some (Err StoreIo, fs1)
            | Some fs2 => Some (Ok (Added {| path := p; digest := d |} image_type), fs2)
            end
      end
  end.

End Save.

(** [Store::infer_prefix_part_lengths_rec] from the entry [current] named
    [name]: whether no file was reached, and the lengths pushed on [acc]. *)
Fixpoint infer_prefix_part_lengths_rec (current : node) (name : bytes) (acc : list nat)
  : bool * list nat :=
  match current with
  | File _ => (false, acc)
  | Dir cs =>
      let acc' := acc ++ [length name] in
      match cs with
      | [] => (true, acc')
      | (c, n) :: _ => infer_prefix_part_lengths_rec n c acc'
      end
  end.

(** [Store::infer_prefix_part_lengths] on a base holding [fs]. *)
Definition infer_prefix_part_lengths (fs : node) : result (option (list nat)) Error :=
  match fs with
  | File _ => Err (StoreExpectedDirectory [])
  | Dir cs =>
      let '(is_empty, acc) :=
        match cs with
        | [] => (true, [])
        | (c, n) :: _ => infer_prefix_part_lengths_rec n c []
        end in
      Ok (if is_empty then None else Some acc)
  end.

(** ** Well-formed stores *)

Definition is_hex_lower (b : N) : bool := in_range 48 57 b || in_range 97 102 b.

(** The layout [save] produces below a directory whose entries are cut
    with the remaining prefix part lengths [ns], on a path whose
    components so far spell [pre]: distinct names; a directory name has
    the next length; a file name is 32 lowercase hex digits starting with
    the prefix its directories spell. *)
Fixpoint shape (ns : list nat) (pre : bytes) (n : node) {struct ns} : Prop :=
  match n with
  | File _ => False
  | Dir cs =>
      NoDup (map fst cs) /\
      forall c n', In (c, n') cs ->
        forallb is_hex_lower c = true /\
        match ns with
        | [] => length c = 32%nat /\ (exists rest, c = pre ++ rest) /\ exists b, n' = File b
        | k :: ns' => length c = k /\ shape ns' (pre ++ c) n'
        end
  end.

(** Every directory below this one has an entry. *)
Fixpoint full (ns : list nat) (n : node) : Prop :=
  match ns with
  | [] => True
  | _ :: ns' =>
      match n with
      | File _ => False
      | Dir cs =>
          forall c n', In (c, n') cs -> (exists c0 n0 cs0, n' = Dir ((c0, n0) :: cs0)) /\ full ns' n'
      end
  end.

(** The contents of a base that started empty and on which only [save] ran. *)
Inductive built_store (md5 : bytes -> bytes) (imghdr_from_bytes : bytes -> option Index.Type_)
    (ppl : list nat) : node -> Prop :=
| built_store_empty : built_store md5 imghdr_from_bytes ppl (Dir [])
| built_store_save fs b r fs' :
    built_store md5 imghdr_from_bytes ppl fs ->
    save md5 imghdr_from_bytes ppl fs b = Some (r, fs') ->
    built_store md5 imghdr_from_bytes ppl fs'.

(** The items along a run of [step]s from one state to another. *)
Inductive steps (ppl : list nat) (fs : node)
  : Entries -> list (result Entry IterationError) -> Entries -> Prop :=
| steps_refl st : steps ppl fs st [] st
| steps_continue st st' l st'' :
    step ppl fs st = Continue st' -> steps ppl fs st' l st'' -> steps ppl fs st l st''
| steps_yield st x st' l st'' :
    step ppl fs st = Yield x st' -> steps ppl fs st' l st'' -> steps ppl fs st (x :: l) st''.

(** What the traversal yields below [p], whose entries are cut with the
    remaining lengths [ns]: children in sorted order, files at the end. *)
Fixpoint expected_dir (ns : list nat) (fs : node) (p : PathBuf)
  : list (result Entry IterationError) :=
  match read_dir fs p with
  | None => []
  | Some ps =>
      match ns with
      | [] => map (path_to_entry fs) (sort_paths ps)
      | _ :: ns' => flat_map (expected_dir ns' fs) (sort_paths ps)
      end
  end.

(** What the traversal yields from a list of paths at the level where the
    remaining lengths are [ns]. *)
Definition level_output (ns : list nat) (fs : node) (l : list PathBuf)
  : list (result Entry IterationError) :=
  match ns with
  | [] => map (path_to_entry fs) l
  | _ :: ns' => flat_map (expected_dir ns' fs) l
  end.

(** Strict order of sibling paths. *)
Definition path_lt (a b : PathBuf) : Prop := path_compare a b = Lt.

(** A path on the level where the remaining lengths are [ns] leads to a
    well-formed directory, unless it is on the last level. *)
Definition walk_ok (fs : node) (ns : list nat) (q : PathBuf) : Prop :=
  match ns with
  | [] => True
  | _ :: ns' => exists pre cs, get fs q = Some (Dir cs) /\ shape ns' pre (Dir cs)
  end.

(** Entries in strictly ascending order of their digests' hex strings. *)
Definition digest_lt (e1 e2 : Entry) : Prop :=
  bytes_compare (to_hex (digest e1)) (to_hex (digest e2)) = Lt.

(** The two file-system calls by which [Store::save] adds a file [name]
    in the directory [parts]: [create_dir_all], then [File::create]. *)
Definition write_new (fs : node) (parts : list bytes) (name : bytes) (b : bytes) : option node :=
  match create_dir_all fs parts with
  | Some fs1 => create_file fs1 (parts ++ [name]) b
  | None => None
  end.

(** The digest is [md5]'s: sixteen bytes. *)
Definition md5_ok (md5 : bytes -> bytes) : Prop :=
  forall x, length (md5 x) = 16%nat /\ Forall byte_ok (md5 x).

(** [shape] as a boolean check. *)
Fixpoint nodupb (l : list bytes) : bool :=
  match l with
  | [] => true
  | x :: l' => negb (existsb (bytes_eqb x) l') && nodupb l'
  end.

Definition prefixb (pre c : bytes) : bool := bytes_eqb (firstn (length pre) c) pre.

Definition is_fileb (n : node) : bool := match n with File _ => true | Dir _ => false end.

Fixpoint shapeb (ns : list nat) (pre : bytes) (n : node) {struct ns} : bool :=
  match n with
  | File _ => false
  | Dir cs =>
      nodupb (map fst cs) &&
      forallb (fun cn =>
        forallb is_hex_lower (fst cn) &&
        match ns with
        | [] => Nat.eqb (length (fst cn)) 32 && prefixb pre (fst cn) && is_fileb (snd cn)
        | k :: ns' => Nat.eqb (length (fst cn)) k && shapeb ns' (pre ++ fst cn) (snd cn)
        end) cs
  end.


(** ** Initialisation and validation *)

(** [InitializationError] *)
Inductive InitializationError :=
| InvalidPrefixPartLengths (ppl : list nat).

Definition usize_max : N := 18446744073709551615.

(** [prefix_part_lengths.iter().copied().sum::<usize>()] from the partial
    sum [acc]: [None] when an addition overflows (a panic, with overflow
    checks on). *)
Fixpoint usize_sum_from (acc : N) (l : list nat) : option N :=
  match l with
  | [] => Some acc
  | x :: l' =>
      let s := (acc + N.of_nat x)%N in
      if (s <=? usize_max)%N then usize_sum_from s l' else None
  end.

(** [Store::with_prefix_part_lengths]: the lengths the new store holds
    (its base is unchanged), an [InitializationError], or [None] on a
    panic. *)
Definition with_prefix_part_lengths (prefix_part_lengths : list nat)
  : option (result (list nat) InitializationError) :=
  match usize_sum_from 0 prefix_part_lengths with
  | None => None
  | Some s =>
      if (32 <? s)%N || existsb (Nat.eqb 0) prefix_part_lengths
      then Some (Err (InvalidPrefixPartLengths prefix_part_lengths))
      else Some (Ok prefix_part_lengths)
  end.

(** [Action::entry] *)
Definition action_entry (a : Action) : Entry :=
  match a with Added e _ => e | Found e => e end.

(** [ValidationResult] *)
Inductive ValidationResult :=
| Valid (entry : Entry)
| Invalid (entry : Entry) (actual : bytes).

(** [store::Error] as [validate_fail_fast] raises it: its [Iteration] and
    [UnexpectedDigest] cases. *)
Inductive ValidationError :=
| Iteration (e : IterationError)
| UnexpectedDigest (expected actual : bytes).

(** [ValidationResult::result] *)
Definition validation_result (v : ValidationResult) : result Entry ValidationError :=
  match v with
  | Valid entry => Ok entry
  | Invalid entry actual => Err (UnexpectedDigest (digest entry) actual)
  end.

(** [std::io::Error], as [std::fs::read] raises it. *)
Inductive IoError :=
| ReadFailed.

Section Validate.

(** [md5::compute] *)
Variable md5 : bytes -> bytes.

(** [Entry::validate]: [std::fs::read] fails unless the path is a file. *)
Definition entry_validate (fs : node) (e : Entry) : result (result unit bytes) IoError :=
  match get fs (path e) with
  | Some (File contents) =>
      let d := md5 contents in
      if bytes_eqb d (digest e) then Ok (Ok tt) else Ok (Err d)
  | _ => Err ReadFailed
  end.

(** [Entries::validate] on the items the enumeration yields (the closure
    runs on each item in turn; the store does not change meanwhile); an I/O
    error becomes [IterationError::Io]. *)
Definition validate (fs : node) (items : list (result Entry IterationError))
  : list (result ValidationResult IterationError) :=
  map (fun item =>
    match item with
    | Err e => Err e
    | Ok entry =>
        match entry_validate fs entry with
        | Err _ => Err Io
        | Ok (Ok _) => Ok (Valid entry)
        | Ok (Err actual) => Ok (Invalid entry actual)
        end
    end) items.

(** [Entries::validate_fail_fast] on the same items. *)
Definition validate_fail_fast (fs : node) (items : list (result Entry IterationError))
  : list (result Entry ValidationError) :=
  map (fun r =>
    match r with
    | Err e => Err (Iteration e)
    | Ok v => validation_result v
    end) (validate fs items).

End Validate.

End Store.

(** * The web service (service/src/manager.rs, service/src/main.rs) and the
      command line (cli/src/main.rs) *)

Module Service.
Import Store.

(** The UTF-8 bytes of a [&str], and a string of the given bytes. *)
Definition bytes_of_string (s : string) : bytes := map N_of_ascii (list_ascii_of_string s).

Definition string_of_bytes (b : bytes) : string := string_of_list_ascii (map ascii_of_N b).

(** [UrlConfig] *)
Record UrlConfig := { secure : bool; server : string; base_path : string }.

(** [UrlStyle] *)
Inductive UrlStyle :=
| Full
| Absolute
| Relative.

(** The [prefix] that [Manager::static_url] and [Manager::request_url]
    build. *)
Definition url_prefix (cfg : UrlConfig) (style : UrlStyle) : string :=
  let prefix :=
    match style with
    | Full => ((if secure cfg then "https://" else "http://") ++ server cfg)%string
    | _ => ""%string
    end in
  match style with
  | Relative => prefix
  | _ => (prefix ++ base_path cfg)%string
  end.

(** [Manager::static_url]; [{digest:x}] is the lowercase hex string and
    [{image_type}] is [as_str]. *)
Definition static_url (cfg : UrlConfig) (digest : bytes) (image_type : Index.ImageType)
    (style : UrlStyle) : string :=
  let image_type_str := Index.as_str image_type in
  let prefix := url_prefix cfg style in
  if String.eqb image_type_str "" then
    (prefix ++ "static/" ++ string_of_bytes (to_hex digest))%string
  else
    (prefix ++ "static/" ++ string_of_bytes (to_hex digest) ++ "." ++ image_type_str)%string.

(** [Manager::request_url] *)
Definition request_url (cfg : UrlConfig) (encoded_url : string) (style : UrlStyle) : string :=
  (url_prefix cfg style ++ "request/" ++ encoded_url)%string.

(** [Manager::path_for_digest] for the store with the given lengths whose
    base holds [fs]; the outer [None] when [Store::path] panics. *)
Definition path_for_digest (prefix_part_lengths : list nat) (fs : node) (digest : bytes)
  : option (option PathBuf) :=
  match store_path prefix_part_lengths digest with
  | None => None
  | Some p => Some (if exists_ fs p && is_file fs p then Some p else None)
  end.

(** [str::split] on a character. *)
Fixpoint split (c : ascii) (s : string) : list string :=
  match s with
  | EmptyString => [EmptyString]
  | String a s' =>
      let parts := split c s' in
      if Ascii.eqb a c then EmptyString :: parts
      else
        match parts with
        | p :: ps => String a p :: ps
        | [] => [String a EmptyString]
        end
  end.

(** [StaticImageError] (service/src/error.rs) *)
Inductive StaticImageError :=
| InvalidFormat (s : string)
| InvalidDigest (s : string)
| InvalidExtension (s : string)
| ImageNotFound (digest : bytes)
| ImageIo (digest : bytes).

(** The handler [static_image] on the path segment [digest_with_image_type]:
    the content type and the path of the file whose contents it streams
    ([File::open] of a file succeeds), or its error; [None] when
    [Store::path] panics. *)
Definition static_image (prefix_part_lengths : list nat) (fs : node)
    (digest_with_image_type : string)
  : option (result (string * PathBuf) StaticImageError) :=
  match split "." digest_with_image_type with
  | [p0; p1] =>
      match from_hex16 (bytes_of_string p0) with
      | Err _ => Some (Err (InvalidDigest p0))
      | Ok digest_bytes =>
          let image_mime_type :=
            match Index.from_str p1 with Ok t => Index.mime_type t | Err _ => None end in
          match image_mime_type with
          | None => Some (Err (InvalidExtension p1))
          | Some mime =>
              match path_for_digest prefix_part_lengths fs digest_bytes with
              | None => None
              | Some None => Some (Err (ImageNotFound digest_bytes))
              | Some (Some p) => Some (Ok (mime, p))
              end
          end
      end
  | _ => Some (Err (InvalidFormat digest_with_image_type))
  end.

End Service.

Module Cli.
Import Store.

(** [cli::Error], the cases the [List] command raises; [Store] errors are
    split by where they come from ([infer_prefix_part_lengths] or
    [validate_fail_fast]). *)
Inductive Error :=
| CliStore (e : Store.Error)
| CliValidation (e : ValidationError)
| StoreInitialization (e : InitializationError)
| StoreIteration (e : IterationError)
| MissingPrefixPartLengths
| PrefixPartLengthsMismatch (inferred provided : list nat).

(** [check_prefix_part_lengths] *)
Definition check_prefix_part_lengths (inferred provided : option (list nat))
  : result (list nat) Error :=
  match inferred, provided with
  | Some inferred, Some provided =>
      if list_eq_dec Nat.eq_dec inferred provided then Ok inferred
      else Err (PrefixPartLengthsMismatch inferred provided)
  | Some inferred, None => Ok inferred
  | None, Some provided => Ok provided
  | None, None => Err MissingPrefixPartLengths
  end.

Definition map_err {A E F} (f : E -> F) (r : result A E) : result A F :=
  match r with Ok a => Ok a | Err e => Err (f e) end.

(** The [for] loops of [List]: the paths printed, up to the first error
    ([let entry = entry?]), and that error. *)
Fixpoint print_paths {E} (items : list (result Entry E)) : list PathBuf * option E :=
  match items with
  | [] => ([], None)
  | Ok e :: rest => let '(ps, err) := print_paths rest in (path e :: ps, err)
  | Err e :: _ => ([], Some e)
  end.

(** [Command::List { store, prefix, validate }] on a base holding [fs]:
    [None] on a panic, or when the enumeration needs more than [fuel]
    steps. *)
Definition list (md5 : bytes -> bytes) (fs : node) (prefix : option (list nat))
    (validate : bool) (fuel : nat) : option (list PathBuf * option Error) :=
  match infer_prefix_part_lengths fs with
  | Err e => Some ([], Some (CliStore e))
  | Ok inferred =>
      match check_prefix_part_lengths inferred prefix with
      | Err e => Some ([], Some e)
      | Ok prefix_part_lengths =>
          match with_prefix_part_lengths prefix_part_lengths with
          | None => None
          | Some (Err e) => Some ([], Some (StoreInitialization e))
          | Some (Ok ppl) =>
              match collect ppl fs fuel entries with
              | None => None
              | Some items =>
                  if validate then Some (print_paths (map (map_err StoreIteration) items))
                  else Some (print_paths (map (map_err CliValidation) (validate_fail_fast md5 fs items)))
              end
          end
      end
  end.

End Cli.

Module IndexFacts.
Import Index.

(** ** Byte-wise order *)

Lemma bytes_compare_refl a : bytes_compare a a = Eq.
Proof. induction a as [|x a IH]; simpl; [reflexivity|]. rewrite N.compare_refl. exact IH. Qed.

Lemma bytes_compare_eq a b : bytes_compare a b = Eq -> a = b.
Proof.
  revert b; induction a as [|x a IH]; intros [|y b]; simpl; try discriminate; auto.
  destruct (N.compare_spec x y); try discriminate. subst. intro H. f_equal. auto.
Qed.

Lemma bytes_compare_antisym a b : bytes_compare b a = CompOpp (bytes_compare a b).
Proof.
  revert b; induction a as [|x a IH]; intros [|y b]; simpl; auto.
  rewrite (N.compare_antisym x y). destruct (N.compare x y); simpl; auto.
Qed.

Lemma bytes_compare_trans a b c :
  bytes_compare a b = Lt -> bytes_compare b c = Lt -> bytes_compare a c = Lt.
Proof.
  revert b c; induction a as [|x a IH]; intros [|y b] [|z c]; simpl; try discriminate; auto.
  destruct (N.compare_spec x y) as [Hxy|Hxy|Hxy]; try discriminate;
  destruct (N.compare_spec y z) as [Hyz|Hyz|Hyz]; try discriminate; intros H1 H2.
  - subst. rewrite N.compare_refl. eauto.
  - subst. rewrite (proj2 (N.compare_lt_iff y z) Hyz). reflexivity.
  - subst. rewrite (proj2 (N.compare_lt_iff x z) Hxy). reflexivity.
  - rewrite (proj2 (N.compare_lt_iff x z)) by lia. reflexivity.
Qed.

Lemma bytes_compare_app p a b : bytes_compare (p ++ a) (p ++ b) = bytes_compare a b.
Proof. induction p as [|x p IH]; simpl; [reflexivity|]. rewrite N.compare_refl. exact IH. Qed.

Lemma bytes_compare_cons_same x a b : bytes_compare (x :: a) (x :: b) = bytes_compare a b.
Proof. simpl. rewrite N.compare_refl. reflexivity. Qed.

Lemma bytes_compare_prefix p x l : bytes_compare p (p ++ x :: l) = Lt.
Proof. induction p as [|y p IH]; simpl; [reflexivity|]. rewrite N.compare_refl. exact IH. Qed.

Lemma bytes_eqb_spec a b : bytes_eqb a b = true <-> a = b.
Proof.
  unfold bytes_eqb. split.
  - destruct (bytes_compare a b) eqn:E; try discriminate. intros _. now apply bytes_compare_eq.
  - intros ->. now rewrite bytes_compare_refl.
Qed.

(** ** Big-endian [u32] *)

Lemma lor_shiftl_small a b k : (b < 2 ^ k -> N.lor (N.shiftl a k) b = a * 2 ^ k + b)%N.
Proof.
  intros Hb.
  assert (L : N.land (N.shiftl a k) b = 0%N).
  { apply N.bits_inj. intro i. rewrite N.land_spec, N.bits_0.
    destruct (N.lt_ge_cases i k) as [Hi|Hi].
    - rewrite N.shiftl_spec_low by exact Hi. reflexivity.
    - assert (N.testbit b i = false) as ->.
      { apply N.testbit_false. rewrite N.div_small. reflexivity.
        apply N.lt_le_trans with (2 ^ k)%N; [exact Hb|]. apply N.pow_le_mono_r; lia. }
      apply Bool.andb_false_r. }
  rewrite <- N.lxor_lor by exact L. rewrite <- N.add_nocarry_lxor by exact L.
  rewrite N.shiftl_mul_pow2. reflexivity.
Qed.

Lemma u32_from_be_bytes_arith b0 b1 b2 b3 :
  byte_ok b1 -> byte_ok b2 -> byte_ok b3 ->
  u32_from_be_bytes b0 b1 b2 b3 = (b0 * 16777216 + b1 * 65536 + b2 * 256 + b3)%N.
Proof.
  unfold byte_ok, u32_from_be_bytes; intros H1 H2 H3.
  rewrite (lor_shiftl_small b2 b3 8) by (simpl; lia).
  rewrite (lor_shiftl_small b1 _ 16) by (simpl; lia).
  rewrite (lor_shiftl_small b0 _ 24) by (simpl; lia).
  simpl. lia.
Qed.

Lemma land_shiftr_255 n k : N.land (N.shiftr n k) 255 = ((n / 2 ^ k) mod 256)%N.
Proof.
  rewrite N.shiftr_div_pow2. change 255%N with (N.ones 8). rewrite N.land_ones. reflexivity.
Qed.

Lemma u32_to_be_bytes_arith n :
  u32_to_be_bytes n = [((n / 16777216) mod 256)%N; ((n / 65536) mod 256)%N;
                       ((n / 256) mod 256)%N; (n mod 256)%N].
Proof.
  unfold u32_to_be_bytes. rewrite !land_shiftr_255.
  change 255%N with (N.ones 8). rewrite N.land_ones. reflexivity.
Qed.

Lemma u32_to_be_bytes_ok n : Forall byte_ok (u32_to_be_bytes n).
Proof.
  rewrite u32_to_be_bytes_arith. unfold byte_ok.
  repeat constructor; apply N.mod_lt; discriminate.
Qed.

Lemma u32_be_roundtrip n : (n <= u32_max)%N ->
  exists b0 b1 b2 b3, u32_to_be_bytes n = [b0; b1; b2; b3] /\
    u32_from_be_bytes b0 b1 b2 b3 = n.
Proof.
  unfold u32_max; intros H. rewrite u32_to_be_bytes_arith.
  do 4 eexists. split; [reflexivity|].
  rewrite u32_from_be_bytes_arith by (unfold byte_ok; apply N.mod_lt; discriminate).
  assert (E1 : (n / 65536 = (n / 256) / 256)%N) by (rewrite N.Div0.div_div; reflexivity).
  assert (E2 : (n / 16777216 = (n / 65536) / 256)%N) by (rewrite N.Div0.div_div; reflexivity).
  rewrite E2, E1.
  assert (H0 := N.div_mod n 256 ltac:(lia)).
  assert (H1 := N.div_mod (n / 256) 256 ltac:(lia)).
  assert (H2 := N.div_mod (n / 256 / 256) 256 ltac:(lia)).
  assert (H3 : (n / 256 / 256 / 256 < 256)%N).
  { apply N.Div0.div_lt_upper_bound. apply N.Div0.div_lt_upper_bound.
    apply N.Div0.div_lt_upper_bound. lia. }
  rewrite (N.mod_small (n / 256 / 256 / 256) 256 H3). lia.
Qed.

Lemma u32_try_from_unwrap_or_max_le t : (u32_try_from_unwrap_or_max t <= u32_max)%N.
Proof.
  unfold u32_try_from_unwrap_or_max, u32_max.
  destruct ((0 <=? t)%Z && (t <=? Z.of_N 4294967295)%Z) eqn:E; [|lia].
  apply andb_prop in E as [E1 E2]. apply Z.leb_le in E1, E2. lia.
Qed.

(** ** Key decoding *)

Lemma key_from_bytes_spec b :
  (5 <= length b)%nat -> Forall byte_ok b ->
  utf8_valid (firstn (length b - 5) b) = true ->
  exists b0 b1 b2 b3,
    skipn (length b - 4) b = [b0; b1; b2; b3] /\
    key_from_bytes b =
      Ok {| url := firstn (length b - 5) b;
            timestamp := Z.of_N (u32_from_be_bytes b0 b1 b2 b3) |}.
Proof.
  intros Hlen Hok Hutf.
  assert (L : length (skipn (length b - 4) b) = 4%nat) by (rewrite length_skipn; lia).
  assert (Hok' : Forall byte_ok (skipn (length b - 4) b)).
  { rewrite Forall_forall in *. intros x Hx. apply Hok. rewrite <- (firstn_skipn (length b - 4) b).
    apply in_or_app; right; exact Hx. }
  destruct (skipn (length b - 4) b) as [|b0 [|b1 [|b2 [|b3 [|? ?]]]]] eqn:E;
    simpl in L; try discriminate.
  exists b0, b1, b2, b3. split; [reflexivity|].
  inversion Hok' as [|? ? Hb0 R0]; inversion R0 as [|? ? Hb1 R1];
  inversion R1 as [|? ? Hb2 R2]; inversion R2 as [|? ? Hb3 R3]; subst.
  unfold key_from_bytes.
  destruct (Nat.ltb_spec (length b) 5); [lia|]. rewrite E.
  unfold datetime_from_timestamp.
  rewrite u32_from_be_bytes_arith by assumption.
  unfold byte_ok, chrono_min_secs, chrono_max_secs in *.
  replace ((-8334632851200 <=? Z.of_N (b0 * 16777216 + b1 * 65536 + b2 * 256 + b3))%Z &&
           (Z.of_N (b0 * 16777216 + b1 * 65536 + b2 * 256 + b3) <=? 8210298412799)%Z)
    with true by (symmetry; apply andb_true_intro; split; apply Z.leb_le; lia).
  rewrite Hutf. reflexivity.
Qed.

(** ** Index contents *)

Lemma In_put db k v x : In x (put db k v) -> x = (k, v) \/ In x db.
Proof.
  induction db as [|[k' v'] db IH]; simpl; [intuition|].
  destruct (bytes_compare k k'); simpl; intros [H|H]; auto.
  destruct (IH H); auto.
Qed.

Lemma put_sorted db k v :
  StronglySorted key_lt db -> StronglySorted key_lt (put db k v).
Proof.
  induction db as [|[k' v'] db IH]; simpl; intros S.
  - repeat constructor.
  - apply StronglySorted_inv in S as [S F].
    destruct (bytes_compare k k') eqn:C.
    + apply bytes_compare_eq in C; subst. constructor; [exact S|]. exact F.
    + constructor; [constructor; assumption|].
      constructor; [exact C|].
      rewrite Forall_forall in *. intros x Hx. unfold key_lt in *. simpl in *.
      eapply bytes_compare_trans; [exact C|]. exact (F x Hx).
    + constructor; [exact (IH S)|].
      rewrite Forall_forall in *. intros x Hx. apply In_put in Hx as [->|Hx].
      * unfold key_lt. simpl. rewrite bytes_compare_antisym, C. reflexivity.
      * exact (F x Hx).
Qed.

Lemma built_sorted db : built db -> StronglySorted key_lt db.
Proof.
  induction 1; [constructor| |]; unfold add, add_failed;
    [destruct (add_kv u e) | destruct (add_failed_kv u ts)]; apply put_sorted; assumption.
Qed.

Lemma built_rows db : built db -> forall kv, In kv db -> written_row kv.
Proof.
  induction 1; intros kv Hin; [destruct Hin| |]; unfold add, add_failed in Hin.
  - destruct (add_kv u e) as [k v] eqn:E. apply In_put in Hin as [->|Hin]; auto.
    left. exists u, e. auto.
  - destruct (add_failed_kv u ts) as [k v] eqn:E. apply In_put in Hin as [->|Hin]; auto.
    right. exists u, ts. auto.
Qed.

(** ** Decoding what [add] and [add_failed] write *)

Lemma firstn_length_app (u x : bytes) : firstn (length u) (u ++ x) = u.
Proof. induction u as [|a u IH]; simpl; [reflexivity|]. now rewrite IH. Qed.

Lemma skipn_length_app (u x : bytes) : skipn (length u) (u ++ x) = x.
Proof. induction u as [|a u IH]; simpl; [reflexivity|]. exact IH. Qed.

Lemma skipn_length_app_plus (u x : bytes) k : skipn (length u + k) (u ++ x) = skipn k x.
Proof. induction u as [|a u IH]; simpl; [reflexivity|]. exact IH. Qed.

Lemma key_from_bytes_key_to_bytes u t :
  utf8_valid u = true ->
  exists b0 b1 b2 b3,
    key_to_bytes {| url := u; timestamp := t |} = u ++ [0%N; b0; b1; b2; b3] /\
    u32_to_be_bytes (u32_try_from_unwrap_or_max t) = [b0; b1; b2; b3] /\
    key_from_bytes (key_to_bytes {| url := u; timestamp := t |}) =
      Ok {| url := u; timestamp := Z.of_N (u32_try_from_unwrap_or_max t) |}.
Proof.
  intros Hu.
  destruct (u32_be_roundtrip _ (u32_try_from_unwrap_or_max_le t)) as (b0 & b1 & b2 & b3 & Hbe & Hrt).
  assert (Hok := u32_to_be_bytes_ok (u32_try_from_unwrap_or_max t)).
  rewrite Hbe in Hok.
  assert (Hk : key_to_bytes {| url := u; timestamp := t |} = u ++ [0%N; b0; b1; b2; b3])
    by (unfold key_to_bytes; simpl; rewrite Hbe; reflexivity).
  exists b0, b1, b2, b3. split; [exact Hk|]. split; [exact Hbe|]. rewrite Hk.
  assert (L : length (u ++ [0%N; b0; b1; b2; b3]) = (length u + 5)%nat)
    by (rewrite length_app; reflexivity).
  unfold key_from_bytes. rewrite L.
  destruct (Nat.ltb_spec (length u + 5) 5); [lia|].
  replace (length u + 5 - 4)%nat with (length u + 1)%nat by lia.
  rewrite skipn_length_app_plus. simpl.
  rewrite Hrt. unfold datetime_from_timestamp.
  assert (Hle := u32_try_from_unwrap_or_max_le t). unfold u32_max in Hle.
  unfold chrono_min_secs, chrono_max_secs.
  replace ((-8334632851200 <=? Z.of_N (u32_try_from_unwrap_or_max t))%Z &&
           (Z.of_N (u32_try_from_unwrap_or_max t) <=? 8210298412799)%Z)
    with true by (symmetry; apply andb_true_intro; split; apply Z.leb_le; lia).
  replace (length u + 5 - 5)%nat with (length u) by lia.
  rewrite firstn_length_app, Hu. reflexivity.
Qed.

Lemma from_code_code t : from_code (code (Some t)) = Some (Some t).
Proof. destruct t; reflexivity. Qed.

Lemma code_range t : (1 <= code (Some t) <= 17)%N.
Proof. destruct t; simpl; lia. Qed.

Lemma decode_row_add e ts :
  length (e_digest e) = 16%nat ->
  decode_row ts (snd (add_kv [] e)) =
    Ok (RowOk {| e_timestamp := ts; e_digest := e_digest e; e_image_type := e_image_type e |}).
Proof.
  intros L. unfold add_kv, encode_value, decode_row, decode_value. cbn [snd digest image_type].
  set (c := code (Some (e_image_type e))).
  assert (H1 : skipn 16 (e_digest e ++ [c]) = [c]) by (rewrite <- L; apply skipn_length_app).
  assert (H2 : firstn 16 (e_digest e ++ [c]) = e_digest e)
    by (rewrite <- L; apply firstn_length_app).
  rewrite length_app, L, H1, H2. unfold c. rewrite from_code_code. reflexivity.
Qed.

Lemma add_kv_value u e : snd (add_kv u e) = snd (add_kv [] e).
Proof. reflexivity. Qed.

Lemma decode_row_timestamp ts v r : decode_row ts v = Ok r -> row_timestamp r = ts.
Proof.
  unfold decode_row. destruct (decode_value v) as [[value n]|]; [|discriminate].
  destruct (Nat.eqb n (length v)); [|discriminate].
  destruct (image_type value); intros H; inversion H; reflexivity.
Qed.

(** Every written row: its key is [u ++ 0 :: be(n)], it decodes back to
    [u] and [n], and its value decodes. *)
Lemma written_row_decode kv :
  written_row kv ->
  exists u n r,
    utf8_valid u = true /\ (n <= u32_max)%N /\
    fst kv = u ++ 0%N :: u32_to_be_bytes n /\
    key_from_bytes (fst kv) = Ok {| url := u; timestamp := Z.of_N n |} /\
    decode_row (Z.of_N n) (snd kv) = Ok r.
Proof.
  intros [(u & e & Hu & L & _ & ->)|(u & ts & Hu & ->)].
  - destruct (key_from_bytes_key_to_bytes u (e_timestamp e) Hu) as (b0 & b1 & b2 & b3 & Hk & Hbe & Hd).
    do 3 eexists. split; [exact Hu|]. split; [apply u32_try_from_unwrap_or_max_le|].
    split; [simpl; rewrite Hbe; exact Hk|]. split; [exact Hd|].
    rewrite add_kv_value. apply decode_row_add. exact L.
  - destruct (key_from_bytes_key_to_bytes u ts Hu) as (b0 & b1 & b2 & b3 & Hk & Hbe & Hd).
    do 3 eexists. split; [exact Hu|]. split; [apply u32_try_from_unwrap_or_max_le|].
    split; [simpl; rewrite Hbe; exact Hk|]. split; [exact Hd|].
    reflexivity.
Qed.

(** ** The range scan of [lookup] *)

(** A key of another NUL-free url that the scan reaches (not below [u])
    lies above every key of [u]: the NUL separator sorts first. *)
Lemma other_key_above (u' u t' t : bytes) :
  u' <> u -> ~ In 0%N u' -> ~ In 0%N u ->
  bytes_compare (u' ++ 0%N :: t') u <> Lt ->
  bytes_compare (u' ++ 0%N :: t') (u ++ 0%N :: t) = Gt.
Proof.
  revert u; induction u' as [|x u' IH]; intros [|y u] Hne Hu' Hu Hge; simpl in *.
  - congruence.
  - exfalso. apply Hge. destruct y as [|y]; [tauto|reflexivity].
  - destruct x as [|x]; [tauto|reflexivity].
  - destruct (N.compare_spec x y) as [E|E|E].
    + subst. apply IH; auto. congruence.
    + exfalso. apply Hge. reflexivity.
    + reflexivity.
Qed.

Lemma be_compare n1 n2 : (n1 <= u32_max)%N -> (n2 <= u32_max)%N ->
  bytes_compare (u32_to_be_bytes n1) (u32_to_be_bytes n2) = N.compare n1 n2.
Proof.
  intros H1 H2.
  destruct (u32_be_roundtrip n1 H1) as (a0 & a1 & a2 & a3 & Ea & Ra).
  destruct (u32_be_roundtrip n2 H2) as (c0 & c1 & c2 & c3 & Ec & Rc).
  assert (Oa := u32_to_be_bytes_ok n1). assert (Oc := u32_to_be_bytes_ok n2).
  rewrite Ea in *. rewrite Ec in *.
  repeat match goal with H : Forall _ (_ :: _) |- _ => inversion H; clear H; subst end.
  unfold byte_ok in *.
  rewrite !u32_from_be_bytes_arith by assumption. simpl.
  destruct (N.compare_spec a0 c0);
    [subst; destruct (N.compare_spec a1 c1);
      [subst; destruct (N.compare_spec a2 c2);
        [subst; destruct (N.compare_spec a3 c3)| |]| |]| |];
    first [ subst; symmetry; apply N.compare_eq_iff; reflexivity
          | symmetry; apply N.compare_lt_iff; lia
          | symmetry; apply N.compare_gt_iff; lia ].
Qed.

Lemma rows_for_app u l1 l2 : rows_for u (l1 ++ l2) = rows_for u l1 ++ rows_for u l2.
Proof.
  induction l1 as [|[k v] l1 IH]; simpl; [reflexivity|].
  destruct (key_from_bytes k); [|exact IH].
  destruct (bytes_eqb (url a) u); [|exact IH].
  destruct (decode_row (timestamp a) v); [|exact IH]. simpl. now rewrite IH.
Qed.

Lemma rows_for_nil u l :
  (forall k v key, In (k, v) l -> key_from_bytes k = Ok key -> url key <> u) ->
  rows_for u l = [].
Proof.
  induction l as [|[k v] l IH]; intros H; simpl; [reflexivity|].
  destruct (key_from_bytes k) as [key|] eqn:E.
  - destruct (bytes_eqb (url key) u) eqn:B.
    + apply bytes_eqb_spec in B. exfalso. exact (H k v key (or_introl eq_refl) E B).
    + apply IH. intros; eapply H; [right|]; eauto.
  - apply IH. intros; eapply H; [right|]; eauto.
Qed.

Lemma rows_for_In u l r :
  In r (rows_for u l) ->
  exists k v key, In (k, v) l /\ key_from_bytes k = Ok key /\ url key = u /\
    decode_row (timestamp key) v = Ok r.
Proof.
  induction l as [|[k v] l IH]; simpl; [tauto|].
  destruct (key_from_bytes k) as [key|] eqn:E.
  2: intros H; destruct (IH H) as (k' & v' & key' & ?); exists k', v', key'; tauto.
  destruct (bytes_eqb (url key) u) eqn:B.
  2: intros H; destruct (IH H) as (k' & v' & key' & ?); exists k', v', key'; tauto.
  destruct (decode_row (timestamp key) v) as [r'|] eqn:D.
  2: intros H; destruct (IH H) as (k' & v' & key' & ?); exists k', v', key'; tauto.
  intros [<-|H].
  - exists k, v, key. apply bytes_eqb_spec in B. auto.
  - destruct (IH H) as (k' & v' & key' & ?); exists k', v', key'; tauto.
Qed.

Lemma StronglySorted_app_r {A} (R : A -> A -> Prop) l1 l2 :
  StronglySorted R (l1 ++ l2) -> StronglySorted R l2.
Proof.
  induction l1 as [|x l1 IH]; simpl; [auto|]. intros S.
  apply StronglySorted_inv in S as [S _]. auto.
Qed.

Lemma iterator_from_split u db :
  exists pre, db = pre ++ iterator_from u db /\
    forall kv, In kv pre -> bytes_compare (fst kv) u = Lt.
Proof.
  induction db as [|[k v] db IH]; simpl.
  - exists []. split; [reflexivity|]. simpl; tauto.
  - destruct (bytes_compare k u) eqn:C.
    + exists []. split; [reflexivity|]. simpl; tauto.
    + destruct IH as (pre & E & F). exists ((k, v) :: pre). split; [simpl; congruence|].
      intros kv [<-|H]; auto.
    + exists []. split; [reflexivity|]. simpl; tauto.
Qed.

Lemma iterator_from_not_below u db :
  StronglySorted key_lt db ->
  forall kv, In kv (iterator_from u db) -> bytes_compare (fst kv) u <> Lt.
Proof.
  induction db as [|[k v] db IH]; simpl; [tauto|]. intros S.
  apply StronglySorted_inv in S as [S F].
  destruct (bytes_compare k u) eqn:C; auto.
  - intros kv [<-|H]; simpl; [congruence|].
    rewrite Forall_forall in F. specialize (F kv H). unfold key_lt in F. simpl in F.
    apply bytes_compare_eq in C; subst. rewrite bytes_compare_antisym, F. discriminate.
  - intros kv [<-|H]; simpl; [congruence|].
    rewrite Forall_forall in F. specialize (F kv H). unfold key_lt in F. simpl in F.
    intros L. rewrite bytes_compare_antisym in C.
    destruct (bytes_compare u k) eqn:C'; try discriminate.
    pose proof (bytes_compare_trans _ _ _ C' F) as T.
    rewrite bytes_compare_antisym, T in L. discriminate.
Qed.

Lemma lookup_loop_spec u items acc :
  StronglySorted key_lt items ->
  (forall kv, In kv items -> written_row kv) ->
  urls_nul_free items ->
  (forall kv, In kv items -> bytes_compare (fst kv) u <> Lt) ->
  lookup_loop u items acc = Ok (acc ++ rows_for u items).
Proof.
  revert acc; induction items as [|[k v] rest IH]; intros acc S W NF GE; simpl.
  - now rewrite app_nil_r.
  - apply StronglySorted_inv in S as [S F].
    destruct (written_row_decode (k, v) (W _ (or_introl eq_refl)))
      as (u' & n & r & Hu' & Hn & Hk & Hkey & Hr); simpl in Hk, Hkey, Hr.
    rewrite Hkey. simpl. rewrite Hr.
    destruct (bytes_eqb u' u) eqn:B; simpl.
    + rewrite IH; auto.
      * now rewrite <- app_assoc.
      * intros kv H; apply W; right; exact H.
      * intros k1 v1 key1 H; eapply NF; right; exact H.
      * intros kv H; apply GE; right; exact H.
    + rewrite rows_for_nil; [now rewrite app_nil_r|].
      intros k' v' key' Hin Hkey' Hurl. subst u.
      destruct (written_row_decode (k', v') (W _ (or_intror Hin)))
        as (u2 & n2 & r2 & _ & Hn2 & Hk2 & Hkey2 & _); simpl in Hk2, Hkey2.
      rewrite Hkey2 in Hkey'. inversion Hkey'; subst key'. simpl in B.
      assert (G : bytes_compare k k' = Gt).
      { rewrite Hk, Hk2. apply other_key_above.
        - intros E; subst u'. rewrite (proj2 (bytes_eqb_spec u2 u2) eq_refl) in B. discriminate.
        - exact (NF k v _ (or_introl eq_refl) Hkey).
        - exact (NF k' v' _ (or_intror Hin) Hkey2).
        - rewrite <- Hk. exact (GE (k, v) (or_introl eq_refl)). }
      rewrite Forall_forall in F. specialize (F (k', v') Hin). unfold key_lt in F.
      simpl in F. congruence.
Qed.

Lemma insert_by_reverse_timestamp_last x l :
  (forall r, In r l -> (row_timestamp x < row_timestamp r)%Z) ->
  insert_by_reverse_timestamp x l = l ++ [x].
Proof.
  induction l as [|r l IH]; intros H; simpl; [reflexivity|].
  destruct (Z.leb_spec (row_timestamp r) (row_timestamp x)).
  - specialize (H r (or_introl eq_refl)). lia.
  - f_equal. apply IH. intros; apply H; right; assumption.
Qed.

Lemma sort_ascending_rev l :
  StronglySorted (fun r1 r2 => (row_timestamp r1 < row_timestamp r2)%Z) l ->
  sort_by_reverse_timestamp l = rev l.
Proof.
  induction l as [|x l IH]; intros S; [reflexivity|].
  apply StronglySorted_inv in S as [S F].
  change (insert_by_reverse_timestamp x (sort_by_reverse_timestamp l) = rev l ++ [x]).
  rewrite IH by exact S. apply insert_by_reverse_timestamp_last.
  intros r Hr. apply in_rev in Hr. rewrite Forall_forall in F. auto.
Qed.

Lemma StronglySorted_snoc {A} (R : A -> A -> Prop) l x :
  StronglySorted R l -> (forall y, In y l -> R y x) -> StronglySorted R (l ++ [x]).
Proof.
  induction l as [|y l IH]; intros S H; simpl.
  - repeat constructor.
  - apply StronglySorted_inv in S as [S F]. constructor.
    + apply IH; [exact S|]. intros; apply H; right; assumption.
    + apply Forall_app. split; [exact F|]. constructor; [apply H; left; reflexivity|constructor].
Qed.

Lemma StronglySorted_rev {A} (R : A -> A -> Prop) l :
  StronglySorted R l -> StronglySorted (fun a b => R b a) (rev l).
Proof.
  induction l as [|x l IH]; intros S; simpl; [constructor|].
  apply StronglySorted_inv in S as [S F]. apply StronglySorted_snoc; [auto|].
  intros y Hy. apply in_rev in Hy. rewrite Forall_forall in F. auto.
Qed.

Lemma rows_for_ascending u db :
  StronglySorted key_lt db -> (forall kv, In kv db -> written_row kv) ->
  StronglySorted (fun r1 r2 => (row_timestamp r1 < row_timestamp r2)%Z) (rows_for u db).
Proof.
  induction db as [|[k v] db IH]; intros S W; simpl; [constructor|].
  apply StronglySorted_inv in S as [S F].
  assert (W' : forall kv, In kv db -> written_row kv) by (intros; apply W; right; assumption).
  destruct (written_row_decode (k, v) (W _ (or_introl eq_refl)))
    as (u' & n & r & Hu' & Hn & Hk & Hkey & Hr); simpl in Hk, Hkey, Hr.
  rewrite Hkey. simpl. destruct (bytes_eqb u' u) eqn:B; [|auto].
  rewrite Hr. constructor; [auto|].
  apply bytes_eqb_spec in B; subst u'.
  rewrite Forall_forall. intros r2 Hr2.
  destruct (rows_for_In _ _ _ Hr2) as (k2 & v2 & key2 & Hin & Hkey2 & Hurl & Hd2).
  destruct (written_row_decode (k2, v2) (W' _ Hin))
    as (u2 & n2 & r2' & _ & Hn2 & Hk2 & Hkey2' & _); simpl in Hk2, Hkey2'.
  rewrite Hkey2' in Hkey2. inversion Hkey2; subst key2. simpl in Hurl, Hd2. subst u2.
  rewrite (decode_row_timestamp _ _ _ Hr), (decode_row_timestamp _ _ _ Hd2).
  rewrite Forall_forall in F. specialize (F _ Hin). unfold key_lt in F. simpl in F.
  rewrite Hk, Hk2, bytes_compare_app, bytes_compare_cons_same in F.
  rewrite be_compare in F by assumption. rewrite N.compare_lt_iff in F. lia.
Qed.

Lemma lookup_loop_provenance u items acc out :
  lookup_loop u items acc = Ok out ->
  forall r, In r out -> In r acc \/
    exists k v key, In (k, v) items /\ key_from_bytes k = Ok key /\ url key = u /\
      decode_row (timestamp key) v = Ok r.
Proof.
  revert acc; induction items as [|[k v] rest IH]; intros acc H r Hr; simpl in H.
  - inversion H; subst; auto.
  - destruct (key_from_bytes k) as [key|] eqn:E; [|discriminate].
    destruct (bytes_eqb (url key) u) eqn:B; simpl in H.
    + destruct (decode_row (timestamp key) v) as [row|] eqn:D; [|discriminate].
      destruct (IH _ H r Hr) as [Hin|(k' & v' & key' & Hin & ?)].
      * apply in_app_or in Hin as [Hin|[<-|[]]]; [auto|].
        right. exists k, v, key. apply bytes_eqb_spec in B. simpl; auto.
      * right. exists k', v', key'. simpl; auto.
    + inversion H; subst; auto.
Qed.

Lemma insert_by_reverse_timestamp_In x l r :
  In r (insert_by_reverse_timestamp x l) -> r = x \/ In r l.
Proof.
  induction l as [|y l IH]; simpl; [intuition|].
  destruct (row_timestamp y <=? row_timestamp x)%Z; simpl; [intros [<-|H]; auto|].
  intros [<-|H]; [auto|]. destruct (IH H); auto.
Qed.

Lemma sort_by_reverse_timestamp_In l r :
  In r (sort_by_reverse_timestamp l) -> In r l.
Proof.
  induction l as [|x l IH]; [simpl; tauto|].
  change (In r (insert_by_reverse_timestamp x (sort_by_reverse_timestamp l)) -> In r (x :: l)).
  intros H. apply insert_by_reverse_timestamp_In in H as [<-|H]; simpl; auto.
Qed.

Lemma StronglySorted_app_l {A} (R : A -> A -> Prop) l1 l2 :
  StronglySorted R (l1 ++ l2) -> StronglySorted R l1.
Proof.
  induction l1 as [|x l1 IH]; simpl; intros S; [constructor|].
  apply StronglySorted_inv in S as [S F]. constructor; [auto|].
  rewrite Forall_forall in *. intros y Hy. apply F, in_or_app. auto.
Qed.

(** Whatever the contents, the loop consumes a prefix of the scan and keeps
    the rows of that prefix whose url matches. *)
Lemma lookup_loop_prefix u items acc :
  (forall kv, In kv items -> written_row kv) ->
  exists pre rest, items = pre ++ rest /\
    lookup_loop u items acc = Ok (acc ++ rows_for u pre).
Proof.
  revert acc; induction items as [|[k v] rest IH]; intros acc W.
  - exists [], []. simpl. now rewrite app_nil_r.
  - destruct (written_row_decode (k, v) (W _ (or_introl eq_refl)))
      as (u' & n & r & Hu' & Hn & Hk & Hkey & Hr); simpl in Hk, Hkey, Hr.
    destruct (bytes_eqb u' u) eqn:B.
    + destruct (IH (acc ++ [r])) as (pre & rest' & E & L).
      { intros kv H; apply W; right; exact H. }
      exists ((k, v) :: pre), rest'. split; [simpl; congruence|].
      simpl. rewrite !Hkey. simpl. rewrite !B. simpl. rewrite !Hr, L.
      now rewrite <- app_assoc.
    + exists [], ((k, v) :: rest). split; [reflexivity|].
      simpl. rewrite Hkey. simpl. rewrite B. simpl. now rewrite app_nil_r.
Qed.

Lemma lookup_built db u :
  built db ->
  exists pre, (exists rest, iterator_from u db = pre ++ rest) /\
    lookup db u = Ok (rev (rows_for u pre)) /\
    StronglySorted key_lt pre /\ (forall kv, In kv pre -> In kv db).
Proof.
  intros Hb. pose proof (built_sorted _ Hb) as S. pose proof (built_rows _ Hb) as W.
  destruct (iterator_from_split u db) as (pre0 & E0 & _).
  assert (Wi : forall kv, In kv (iterator_from u db) -> written_row kv).
  { intros kv H; apply W. rewrite E0. apply in_or_app; auto. }
  destruct (lookup_loop_prefix u _ [] Wi) as (pre & rest & E & L).
  assert (Si : StronglySorted key_lt (iterator_from u db)).
  { rewrite E0 in S. exact (StronglySorted_app_r _ _ _ S). }
  assert (Sp : StronglySorted key_lt pre).
  { rewrite E in Si. exact (StronglySorted_app_l _ _ _ Si). }
  exists pre. split; [eauto|]. split; [|split; [exact Sp|]].
  - unfold lookup. rewrite L. simpl. f_equal. apply sort_ascending_rev.
    apply rows_for_ascending; [exact Sp|].
    intros kv H; apply Wi. rewrite E. apply in_or_app; auto.
  - intros kv H. rewrite E0, E. apply in_or_app; right; apply in_or_app; auto.
Qed.

(** Keys below [u] never carry the url [u]: every key of [u] extends it. *)
Lemma rows_for_iterator_from u db :
  built db -> rows_for u (iterator_from u db) = rows_for u db.
Proof.
  intros Hb. destruct (iterator_from_split u db) as (pre & E & Lt_).
  rewrite E at 2. rewrite rows_for_app. rewrite (rows_for_nil u pre); [reflexivity|].
  intros k v key Hin Hkey Hurl.
  assert (W : written_row (k, v)) by (apply (built_rows _ Hb); rewrite E; apply in_or_app; auto).
  destruct (written_row_decode _ W) as (u' & n & r & _ & _ & Hk & Hkey' & _).
  simpl in Hk, Hkey'. rewrite Hkey' in Hkey. inversion Hkey; subst key. simpl in Hurl. subst u'.
  specialize (Lt_ _ Hin). simpl in Lt_. rewrite Hk in Lt_.
  rewrite bytes_compare_antisym, bytes_compare_prefix in Lt_. discriminate.
Qed.

Lemma lookup_nul_free db u :
  built db -> urls_nul_free db -> lookup db u = Ok (rev (rows_for u db)).
Proof.
  intros Hb NF. pose proof (built_sorted _ Hb) as S. pose proof (built_rows _ Hb) as W.
  destruct (iterator_from_split u db) as (pre & E & _).
  assert (Si : StronglySorted key_lt (iterator_from u db))
    by (rewrite E in S; exact (StronglySorted_app_r _ _ _ S)).
  assert (Wi : forall kv, In kv (iterator_from u db) -> written_row kv)
    by (intros kv H; apply W; rewrite E; apply in_or_app; auto).
  unfold lookup. rewrite lookup_loop_spec; auto.
  - simpl. rewrite rows_for_iterator_from by exact Hb. f_equal. apply sort_ascending_rev.
    apply rows_for_ascending; [exact S|exact W].
  - intros k v key H. apply (NF k v key). rewrite E. apply in_or_app; auto.
  - apply iterator_from_not_below. exact S.
Qed.

Lemma find_ok_In l e : find_ok l = Some e -> In (RowOk e) l.
Proof.
  induction l as [|[e'|t] l IH]; simpl; [discriminate| |].
  - intros H; inversion H; auto.
  - intros H; auto.
Qed.

Lemma find_ok_exists l e : In (RowOk e) l -> exists e', find_ok l = Some e'.
Proof.
  induction l as [|[e'|t] l IH]; simpl; [tauto| |].
  - intros _. eauto.
  - intros [H|H]; [discriminate|auto].
Qed.

Lemma find_ok_latest l e e'' :
  StronglySorted (fun r1 r2 => (row_timestamp r2 < row_timestamp r1)%Z) l ->
  find_ok l = Some e -> In (RowOk e'') l -> (e_timestamp e'' <= e_timestamp e)%Z.
Proof.
  induction l as [|[e'|t] l IH]; simpl; intros S H Hin; [discriminate| |].
  - inversion H; subst e'. apply StronglySorted_inv in S as [_ F].
    destruct Hin as [E|Hin]; [inversion E; lia|].
    rewrite Forall_forall in F. specialize (F _ Hin). simpl in F. lia.
  - apply StronglySorted_inv in S as [S _]. destruct Hin as [E|Hin]; [discriminate|].
    exact (IH S H Hin).
Qed.

Lemma lookup_descending db u :
  built db ->
  exists rows, lookup db u = Ok rows /\
    StronglySorted (fun r1 r2 => (row_timestamp r2 < row_timestamp r1)%Z) rows /\
    forall r, In r rows -> exists k v key, In (k, v) db /\ key_from_bytes k = Ok key /\
      url key = u /\ decode_row (timestamp key) v = Ok r.
Proof.
  intros Hb. destruct (lookup_built db u Hb) as (pre & _ & L & Sp & Sub).
  exists (rev (rows_for u pre)). split; [exact L|]. split.
  - apply StronglySorted_rev. apply rows_for_ascending; [exact Sp|].
    intros kv H. apply (built_rows _ Hb). auto.
  - intros r Hr. apply in_rev in Hr.
    destruct (rows_for_In _ _ _ Hr) as (k & v & key & ?). exists k, v, key. intuition.
Qed.

Lemma urls_nul_freeb_spec db : urls_nul_freeb db = true -> urls_nul_free db.
Proof.
  unfold urls_nul_freeb. rewrite forallb_forall. intros H k v key Hin Hk Hz.
  specialize (H _ Hin). simpl in H. rewrite Hk in H.
  destruct (existsb (N.eqb 0) (url key)) eqn:X; [discriminate|].
  assert (Y : existsb (N.eqb 0) (url key) = true)
    by (apply existsb_exists; exists 0%N; split; [exact Hz|reflexivity]).
  congruence.
Qed.

Lemma lookup_status_downloaded db u rows e :
  lookup db u = Ok rows -> find_ok rows = Some e -> lookup_status db u = Ok (Downloaded e).
Proof. intros L F. unfold lookup_status. rewrite L. destruct rows; [discriminate|]. now rewrite F. Qed.

Lemma key_from_bytes_split u x b0 b1 b2 b3 :
  utf8_valid u = true -> Forall byte_ok [b0; b1; b2; b3] ->
  key_from_bytes (u ++ x :: [b0; b1; b2; b3]) =
    Ok {| url := u; timestamp := Z.of_N (u32_from_be_bytes b0 b1 b2 b3) |}.
Proof.
  intros Hu Hok.
  inversion Hok as [|? ? Hb0 R0]; inversion R0 as [|? ? Hb1 R1];
  inversion R1 as [|? ? Hb2 R2]; inversion R2 as [|? ? Hb3 R3]; subst.
  assert (L : length (u ++ [x; b0; b1; b2; b3]) = (length u + 5)%nat)
    by (rewrite length_app; reflexivity).
  unfold key_from_bytes. rewrite L.
  destruct (Nat.ltb_spec (length u + 5) 5); [lia|].
  replace (length u + 5 - 4)%nat with (length u + 1)%nat by lia.
  rewrite skipn_length_app_plus. cbn [skipn].
  unfold datetime_from_timestamp.
  rewrite u32_from_be_bytes_arith by assumption.
  unfold byte_ok, chrono_min_secs, chrono_max_secs in *.
  replace ((-8334632851200 <=? Z.of_N (b0 * 16777216 + b1 * 65536 + b2 * 256 + b3))%Z &&
           (Z.of_N (b0 * 16777216 + b1 * 65536 + b2 * 256 + b3) <=? 8210298412799)%Z)
    with true by (symmetry; apply andb_true_intro; split; apply Z.leb_le; lia).
  replace (length u + 5 - 5)%nat with (length u) by lia.
  rewrite firstn_length_app, Hu. reflexivity.
Qed.

End IndexFacts.

Module StoreFacts.
Import Store IndexFacts.

(** ** Directory listings *)

Lemma lookup_child_In c cs n : lookup_child c cs = Some n -> In (c, n) cs.
Proof.
  induction cs as [|[c' n'] cs IH]; simpl; [discriminate|].
  destruct (bytes_eqb c' c) eqn:E.
  - apply bytes_eqb_spec in E. subst. intros H; inversion H; auto.
  - intros H; right; auto.
Qed.

Lemma lookup_child_None c cs : lookup_child c cs = None -> ~ In c (map fst cs).
Proof.
  induction cs as [|[c' n'] cs IH]; simpl; [tauto|].
  destruct (bytes_eqb c' c) eqn:E; [discriminate|]. intros H [<-|Hin].
  - rewrite (proj2 (bytes_eqb_spec c' c') eq_refl) in E. discriminate.
  - exact (IH H Hin).
Qed.

Lemma lookup_child_notin c cs : ~ In c (map fst cs) -> lookup_child c cs = None.
Proof.
  induction cs as [|[c' n'] cs IH]; simpl; [reflexivity|]. intros H.
  destruct (bytes_eqb c' c) eqn:E.
  - apply bytes_eqb_spec in E. subst. tauto.
  - apply IH. tauto.
Qed.

Lemma lookup_child_unique c cs n :
  NoDup (map fst cs) -> In (c, n) cs -> lookup_child c cs = Some n.
Proof.
  induction cs as [|[c' n'] cs IH]; simpl; [tauto|]. intros ND Hin.
  inversion ND as [|? ? Hnot ND']; subst.
  destruct (bytes_eqb c' c) eqn:E.
  - apply bytes_eqb_spec in E. subst. destruct Hin as [H|H]; [inversion H; auto|].
    exfalso. apply Hnot. apply (in_map fst) in H. exact H.
  - destruct Hin as [H|H]; [inversion H; subst|auto].
    rewrite (proj2 (bytes_eqb_spec c c) eq_refl) in E. discriminate.
Qed.

Lemma lookup_child_app_new c cs n :
  lookup_child c cs = None -> lookup_child c (cs ++ [(c, n)]) = Some n.
Proof.
  induction cs as [|[c' n'] cs IH]; simpl.
  - rewrite (proj2 (bytes_eqb_spec c c) eq_refl). reflexivity.
  - destruct (bytes_eqb c' c); [discriminate|]. exact IH.
Qed.

Lemma lookup_child_set c n cs :
  lookup_child c cs <> None -> lookup_child c (set_child c n cs) = Some n.
Proof.
  induction cs as [|[c' n'] cs IH]; simpl; [tauto|].
  destruct (bytes_eqb c' c) eqn:E; simpl; rewrite E; auto.
Qed.

Lemma set_child_lookup c n cs : lookup_child c cs = Some n -> set_child c n cs = cs.
Proof.
  induction cs as [|[c' n'] cs IH]; simpl; [discriminate|].
  destruct (bytes_eqb c' c) eqn:E.
  - intros H; inversion H; subst. apply bytes_eqb_spec in E. subst. reflexivity.
  - intros H. now rewrite IH.
Qed.

Lemma set_child_names c n cs : map fst (set_child c n cs) = map fst cs.
Proof.
  induction cs as [|[c' n'] cs IH]; simpl; [reflexivity|].
  destruct (bytes_eqb c' c); simpl; congruence.
Qed.

Lemma set_child_In c n cs c' n' :
  In (c', n') (set_child c n cs) -> (c' = c /\ n' = n) \/ In (c', n') cs.
Proof.
  induction cs as [|[c0 n0] cs IH]; simpl; [tauto|].
  destruct (bytes_eqb c0 c) eqn:E; simpl.
  - apply bytes_eqb_spec in E. subst. intros [H|H]; [inversion H; auto|auto].
  - intros [H|H]; [auto|]. destruct (IH H); auto.
Qed.

Lemma set_child_app_new c n n1 cs :
  lookup_child c cs = None -> set_child c n (cs ++ [(c, n1)]) = cs ++ [(c, n)].
Proof.
  induction cs as [|[c' n'] cs IH]; simpl.
  - rewrite (proj2 (bytes_eqb_spec c c) eq_refl). reflexivity.
  - destruct (bytes_eqb c' c); [discriminate|]. intros H. now rewrite IH.
Qed.

Lemma get_app n p q :
  get n (p ++ q) = match get n p with Some m => get m q | None => None end.
Proof.
  revert n; induction p as [|c p IH]; intros n; simpl; [reflexivity|].
  destruct n as [b|cs]; [reflexivity|].
  destruct (lookup_child c cs); [apply IH|reflexivity].
Qed.

Lemma get_child fs p cs c n :
  get fs p = Some (Dir cs) -> NoDup (map fst cs) -> In (c, n) cs -> get fs (p ++ [c]) = Some n.
Proof.
  intros G ND Hin. rewrite get_app, G. simpl.
  rewrite (lookup_child_unique _ _ _ ND Hin). reflexivity.
Qed.

Lemma read_dir_Dir fs p cs :
  get fs p = Some (Dir cs) -> read_dir fs p = Some (map (fun cn => p ++ [fst cn]) cs).
Proof. unfold read_dir. intros ->. reflexivity. Qed.

Lemma file_name_snoc p c : file_name (p ++ [c]) = Some c.
Proof. unfold file_name. rewrite rev_app_distr. reflexivity. Qed.

(** ** Sorting paths *)

Lemma path_compare_eq a b : path_compare a b = Eq -> a = b.
Proof.
  revert b; induction a as [|x a IH]; intros [|y b]; simpl; try discriminate; auto.
  destruct (bytes_compare x y) eqn:E; try discriminate.
  apply bytes_compare_eq in E. subst. intros H. f_equal. auto.
Qed.

Lemma path_compare_refl a : path_compare a a = Eq.
Proof. induction a as [|x a IH]; simpl; [reflexivity|]. now rewrite bytes_compare_refl. Qed.

Lemma path_compare_antisym a b : path_compare b a = CompOpp (path_compare a b).
Proof.
  revert b; induction a as [|x a IH]; intros [|y b]; simpl; auto.
  rewrite (bytes_compare_antisym x y). destruct (bytes_compare x y); simpl; auto.
Qed.

Lemma path_compare_trans a b c : path_lt a b -> path_lt b c -> path_lt a c.
Proof.
  unfold path_lt. revert b c; induction a as [|x a IH]; intros [|y b] [|z c]; simpl;
    try discriminate; auto.
  destruct (bytes_compare x y) eqn:Exy; try discriminate;
  destruct (bytes_compare y z) eqn:Eyz; try discriminate; intros H1 H2.
  - apply bytes_compare_eq in Exy, Eyz. subst. rewrite bytes_compare_refl. eauto.
  - apply bytes_compare_eq in Exy. subst. now rewrite Eyz.
  - apply bytes_compare_eq in Eyz. subst. now rewrite Exy.
  - now rewrite (bytes_compare_trans _ _ _ Exy Eyz).
Qed.

Lemma path_compare_siblings p c1 c2 :
  path_compare (p ++ [c1]) (p ++ [c2]) = bytes_compare c1 c2.
Proof.
  induction p as [|x p IH]; simpl.
  - destruct (bytes_compare c1 c2); reflexivity.
  - now rewrite bytes_compare_refl.
Qed.

Lemma insert_path_perm p l : Permutation (insert_path p l) (p :: l).
Proof.
  induction l as [|q l IH]; simpl; [auto|].
  destruct (path_compare p q); auto.
  eapply perm_trans; [apply perm_skip, IH|]. apply perm_swap.
Qed.

Lemma sort_paths_perm l : Permutation (sort_paths l) l.
Proof.
  induction l as [|p l IH]; simpl; [auto|].
  eapply perm_trans; [apply insert_path_perm|]. auto.
Qed.

Lemma sort_paths_In l q : In q (sort_paths l) <-> In q l.
Proof. split; apply Permutation_in; [|symmetry]; apply sort_paths_perm. Qed.

Lemma insert_path_sorted p l :
  StronglySorted path_lt l -> ~ In p l -> StronglySorted path_lt (insert_path p l).
Proof.
  induction l as [|q l IH]; simpl; intros S N.
  - repeat constructor.
  - apply StronglySorted_inv in S as [S F].
    destruct (path_compare p q) eqn:C.
    + apply path_compare_eq in C. exfalso. apply N. left. symmetry. exact C.
    + constructor; [constructor; assumption|]. constructor; [exact C|].
      rewrite Forall_forall in *. intros x Hx. eapply path_compare_trans; [exact C|]. auto.
    + constructor; [apply IH; tauto|].
      rewrite Forall_forall in *. intros x Hx.
      apply (Permutation_in _ (insert_path_perm p l)) in Hx as [<-|Hx]; [|auto].
      unfold path_lt. now rewrite path_compare_antisym, C.
Qed.

Lemma sort_paths_sorted l : NoDup l -> StronglySorted path_lt (sort_paths l).
Proof.
  induction l as [|p l IH]; simpl; intros ND; [constructor|].
  inversion ND; subst. apply insert_path_sorted; auto.
  rewrite sort_paths_In. assumption.
Qed.

(** ** Runs of the iterator *)

Section Runs.
Variable ppl : list nat.
Variable fs : node.

Lemma steps_trans s1 l1 s2 l2 s3 :
  steps ppl fs s1 l1 s2 -> steps ppl fs s2 l2 s3 -> steps ppl fs s1 (l1 ++ l2) s3.
Proof.
  induction 1; simpl; intros; auto.
  - eapply steps_continue; eauto.
  - eapply steps_yield; eauto.
Qed.

Lemma next_S fuel st :
  next ppl fs (S fuel) st =
  match step ppl fs st with
  | Finished => Some (None, st) | Yield item st' => Some (Some item, st')
  | Continue st' => next ppl fs fuel st'
  end.
Proof. reflexivity. Qed.

Lemma next_mono fuel st r : next ppl fs fuel st = Some r -> next ppl fs (S fuel) st = Some r.
Proof.
  revert st; induction fuel as [|fuel IH]; intros st H; [discriminate|].
  rewrite next_S in H |- *. destruct (step ppl fs st); auto.
Qed.

Lemma collect_S fuel st :
  collect ppl fs (S fuel) st =
  match next ppl fs (S fuel) st with
  | None => None
  | Some (None, _) => Some []
  | Some (Some item, st') =>
      match collect ppl fs fuel st' with None => None | Some items => Some (item :: items) end
  end.
Proof. reflexivity. Qed.

Lemma collect_mono fuel st l :
  collect ppl fs fuel st = Some l -> collect ppl fs (S fuel) st = Some l.
Proof.
  revert st l; induction fuel as [|fuel IH]; intros st l; [discriminate|].
  rewrite (collect_S (S fuel)), collect_S.
  destruct (next ppl fs (S fuel) st) as [[[x|] s']|] eqn:E; try discriminate.
  - rewrite (next_mono _ _ _ E).
    destruct (collect ppl fs fuel s') eqn:E'; try discriminate.
    now rewrite (IH _ _ E').
  - now rewrite (next_mono _ _ _ E).
Qed.

Lemma next_sound fuel st o st' :
  next ppl fs fuel st = Some (o, st') ->
  match o with
  | None => steps ppl fs st [] st' /\ step ppl fs st' = Finished
  | Some x => steps ppl fs st [x] st'
  end.
Proof.
  revert st; induction fuel as [|fuel IH]; intros st; [discriminate|]. simpl.
  destruct (step ppl fs st) eqn:E.
  - intros H; inversion H; subst. split; [constructor|assumption].
  - intros H; inversion H; subst. eapply steps_yield; [exact E|constructor].
  - intros H. specialize (IH _ H). destruct o.
    + eapply steps_continue; eauto.
    + destruct IH. split; [eapply steps_continue; eauto|assumption].
Qed.

Lemma collect_sound fuel st l :
  collect ppl fs fuel st = Some l ->
  exists st', steps ppl fs st l st' /\ step ppl fs st' = Finished.
Proof.
  revert st l; induction fuel as [|fuel IH]; intros st l; [discriminate|]. rewrite collect_S.
  destruct (next ppl fs (S fuel) st) as [[[x|] s']|] eqn:E; try discriminate.
  - destruct (collect ppl fs fuel s') eqn:E'; try discriminate. intros H; inversion H; subst.
    destruct (IH _ _ E') as (sf & Hs & Hf). exists sf. split; [|assumption].
    apply next_sound in E. exact (steps_trans _ _ _ _ _ E Hs).
  - intros H; inversion H; subst. apply next_sound in E. eauto.
Qed.

Lemma steps_det st l1 s1 l2 s2 :
  steps ppl fs st l1 s1 -> step ppl fs s1 = Finished ->
  steps ppl fs st l2 s2 -> step ppl fs s2 = Finished -> l1 = l2.
Proof.
  intros H1; revert l2 s2; induction H1 as [st|st st' l st'' E H IH|st x st' l st'' E H IH];
    intros l2 s2 F1 H2 F2;
    inversion H2 as [s0|s0 t0 l0 t1 E0 H0|s0 y t0 l0 t1 E0 H0]; subst; try congruence.
  - rewrite E in E0. injection E0 as <-. eauto.
  - rewrite E in E0. injection E0 as <- <-. f_equal. eauto.
Qed.

Lemma collect_complete st l st' :
  steps ppl fs st l st' -> step ppl fs st' = Finished ->
  exists fuel, collect ppl fs fuel st = Some l.
Proof.
  induction 1 as [st|st st' l st'' E H IH|st x st' l st'' E H IH]; intros F.
  - exists 1%nat. simpl. now rewrite F.
  - destruct (IH F) as [[|fuel] C]; [discriminate|]. exists (S (S fuel)).
    assert (N : exists r, next ppl fs (S fuel) st' = Some r)
      by (rewrite collect_S in C; destruct (next ppl fs (S fuel) st'); [eauto|discriminate]).
    destruct N as [r N].
    apply collect_mono in C. rewrite collect_S in C |- *. rewrite next_S, E, N.
    rewrite (next_mono _ _ _ N) in C. exact C.
  - destruct (IH F) as [fuel C]. exists (S fuel). simpl. rewrite E. now rewrite C.
Qed.

End Runs.

(** ** The traversal of a well-formed store *)

Lemma is_hex_lower_valid b : is_hex_lower b = true -> is_valid_char b = true.
Proof.
  unfold is_hex_lower, is_valid_char, in_range. rewrite !orb_true_iff, !andb_true_iff, !N.leb_le.
  lia.
Qed.

Lemma shape_dir ns pre n : shape ns pre n -> exists cs, n = Dir cs.
Proof. destruct ns, n; simpl; try tauto; eauto. Qed.

Lemma shape_nodup ns pre cs : shape ns pre (Dir cs) -> NoDup (map fst cs).
Proof. destruct ns; simpl; tauto. Qed.

Lemma shape_hex ns pre cs c n :
  shape ns pre (Dir cs) -> In (c, n) cs -> forallb is_hex_lower c = true.
Proof. destruct ns; simpl; intros [_ H] Hin; apply (H _ _ Hin). Qed.

Lemma find_none_intro {A} (f : A -> bool) l :
  (forall x, In x l -> f x = false) -> find f l = None.
Proof.
  induction l as [|x l IH]; simpl; intros H; [reflexivity|].
  rewrite (H x (or_introl eq_refl)). apply IH. auto.
Qed.

Lemma step_empty ppl fs S l :
  step ppl fs {| stack := [] :: S; level := l |} = Continue {| stack := S; level := decrement_level l |}.
Proof. unfold step. simpl. destruct (is_last ppl _); reflexivity. Qed.

Lemma expected_dir_eq ns fs q :
  expected_dir ns fs q =
  match read_dir fs q with None => [] | Some ps => level_output ns fs (sort_paths ps) end.
Proof. destruct ns; simpl; destruct (read_dir fs q); reflexivity. Qed.

Lemma In_children q cs x :
  In x (sort_paths (map (fun cn => q ++ [fst cn]) cs)) <->
  exists (c : bytes) (n : node), x = q ++ [c] /\ In (c, n) cs.
Proof.
  rewrite sort_paths_In, in_map_iff. split.
  - intros [[c n] [<- Hin]]. eauto.
  - intros (c & n & -> & Hin). exists (c, n). auto.
Qed.

Lemma path_to_paths_shape fs q ns pre cs o :
  get fs q = Some (Dir cs) -> shape ns pre (Dir cs) ->
  path_to_paths fs q o = Ok (rev (sort_paths (map (fun cn => q ++ [fst cn]) cs))).
Proof.
  intros G Sh. unfold path_to_paths, is_dir. rewrite G, (read_dir_Dir _ _ _ G).
  destruct o as [k|]; [|reflexivity].
  rewrite find_none_intro; [reflexivity|]. intros x Hx.
  apply in_rev, In_children in Hx as (c & n & -> & Hin).
  unfold invalid_name. rewrite file_name_snoc.
  assert (E : existsb (fun b => negb (is_valid_char b)) c = false).
  { pose proof (shape_hex _ _ _ _ _ Sh Hin) as Hh.
    apply not_true_iff_false. rewrite existsb_exists. intros (b & Hb & Hv).
    rewrite forallb_forall in Hh. rewrite (is_hex_lower_valid _ (Hh b Hb)) in Hv. discriminate. }
  rewrite E. apply andb_false_r.
Qed.

Section Walk.
Variable ppl : list nat.
Variable fs : node.

Lemma children_walk_ok ns pre q cs :
  get fs q = Some (Dir cs) -> shape ns pre (Dir cs) ->
  Forall (walk_ok fs ns) (sort_paths (map (fun cn => q ++ [fst cn]) cs)).
Proof.
  intros G Sh. apply Forall_forall. intros x Hx.
  apply In_children in Hx as (c & n & -> & Hin).
  destruct ns as [|k ns]; simpl; [exact I|].
  destruct Sh as [ND H]. destruct (H _ _ Hin) as (_ & _ & Shc).
  destruct (shape_dir _ _ _ Shc) as [cs' ->].
  exists (pre ++ c), cs'. split; [|exact Shc].
  exact (get_child _ _ _ _ _ G ND Hin).
Qed.

Lemma walk ns : forall d L S,
  (d + length ns = length ppl)%nat -> Forall (walk_ok fs ns) L ->
  steps ppl fs {| stack := L :: S; level := Some d |} (level_output ns fs L)
    {| stack := S; level := decrement_level (Some d) |}.
Proof.
  induction ns as [|k ns IHns]; intros d L; induction L as [|q L IHL]; intros S Hd HL.
  - eapply steps_continue; [apply step_empty|constructor].
  - simpl in Hd. rewrite Nat.add_0_r in Hd. subst d.
    inversion HL as [|? ? _ HL']; subst.
    eapply steps_yield; [|apply IHL; auto].
    unfold step. simpl. unfold is_last. simpl. rewrite Nat.eqb_refl. reflexivity.
  - eapply steps_continue; [apply step_empty|constructor].
  - inversion HL as [|? ? Hq HL']; subst.
    destruct Hq as (pre & cs & G & Sh).
    assert (NL : Nat.eqb d (length ppl) = false) by (apply Nat.eqb_neq; simpl in Hd; lia).
    eapply steps_continue.
    + unfold step. simpl. unfold is_last. simpl. rewrite NL.
      rewrite (path_to_paths_shape _ _ _ _ _ _ G Sh). reflexivity.
    + rewrite rev_involutive.
      change (level_output (k :: ns) fs (q :: L))
        with (expected_dir ns fs q ++ level_output (k :: ns) fs L).
      rewrite expected_dir_eq, (read_dir_Dir _ _ _ G).
      eapply steps_trans.
      * apply IHns; [simpl in Hd |- *; lia|]. exact (children_walk_ok _ _ _ _ G Sh).
      * apply IHL; auto.
Qed.

End Walk.

(** The whole run of [Store::entries] on a well-formed store. *)
Lemma entries_run ppl cs :
  shape ppl [] (Dir cs) ->
  steps ppl (Dir cs) entries (level_output ppl (Dir cs) (sort_paths (map (fun cn => [] ++ [fst cn]) cs)))
    {| stack := []; level := None |}.
Proof.
  intros Sh.
  eapply steps_continue.
  - unfold step, is_last, current_prefix_part_length, entries. cbn -[path_to_paths].
    rewrite (path_to_paths_shape (Dir cs) [] _ _ cs _ eq_refl Sh). reflexivity.
  - rewrite rev_involutive. rewrite <- (app_nil_r (level_output _ _ _)).
    eapply steps_trans.
    + apply walk; [reflexivity|]. eapply children_walk_ok; [reflexivity|exact Sh].
    + eapply steps_continue; [apply step_empty|constructor].
Qed.


(** ** Hex digests *)

Lemma val_hex a j : is_hex_lower a = true ->
  exists v, val a j = Ok v /\ (v < 16)%N /\ hex_digit v = a.
Proof.
  unfold is_hex_lower, val, in_range. rewrite orb_true_iff, !andb_true_iff, !N.leb_le.
  intros H.
  destruct (N.leb_spec 65 a), (N.leb_spec a 70), (N.leb_spec 97 a), (N.leb_spec a 102),
    (N.leb_spec 48 a), (N.leb_spec a 57); cbn [andb]; try lia.
  all: eexists; split; [reflexivity|]; unfold hex_digit;
    match goal with |- (?v < 16)%N /\ _ => destruct (N.ltb_spec v 10) end; split; lia.
Qed.

Lemma hex_pair hi lo : (hi < 16)%N -> (lo < 16)%N ->
  N.lor (N.shiftl hi 4) lo = (hi * 16 + lo)%N /\
  ((hi * 16 + lo) / 16 = hi)%N /\ ((hi * 16 + lo) mod 16 = lo)%N.
Proof.
  intros Hh Hl. split; [apply (lor_shiftl_small hi lo 4); exact Hl|].
  split.
  - rewrite N.div_add_l by lia. rewrite N.div_small by lia. lia.
  - rewrite N.add_comm, N.Div0.mod_add. apply N.mod_small. exact Hl.
Qed.

Lemma decode_pairs_hex n : forall s i,
  length s = (2 * n)%nat -> forallb is_hex_lower s = true ->
  exists d, decode_pairs s i = Ok d /\ to_hex d = s.
Proof.
  induction n as [|n IH]; intros s i L H.
  - destruct s; [|discriminate]. exists []. split; reflexivity.
  - destruct s as [|a [|b s]]; simpl in L; try lia.
    simpl in H. apply andb_true_iff in H as [Ha H]. apply andb_true_iff in H as [Hb H].
    destruct (val_hex a (2 * i) Ha) as (hi & Va & Hh & Da).
    destruct (val_hex b (2 * i + 1) Hb) as (lo & Vb & Hl & Db).
    destruct (IH s (S i)) as (d & Ed & Td); [lia|exact H|].
    destruct (hex_pair hi lo Hh Hl) as (E1 & E2 & E3).
    exists ((hi * 16 + lo)%N :: d). split.
    + change (decode_pairs (a :: b :: s) i) with
        (match val a (2 * i) with
         | Err e => Err e
         | Ok hi =>
             match val b (2 * i + 1) with
             | Err e => Err e
             | Ok lo =>
                 match decode_pairs s (S i) with
                 | Err e => Err e
                 | Ok rest => Ok (N.lor (N.shiftl hi 4) lo :: rest)
                 end
             end
         end).
      rewrite Va, Vb, Ed, E1. reflexivity.
    + change (to_hex ((hi * 16 + lo)%N :: d)) with
        (hex_digit ((hi * 16 + lo) / 16) :: hex_digit ((hi * 16 + lo) mod 16) :: to_hex d)%N.
      rewrite E2, E3, Da, Db, Td. reflexivity.
Qed.

Lemma from_hex16_hex s : length s = 32%nat -> forallb is_hex_lower s = true ->
  exists d, from_hex16 s = Ok d /\ to_hex d = s.
Proof.
  intros L H. unfold from_hex16. rewrite L. simpl.
  exact (decode_pairs_hex 16 s 0 L H).
Qed.

Lemma bytes_compare_app_same_length c1 c2 r1 r2 :
  length c1 = length c2 -> bytes_compare c1 c2 = Lt -> bytes_compare (c1 ++ r1) (c2 ++ r2) = Lt.
Proof.
  revert c2; induction c1 as [|x c1 IH]; intros [|y c2]; simpl; try discriminate.
  intros L. destruct (N.compare x y); auto.
Qed.

Lemma StronglySorted_app_intro {A} (R : A -> A -> Prop) l1 l2 :
  StronglySorted R l1 -> StronglySorted R l2 ->
  (forall a b, In a l1 -> In b l2 -> R a b) -> StronglySorted R (l1 ++ l2).
Proof.
  induction l1 as [|x l1 IH]; simpl; intros S1 S2 H; [exact S2|].
  apply StronglySorted_inv in S1 as [S1 F1]. constructor.
  - apply IH; auto.
  - apply Forall_app. split; [exact F1|]. apply Forall_forall. auto.
Qed.

Lemma flat_map_blocks (F : PathBuf -> list (result Entry IterationError)) (L : list PathBuf)
    (R : Entry -> Entry -> Prop) (B : PathBuf -> Entry -> Prop) :
  StronglySorted path_lt L ->
  (forall q, In q L -> exists es, F q = map Ok es /\ StronglySorted R es /\
     forall e, In e es -> B q e) ->
  (forall q1 q2 e1 e2, In q1 L -> In q2 L -> path_lt q1 q2 -> B q1 e1 -> B q2 e2 -> R e1 e2) ->
  exists es, flat_map F L = map Ok es /\ StronglySorted R es /\
    forall e, In e es -> exists q, In q L /\ B q e.
Proof.
  induction L as [|q L IH]; intros SL HF HR.
  - exists []. simpl. split; [reflexivity|]. split; [constructor|contradiction].
  - apply StronglySorted_inv in SL as [SL FL].
    destruct (HF q (or_introl eq_refl)) as (es1 & E1 & S1 & B1).
    destruct IH as (es2 & E2 & S2 & B2); [exact SL|intros; apply HF; now right|
      intros; eapply HR; eauto; now right|].
    exists (es1 ++ es2). simpl. rewrite E1, E2, map_app. split; [reflexivity|]. split.
    + apply StronglySorted_app_intro; auto. intros a b Ha Hb.
      destruct (B2 b Hb) as (q' & Hq' & Bb).
      eapply HR; [left; reflexivity|right; exact Hq'| |apply B1; exact Ha|exact Bb].
      rewrite Forall_forall in FL. auto.
    + intros e He. apply in_app_or in He as [He|He].
      * exists q. auto.
      * destruct (B2 e He) as (q' & ? & ?). exists q'. auto.
Qed.

(** ** What the traversal of a well-formed store yields *)

Lemma NoDup_children (p : PathBuf) (cs : list (bytes * node)) :
  NoDup (map fst cs) -> NoDup (map (fun cn => p ++ [fst cn]) cs).
Proof.
  induction cs as [|[c n] cs IH]; simpl; intros ND; [constructor|].
  inversion ND as [|? ? Hn ND']; subst. constructor; [|auto].
  rewrite in_map_iff. intros [[c' n'] [E Hin]]. apply app_inv_head in E.
  injection E as ->. apply Hn. apply (in_map fst) in Hin. exact Hin.
Qed.

Lemma path_to_entry_path fs q e : path_to_entry fs q = Ok e -> path e = q.
Proof.
  unfold path_to_entry. destruct (is_file fs q); [|discriminate].
  destruct (file_name q); [|discriminate]. destruct (forallb is_valid_char b); [|discriminate].
  destruct (from_hex16 b); [|discriminate]. intros H; inversion H; reflexivity.
Qed.

Lemma entry_of_file fs p pre cs c n :
  get fs p = Some (Dir cs) -> shape [] pre (Dir cs) -> In (c, n) cs ->
  exists d, path_to_entry fs (p ++ [c]) = Ok {| path := p ++ [c]; digest := d |} /\
    to_hex d = c /\ exists rest, c = pre ++ rest.
Proof.
  intros G Sh Hin. pose proof (shape_nodup _ _ _ Sh) as ND.
  destruct Sh as [_ H]. destruct (H _ _ Hin) as (Hh & L & Pre & b & ->).
  destruct (from_hex16_hex c L Hh) as (d & Ed & Td).
  exists d. split; [|split; assumption].
  unfold path_to_entry, is_file. rewrite (get_child _ _ _ _ _ G ND Hin), file_name_snoc.
  replace (forallb is_valid_char c) with true.
  - rewrite Ed. reflexivity.
  - symmetry. rewrite forallb_forall in Hh |- *. intros x Hx. apply is_hex_lower_valid. auto.
Qed.

Lemma map_as_flat_map {A B} (f : A -> B) l : map f l = flat_map (fun x => [f x]) l.
Proof. induction l as [|x l IH]; simpl; congruence. Qed.

Section Output.
Variable fs : node.

Lemma dir_output ns : forall p pre cs,
  get fs p = Some (Dir cs) -> shape ns pre (Dir cs) ->
  exists es, level_output ns fs (sort_paths (map (fun cn => p ++ [fst cn]) cs)) = map Ok es /\
    StronglySorted digest_lt es /\
    forall e, In e es -> (exists rest, to_hex (digest e) = pre ++ rest) /\ path_to_entry fs (path e) = Ok e.
Proof.
  induction ns as [|k ns IH]; intros p pre cs G Sh;
    pose proof (sort_paths_sorted _ (NoDup_children p cs (shape_nodup _ _ _ Sh))) as SL.
  - simpl level_output. rewrite map_as_flat_map.
    destruct (flat_map_blocks (fun q => [path_to_entry fs q]) _ digest_lt
      (fun q e => exists c, q = p ++ [c] /\ to_hex (digest e) = c /\
         (exists rest, c = pre ++ rest) /\ path_to_entry fs q = Ok e) SL)
      as (es & E & S & B).
    + intros q Hq. apply In_children in Hq as (c & n & -> & Hin).
      destruct (entry_of_file _ _ _ _ _ _ G Sh Hin) as (d & Ed & Td & Pre).
      exists [{| path := p ++ [c]; digest := d |}]. rewrite Ed. split; [reflexivity|].
      split; [repeat constructor|]. intros e [<-|[]]. exists c. auto.
    + intros q1 q2 e1 e2 _ _ Hlt (c1 & -> & T1 & _) (c2 & -> & T2 & _).
      unfold digest_lt. rewrite T1, T2. unfold path_lt in Hlt.
      rewrite path_compare_siblings in Hlt. exact Hlt.
    + exists es. split; [exact E|]. split; [exact S|].
      intros e He. destruct (B e He) as (q & _ & c & -> & T & (rest & ->) & Pe).
      split; [exists rest; exact T|]. rewrite (path_to_entry_path _ _ _ Pe). exact Pe.
  - simpl level_output.
    destruct (flat_map_blocks (expected_dir ns fs) _ digest_lt
      (fun q e => exists c rest, q = p ++ [c] /\ length c = k /\
         to_hex (digest e) = pre ++ c ++ rest /\ path_to_entry fs (path e) = Ok e) SL)
      as (es & E & S & B).
    + intros q Hq. apply In_children in Hq as (c & n & -> & Hin).
      pose proof (shape_nodup _ _ _ Sh) as ND.
      destruct Sh as [_ H]. destruct (H _ _ Hin) as (_ & L & Shc).
      destruct (shape_dir _ _ _ Shc) as [cs' ->].
      pose proof (get_child _ _ _ _ _ G ND Hin) as Gc.
      rewrite expected_dir_eq, (read_dir_Dir _ _ _ Gc).
      destruct (IH _ _ _ Gc Shc) as (es & E & S & B).
      exists es. split; [exact E|]. split; [exact S|].
      intros e He. destruct (B e He) as ((rest & T) & Pe). exists c, rest.
      rewrite <- app_assoc in T. auto.
    + intros q1 q2 e1 e2 _ _ Hlt (c1 & r1 & -> & L1 & T1 & _) (c2 & r2 & -> & L2 & T2 & _).
      unfold digest_lt. rewrite T1, T2, bytes_compare_app.
      unfold path_lt in Hlt. rewrite path_compare_siblings in Hlt.
      apply bytes_compare_app_same_length; [congruence|exact Hlt].
    + exists es. split; [exact E|]. split; [exact S|].
      intros e He. destruct (B e He) as (q & _ & c & rest & _ & _ & T & Pe).
      split; [exists (c ++ rest); exact T|exact Pe].
Qed.

Lemma dir_output_complete ns : forall p pre cs r b,
  get fs p = Some (Dir cs) -> shape ns pre (Dir cs) -> get fs (p ++ r) = Some (File b) ->
  In (path_to_entry fs (p ++ r)) (level_output ns fs (sort_paths (map (fun cn => p ++ [fst cn]) cs))).
Proof.
  induction ns as [|k ns IH]; intros p pre cs r b G Sh Gr;
    (destruct r as [|c r]; [rewrite app_nil_r, G in Gr; discriminate|]);
    rewrite get_app, G in Gr; simpl in Gr;
    destruct (lookup_child c cs) as [n|] eqn:Lc; try discriminate;
    apply lookup_child_In in Lc;
    assert (Hq : In (p ++ [c]) (sort_paths (map (fun cn => p ++ [fst cn]) cs)))
      by (apply In_children; eauto).
  - destruct Sh as [_ H]. destruct (H _ _ Lc) as (_ & _ & _ & b' & ->).
    destruct r; [|discriminate]. simpl level_output. apply in_map. exact Hq.
  - pose proof (shape_nodup _ _ _ Sh) as ND.
    destruct Sh as [_ H]. destruct (H _ _ Lc) as (_ & _ & Shc).
    destruct (shape_dir _ _ _ Shc) as [cs' ->].
    pose proof (get_child _ _ _ _ _ G ND Lc) as Gc.
    simpl level_output. apply in_flat_map. exists (p ++ [c]). split; [exact Hq|].
    rewrite expected_dir_eq, (read_dir_Dir _ _ _ Gc).
    replace (p ++ c :: r) with ((p ++ [c]) ++ r) by (rewrite <- app_assoc; reflexivity).
    eapply IH; [exact Gc|exact Shc|].
    rewrite get_app, Gc. exact Gr.
Qed.

End Output.

(** ** Adding a file *)

Lemma set_child_set c n1 n2 cs : set_child c n2 (set_child c n1 cs) = set_child c n2 cs.
Proof.
  induction cs as [|[c' n'] cs IH]; simpl; [reflexivity|].
  destruct (bytes_eqb c' c) eqn:E; simpl; rewrite E; congruence.
Qed.

Lemma write_new_nil cs name b :
  write_new (Dir cs) [] name b = create_file (Dir cs) [name] b.
Proof. reflexivity. Qed.

Lemma create_file_cons cs c x r b :
  create_file (Dir cs) (c :: x :: r) b =
  match lookup_child c cs with
  | Some n' => match create_file n' (x :: r) b with Some n'' => Some (Dir (set_child c n'' cs)) | None => None end
  | None => None
  end.
Proof. reflexivity. Qed.

Lemma write_new_cons cs c parts name b :
  write_new (Dir cs) (c :: parts) name b =
  match lookup_child c cs with
  | Some n' => option_map (fun n3 => Dir (set_child c n3 cs)) (write_new n' parts name b)
  | None => option_map (fun n3 => Dir (cs ++ [(c, n3)])) (write_new (Dir []) parts name b)
  end.
Proof.
  unfold write_new. simpl create_dir_all.
  assert (NE : parts ++ [name] <> []) by (destruct parts; discriminate).
  destruct (lookup_child c cs) as [n'|] eqn:L.
  - destruct (create_dir_all n' parts) as [n''|]; [|reflexivity].
    change ((c :: parts) ++ [name]) with (c :: (parts ++ [name])).
    destruct (parts ++ [name]) as [|x r] eqn:E; [contradiction|].
    rewrite create_file_cons, lookup_child_set by congruence.
    destruct (create_file n'' (x :: r) b); simpl; [|reflexivity].
    now rewrite set_child_set.
  - destruct (create_dir_all (Dir []) parts) as [n''|]; [|reflexivity].
    change ((c :: parts) ++ [name]) with (c :: (parts ++ [name])).
    destruct (parts ++ [name]) as [|x r] eqn:E; [contradiction|].
    rewrite create_file_cons, lookup_child_app_new by exact L.
    destruct (create_file n'' (x :: r) b); simpl; [|reflexivity].
    now rewrite set_child_app_new.
Qed.

Lemma get_nonempty n q x m : get n (q ++ [x]) = Some m -> exists c0 n0 cs0, n = Dir ((c0, n0) :: cs0).
Proof.
  destruct q as [|y q]; simpl; destruct n as [|[|[c0 n0] cs0]]; simpl; try discriminate; eauto.
Qed.

Lemma shape_empty ns pre : shape ns pre (Dir []).
Proof. destruct ns; simpl; (split; [constructor|contradiction]). Qed.

Lemma full_empty ns : full ns (Dir []).
Proof. destruct ns; simpl; [exact I|contradiction]. Qed.

Lemma NoDup_snoc {A} (l : list A) x : NoDup l -> ~ In x l -> NoDup (l ++ [x]).
Proof.
  intros ND N. apply NoDup_app; [exact ND|repeat constructor; auto|].
  intros y Hy [<-|[]]. contradiction.
Qed.

(** [write_new] keeps a store well formed and full, and adds the file. *)
Lemma write_new_shape ns : forall pre n parts name b,
  shape ns pre n -> full ns n ->
  Forall2 (fun k c => length c = k /\ forallb is_hex_lower c = true) ns parts ->
  length name = 32%nat -> forallb is_hex_lower name = true ->
  (exists rest, name = pre ++ concat parts ++ rest) ->
  get n (parts ++ [name]) = None ->
  exists n2, write_new n parts name b = Some n2 /\ shape ns pre n2 /\ full ns n2 /\
    get n2 (parts ++ [name]) = Some (File b).
Proof.
  induction ns as [|k ns IH]; intros pre n parts name b Sh Fu P Ln Hn Pre G;
    destruct (shape_dir _ _ _ Sh) as [cs ->]; inversion P as [|? c ? parts' [Lc Hc] P']; subst.
  - simpl in G. rewrite write_new_nil. simpl create_file. destruct (lookup_child name cs) eqn:L;
      [discriminate|].
    exists (Dir (cs ++ [(name, File b)])). split; [reflexivity|]. split; [|split].
    + destruct Sh as [ND H]. split.
      * rewrite map_app. apply NoDup_snoc; [exact ND|]. apply lookup_child_None. exact L.
      * intros c n' Hin. apply in_app_or in Hin as [Hin|[E|[]]]; [auto|].
        injection E as <- <-. simpl in Pre. repeat split; eauto.
    + exact I.
    + simpl. rewrite lookup_child_app_new by exact L. reflexivity.
  - simpl in G. rewrite write_new_cons.
    destruct Pre as [rest Pre].
    assert (Pre' : exists rest, name = (pre ++ c) ++ concat parts' ++ rest)
      by (exists rest; rewrite Pre; simpl; rewrite <- !app_assoc; reflexivity).
    destruct (lookup_child c cs) as [n'|] eqn:L.
    + apply lookup_child_In in L as Hin.
      pose proof (shape_nodup _ _ _ Sh) as ND.
      destruct Sh as [_ H]. destruct (H _ _ Hin) as (_ & _ & Shc).
      simpl in Fu. destruct (Fu _ _ Hin) as (_ & Fuc).
      destruct (IH (pre ++ c) n' parts' name b Shc Fuc P' Ln Hn Pre' G)
        as (n3 & W & Sh3 & Fu3 & G3).
      rewrite W. exists (Dir (set_child c n3 cs)). split; [reflexivity|]. split; [|split].
      * split; [rewrite set_child_names; exact ND|].
        intros c' n'' Hin'. apply set_child_In in Hin' as [[-> ->]|Hin']; [|auto]. repeat split; auto.
      * simpl. intros c' n'' Hin'. apply set_child_In in Hin' as [[-> ->]|Hin']; [|exact (Fu _ _ Hin')].
        split; [|exact Fu3]. exact (get_nonempty _ _ _ _ G3).
      * simpl. rewrite lookup_child_set by congruence. exact G3.
    + destruct (IH (pre ++ c) (Dir []) parts' name b (shape_empty _ _) (full_empty _) P' Ln Hn
        Pre') as (n3 & W & Sh3 & Fu3 & G3).
      { destruct parts'; reflexivity. }
      rewrite W. exists (Dir (cs ++ [(c, n3)])). split; [reflexivity|]. split; [|split].
      * destruct Sh as [ND H]. split.
        -- rewrite map_app. apply NoDup_snoc; [exact ND|]. apply lookup_child_None. exact L.
        -- intros c' n'' Hin'. apply in_app_or in Hin' as [Hin'|[E|[]]]; [auto|].
           injection E as <- <-. repeat split; auto.
      * simpl. intros c' n'' Hin'. apply in_app_or in Hin' as [Hin'|[E|[]]].
        -- exact (Fu _ _ Hin').
        -- injection E as <- <-. split; [|exact Fu3]. exact (get_nonempty _ _ _ _ G3).
      * simpl. rewrite lookup_child_app_new by exact L. exact G3.
Qed.

(** ** Store paths *)

Lemma to_hex_length d : length (to_hex d) = (2 * length d)%nat.
Proof. induction d as [|x d IH]; simpl; [reflexivity|]. rewrite IH. lia. Qed.

Lemma hex_digit_hex v : (v < 16)%N -> is_hex_lower (hex_digit v) = true.
Proof.
  intros H. unfold hex_digit, is_hex_lower, in_range.
  destruct (N.ltb_spec v 10); rewrite orb_true_iff, !andb_true_iff, !N.leb_le; lia.
Qed.

Lemma to_hex_hex d : Forall byte_ok d -> forallb is_hex_lower (to_hex d) = true.
Proof.
  induction 1 as [|x d Hx _ IH]; simpl; [reflexivity|].
  unfold byte_ok in Hx.
  rewrite !hex_digit_hex; [exact IH| |].
  - apply N.mod_lt. discriminate.
  - apply N.Div0.div_lt_upper_bound. lia.
Qed.

Lemma path_parts_spec ppl s parts :
  path_parts ppl s = Some parts -> forallb is_hex_lower s = true ->
  Forall2 (fun k c => length c = k /\ forallb is_hex_lower c = true) ppl parts /\
  exists rest, s = concat parts ++ rest.
Proof.
  revert s parts; induction ppl as [|len ppl IH]; intros s parts E H; simpl in E.
  - injection E as <-. split; [constructor|]. exists s. reflexivity.
  - destruct (Nat.leb_spec len (length s)) as [Le|]; [|discriminate].
    destruct (path_parts ppl (skipn len s)) as [parts'|] eqn:E'; [|discriminate].
    injection E as <-.
    rewrite <- (firstn_skipn len s), forallb_app, andb_true_iff in H. destruct H as [H1 H2].
    destruct (IH _ _ E' H2) as [F [rest R]].
    split.
    + constructor; [|exact F]. split; [|exact H1]. apply firstn_length_le. exact Le.
    + exists rest. simpl. rewrite <- app_assoc, <- R. symmetry. apply firstn_skipn.
Qed.

Lemma path_parts_some ppl s :
  (list_sum ppl <= length s)%nat -> exists parts, path_parts ppl s = Some parts.
Proof.
  revert s; induction ppl as [|len ppl IH]; intros s H; simpl in *; [eauto|].
  destruct (Nat.leb_spec len (length s)); [|lia].
  destruct (IH (skipn len s)) as [parts E]; [rewrite length_skipn; lia|].
  rewrite E. eauto.
Qed.

Lemma store_path_spec md5 ppl b p :
  md5_ok md5 -> store_path ppl (md5 b) = Some p ->
  exists parts, p = parts ++ [to_hex (md5 b)] /\
    Forall2 (fun k c => length c = k /\ forallb is_hex_lower c = true) ppl parts /\
    length (to_hex (md5 b)) = 32%nat /\ forallb is_hex_lower (to_hex (md5 b)) = true /\
    exists rest, to_hex (md5 b) = [] ++ concat parts ++ rest.
Proof.
  intros Hm E. destruct (Hm b) as [L O]. unfold store_path in E.
  destruct (path_parts ppl (to_hex (md5 b))) as [parts|] eqn:P; [|discriminate].
  injection E as <-. pose proof (to_hex_hex _ O) as H.
  destruct (path_parts_spec _ _ _ P H) as [F R].
  exists parts. split; [reflexivity|]. split; [exact F|].
  split; [rewrite to_hex_length, L; reflexivity|]. split; [exact H|exact R].
Qed.

(** ** Directories along the store path *)

Lemma create_dir_all_id n q cs : get n q = Some (Dir cs) -> create_dir_all n q = Some n.
Proof.
  revert n; induction q as [|c q IH]; intros n G; simpl in *.
  - injection G as ->. reflexivity.
  - destruct n as [|cs0]; [discriminate|].
    destruct (lookup_child c cs0) as [n'|] eqn:L; [|discriminate].
    rewrite (IH _ G). now rewrite (set_child_lookup _ _ _ L).
Qed.

Lemma create_dir_all_absent n q c n1 :
  create_dir_all n q = Some n1 -> get n (q ++ [c]) = None -> get n1 (q ++ [c]) = None.
Proof.
  revert n n1; induction q as [|c0 q IH]; intros n n1 E G; simpl in *.
  - destruct n; [discriminate|]. injection E as <-. exact G.
  - destruct n as [|cs]; [discriminate|].
    destruct (lookup_child c0 cs) as [n'|] eqn:L.
    + destruct (create_dir_all n' q) as [n''|] eqn:E'; [|discriminate]. injection E as <-.
      simpl. rewrite lookup_child_set by congruence. exact (IH _ _ E' G).
    + destruct (create_dir_all (Dir []) q) as [n''|] eqn:E'; [|discriminate]. injection E as <-.
      simpl. rewrite lookup_child_app_new by exact L. apply (IH _ _ E').
      destruct q; reflexivity.
Qed.

Lemma get_parent_dir n q c m : get n (q ++ [c]) = Some m -> exists cs, get n q = Some (Dir cs).
Proof.
  rewrite get_app. destruct (get n q) as [[b|cs]|]; simpl; try discriminate. eauto.
Qed.

Lemma parent_snoc parts name : parent (parts ++ [name]) = parts.
Proof. unfold parent. apply removelast_last. Qed.

(** ** [save] *)

Section SaveFacts.
Variable md5 : bytes -> bytes.
Variable imghdr_from_bytes : bytes -> option Index.Type_.
Hypothesis md5_16 : md5_ok md5.

Lemma save_found ppl fs b p m :
  store_path ppl (md5 b) = Some p -> get fs p = Some m ->
  save md5 imghdr_from_bytes ppl fs b = Some (Ok (Found {| path := p; digest := md5 b |}), fs).
Proof.
  intros SP G. destruct (store_path_spec _ _ _ _ md5_16 SP) as (parts & -> & _).
  unfold save. rewrite SP, parent_snoc.
  destruct (get_parent_dir _ _ _ _ G) as [cs Gp].
  rewrite (create_dir_all_id _ _ _ Gp). unfold exists_. rewrite G. reflexivity.
Qed.

Lemma save_new ppl fs b p :
  shape ppl [] fs -> full ppl fs -> store_path ppl (md5 b) = Some p -> get fs p = None ->
  exists it fs2,
    save md5 imghdr_from_bytes ppl fs b = Some (Ok (Added {| path := p; digest := md5 b |} it), fs2) /\
    shape ppl [] fs2 /\ full ppl fs2 /\ get fs2 p = Some (File b).
Proof.
  intros Sh Fu SP G.
  destruct (store_path_spec _ _ _ _ md5_16 SP) as (parts & -> & F & L & H & R).
  destruct (write_new_shape _ _ _ _ _ b Sh Fu F L H R G) as (n2 & W & Sh2 & Fu2 & G2).
  unfold write_new in W. destruct (create_dir_all fs parts) as [fs1|] eqn:C; [|discriminate].
  pose proof (create_dir_all_absent _ _ _ _ C G) as G1.
  eexists. exists n2. split; [|auto].
  unfold save. rewrite SP, parent_snoc, C. unfold exists_. rewrite G1, W. reflexivity.
Qed.

Lemma save_preserves ppl fs b r fs' :
  shape ppl [] fs -> full ppl fs -> save md5 imghdr_from_bytes ppl fs b = Some (r, fs') ->
  shape ppl [] fs' /\ full ppl fs'.
Proof.
  intros Sh Fu E. destruct (store_path ppl (md5 b)) as [p|] eqn:SP.
  - destruct (get fs p) as [m|] eqn:G.
    + rewrite (save_found _ _ _ _ _ SP G) in E. injection E as _ <-. auto.
    + destruct (save_new _ _ _ _ Sh Fu SP G) as (it & fs2 & E2 & Sh2 & Fu2 & _).
      rewrite E2 in E. injection E as _ <-. auto.
  - unfold save in E. rewrite SP in E. discriminate.
Qed.

Lemma built_shape ppl fs :
  built_store md5 imghdr_from_bytes ppl fs -> shape ppl [] fs /\ full ppl fs.
Proof.
  induction 1 as [|fs b r fs' _ [Sh Fu] E].
  - split; [apply shape_empty|apply full_empty].
  - exact (save_preserves _ _ _ _ _ Sh Fu E).
Qed.

End SaveFacts.

(** ** [infer_prefix_part_lengths] *)

Lemma infer_rec_full ns : forall pre c n cs acc,
  shape ns pre (Dir ((c, n) :: cs)) -> full ns (Dir ((c, n) :: cs)) ->
  infer_prefix_part_lengths_rec n c acc = (false, acc ++ ns).
Proof.
  induction ns as [|k ns IH]; intros pre c n cs acc [_ H] Fu;
    destruct (H c n (or_introl eq_refl)) as (_ & Hc).
  - destruct Hc as (_ & _ & b & ->). simpl. now rewrite app_nil_r.
  - destruct Hc as (Lc & Shc). simpl in Fu. destruct (Fu c n (or_introl eq_refl)) as
      ((c0 & n0 & cs0 & ->) & Fuc).
    simpl. rewrite (IH _ _ _ _ _ Shc Fuc), Lc, <- app_assoc. reflexivity.
Qed.

Lemma infer_rec_no_file : forall n name acc,
  (forall p, is_file n p = false) -> fst (infer_prefix_part_lengths_rec n name acc) = true.
Proof.
  fix IH 1. intros [b|[|[c' n'] cs]] name acc H.
  - specialize (H []). discriminate.
  - reflexivity.
  - simpl. apply IH. intros p. specialize (H (c' :: p)). unfold is_file in *. simpl in H.
    rewrite (proj2 (bytes_eqb_spec c' c') eq_refl) in H. exact H.
Qed.

Lemma is_file_root_nonempty cs p : is_file (Dir cs) p = true -> cs <> [].
Proof. destruct p; unfold is_file; simpl; [discriminate|]. destruct cs; [discriminate|congruence]. Qed.

(** ** [shapeb] *)

Lemma nodupb_spec l : nodupb l = true -> NoDup l.
Proof.
  induction l as [|x l IH]; simpl; intros H; [constructor|].
  apply andb_true_iff in H as [N H]. constructor; [|auto].
  intros Hin. apply negb_true_iff in N. rewrite <- not_true_iff_false, existsb_exists in N.
  apply N. exists x. split; [exact Hin|]. apply bytes_eqb_spec. reflexivity.
Qed.

Lemma prefixb_spec pre c : prefixb pre c = true -> exists rest, c = pre ++ rest.
Proof.
  unfold prefixb. intros H. apply bytes_eqb_spec in H.
  exists (skipn (length pre) c). rewrite <- H at 1. symmetry. apply firstn_skipn.
Qed.

Lemma shapeb_spec ns : forall pre n, shapeb ns pre n = true -> shape ns pre n.
Proof.
  induction ns as [|k ns IH]; intros pre [b|cs]; simpl; try discriminate;
    intros H; apply andb_true_iff in H as [N H]; rewrite forallb_forall in H;
    (split; [exact (nodupb_spec _ N)|]); intros c n Hin; specialize (H _ Hin); simpl in H;
    apply andb_true_iff in H as [Hh H]; split; try exact Hh.
  - apply andb_true_iff in H as [H F]. apply andb_true_iff in H as [L P].
    apply Nat.eqb_eq in L. split; [exact L|]. split; [exact (prefixb_spec _ _ P)|].
    destruct n; [eauto|discriminate].
  - apply andb_true_iff in H as [L S]. apply Nat.eqb_eq in L. split; [exact L|]. auto.
Qed.

End StoreFacts.

Module IndexClaims.
Import Index IndexFacts.

(** C2 (as amended).  For every url [u] of an index built by [add] and
    [add_failed]: [lookup] succeeds, its rows are sorted strictly descending
    by timestamp, and each of them comes from a key whose url component is
    exactly [u], so rows of a longer url are never returned.  When no stored
    url contains a NUL byte, the rows are exactly all rows of [u]. *)
Theorem lookup_spec db u :
  built db ->
  (exists rows, lookup db u = Ok rows /\
    StronglySorted (fun r1 r2 => (row_timestamp r2 < row_timestamp r1)%Z) rows /\
    forall r, In r rows -> exists k v key, In (k, v) db /\ key_from_bytes k = Ok key /\
      url key = u /\ decode_row (timestamp key) v = Ok r) /\
  (urls_nul_free db -> lookup db u = Ok (rev (rows_for u db))).
Proof.
  intros Hb. split; [exact (lookup_descending db u Hb)|].
  intros NF. exact (lookup_nul_free db u Hb NF).
Qed.

Lemma lookup_spec_witness :
  built (add_failed (add_failed [] [97%N] 1%Z) [97%N; 98%N] 0%Z) /\
  ((exists rows, lookup (add_failed (add_failed [] [97%N] 1%Z) [97%N; 98%N] 0%Z) [97%N] = Ok rows /\
    StronglySorted (fun r1 r2 => (row_timestamp r2 < row_timestamp r1)%Z) rows /\
    forall r, In r rows -> exists k v key,
      In (k, v) (add_failed (add_failed [] [97%N] 1%Z) [97%N; 98%N] 0%Z) /\
      key_from_bytes k = Ok key /\ url key = [97%N] /\ decode_row (timestamp key) v = Ok r) /\
   (urls_nul_free (add_failed (add_failed [] [97%N] 1%Z) [97%N; 98%N] 0%Z) ->
    lookup (add_failed (add_failed [] [97%N] 1%Z) [97%N; 98%N] 0%Z) [97%N] =
      Ok (rev (rows_for [97%N] (add_failed (add_failed [] [97%N] 1%Z) [97%N; 98%N] 0%Z))))).
Proof.
  assert (Hb : built (add_failed (add_failed [] [97%N] 1%Z) [97%N; 98%N] 0%Z))
    by (repeat (apply built_add_failed; [|reflexivity]); apply built_empty).
  split; [exact Hb|]. apply lookup_spec. exact Hb.
Defined.

(** C2 counterexample: the url ["a"] has rows at times 0 and 1, and the url
    ["a\x00"] a row at time 0.  The key of the latter, [a 00 00 00 00 00 00],
    sorts between the two keys of ["a"], so [lookup "a"] stops there and
    returns only the row at time 0. *)
Lemma lookup_nul_interleave :
  built (add_failed (add_failed (add_failed [] [97%N] 0%Z) [97%N] 1%Z) [97%N; 0%N] 0%Z) /\
  rows_for [97%N] (add_failed (add_failed (add_failed [] [97%N] 0%Z) [97%N] 1%Z) [97%N; 0%N] 0%Z)
    = [RowErr 0%Z; RowErr 1%Z] /\
  lookup (add_failed (add_failed (add_failed [] [97%N] 0%Z) [97%N] 1%Z) [97%N; 0%N] 0%Z) [97%N]
    = Ok [RowErr 0%Z].
Proof.
  split; [repeat (apply built_add_failed; [|reflexivity]); apply built_empty|].
  split; vm_compute; reflexivity.
Qed.

(** C4.  Every value of an index built by [add] and [add_failed] is 17
    bytes: a 16-byte digest [d] then a one-byte code [c].  It decodes as a
    failure exactly when [d] is sixteen zero bytes and [c] is 0, a code 0
    only occurs with that digest, and a value whose digest or code is
    nonzero decodes as a success carrying that digest. *)
Theorem persisted_value_layout db k v :
  built db -> In (k, v) db ->
  exists d c, v = d ++ [c] /\ length d = 16%nat /\ length v = 17%nat /\
    (c = 0%N -> d = ERROR_DIGEST) /\
    (forall ts, decode_row ts v = Ok (RowErr ts) <-> (d = ERROR_DIGEST /\ c = 0%N)) /\
    ((d <> ERROR_DIGEST \/ c <> 0%N) -> forall ts,
       exists e, decode_row ts v = Ok (RowOk e) /\ e_digest e = d /\ e_timestamp e = ts).
Proof.
  intros Hb Hin.
  destruct (built_rows _ Hb _ Hin) as [(u & e & Hu & L & _ & E)|(u & t & Hu & E)];
    inversion E; subst k v.
  - exists (e_digest e), (code (Some (e_image_type e))).
    pose proof (code_range (e_image_type e)) as Rc.
    assert (D : forall ts, decode_row ts (snd (add_kv u e)) =
      Ok (RowOk {| e_timestamp := ts; e_digest := e_digest e; e_image_type := e_image_type e |}))
      by (intros ts; rewrite add_kv_value; apply decode_row_add; exact L).
    split; [reflexivity|]. split; [exact L|]. split.
    { change (length (e_digest e ++ [code (Some (e_image_type e))]) = 17%nat).
      rewrite length_app, L. reflexivity. }
    split; [intros C; lia|]. split.
    + intros ts. rewrite D. split; [discriminate|]. intros [_ C]. lia.
    + intros _ ts. eexists. split; [apply D|]. split; reflexivity.
  - exists ERROR_DIGEST, 0%N. split; [reflexivity|]. split; [reflexivity|].
    split; [reflexivity|]. split; [reflexivity|]. split.
    + intros ts. split; [split; reflexivity|]. intros _. reflexivity.
    + intros [H|H]; exfalso; apply H; reflexivity.
Qed.

Lemma persisted_value_layout_witness :
  built (add_failed [] [97%N] 0%Z) /\
  In ([97%N; 0%N; 0%N; 0%N; 0%N; 0%N], repeat 0%N 17) (add_failed [] [97%N] 0%Z) /\
  exists d c, repeat 0%N 17 = d ++ [c] /\ length d = 16%nat /\ length (repeat 0%N 17) = 17%nat /\
    (c = 0%N -> d = ERROR_DIGEST) /\
    (forall ts, decode_row ts (repeat 0%N 17) = Ok (RowErr ts) <-> (d = ERROR_DIGEST /\ c = 0%N)) /\
    ((d <> ERROR_DIGEST \/ c <> 0%N) -> forall ts,
       exists e, decode_row ts (repeat 0%N 17) = Ok (RowOk e) /\ e_digest e = d /\ e_timestamp e = ts).
Proof.
  assert (Hb : built (add_failed [] [97%N] 0%Z))
    by (apply built_add_failed; [apply built_empty|reflexivity]).
  assert (Hin : In ([97%N; 0%N; 0%N; 0%N; 0%N; 0%N], repeat 0%N 17) (add_failed [] [97%N] 0%Z))
    by (vm_compute; left; reflexivity).
  split; [exact Hb|]. split; [exact Hin|].
  exact (persisted_value_layout _ _ _ Hb Hin).
Defined.

(** C5 (as amended).  The four bytes after the NUL of an encoded key are
    big-endian seconds: the timestamp itself when it lies in
    [0, 2^32 - 1], and [2^32 - 1] when it is above that range or
    negative. *)
Theorem key_to_bytes_seconds u t :
  exists b0 b1 b2 b3,
    key_to_bytes {| url := u; timestamp := t |} = u ++ [0%N; b0; b1; b2; b3] /\
    Forall byte_ok [b0; b1; b2; b3] /\
    Z.of_N (u32_from_be_bytes b0 b1 b2 b3) =
      (if (0 <=? t)%Z then Z.min t 4294967295 else 4294967295)%Z.
Proof.
  destruct (u32_be_roundtrip _ (u32_try_from_unwrap_or_max_le t)) as (b0 & b1 & b2 & b3 & Hbe & Hrt).
  pose proof (u32_to_be_bytes_ok (u32_try_from_unwrap_or_max t)) as Hok. rewrite Hbe in Hok.
  exists b0, b1, b2, b3. split; [unfold key_to_bytes; simpl; rewrite Hbe; reflexivity|].
  split; [exact Hok|]. rewrite Hrt. unfold u32_try_from_unwrap_or_max, u32_max.
  destruct (Z.leb_spec 0 t); simpl.
  - destruct (Z.leb_spec t 4294967295); simpl.
    + rewrite Z2N.id by assumption. lia.
    + lia.
  - lia.
Qed.

(** C5 counterexample: the timestamp -1 (one second before the epoch) is
    written as [ff ff ff ff], the largest value, not clamped to 0. *)
Lemma key_to_bytes_negative :
  key_to_bytes {| url := [97%N]; timestamp := (-1)%Z |} = [97%N; 0%N; 255%N; 255%N; 255%N; 255%N].
Proof. vm_compute. reflexivity. Qed.

(** C7 (as amended).  In an index built by [add] and [add_failed] whose
    urls contain no NUL byte, if [u] has a success row [e1] then
    [lookup_status] is [Downloaded e] for a success row [e] of [u] that is
    the most recent success row, so at least as recent as [e1], whatever
    failure rows (earlier or later) [u] has. *)
Theorem lookup_status_latest_success db u e1 :
  built db -> urls_nul_free db -> In (RowOk e1) (rows_for u db) ->
  exists e, lookup_status db u = Ok (Downloaded e) /\ In (RowOk e) (rows_for u db) /\
    (e_timestamp e1 <= e_timestamp e)%Z /\
    forall e', In (RowOk e') (rows_for u db) -> (e_timestamp e' <= e_timestamp e)%Z.
Proof.
  intros Hb NF Hin.
  pose proof (lookup_nul_free db u Hb NF) as L.
  assert (Hin' : In (RowOk e1) (rev (rows_for u db))) by (apply -> in_rev; exact Hin).
  assert (S : StronglySorted (fun r1 r2 => (row_timestamp r2 < row_timestamp r1)%Z)
                (rev (rows_for u db))).
  { apply StronglySorted_rev. apply rows_for_ascending.
    - exact (built_sorted _ Hb).
    - exact (built_rows _ Hb). }
  destruct (find_ok_exists _ _ Hin') as (e & He).
  assert (Late : forall e', In (RowOk e') (rows_for u db) -> (e_timestamp e' <= e_timestamp e)%Z).
  { intros e' H'. apply (find_ok_latest _ _ _ S He). apply -> in_rev. exact H'. }
  exists e. split; [exact (lookup_status_downloaded _ _ _ _ L He)|].
  split; [apply in_rev; exact (find_ok_In _ _ He)|].
  split; [exact (Late e1 Hin)|exact Late].
Qed.

Lemma lookup_status_latest_success_witness :
  built (add_failed (add (add_failed [] [97%N] 0%Z) [97%N]
          {| e_timestamp := 2%Z; e_digest := repeat 1%N 16; e_image_type := Png |}) [97%N] 3%Z) /\
  urls_nul_free (add_failed (add (add_failed [] [97%N] 0%Z) [97%N]
          {| e_timestamp := 2%Z; e_digest := repeat 1%N 16; e_image_type := Png |}) [97%N] 3%Z) /\
  In (RowOk {| e_timestamp := 2%Z; e_digest := repeat 1%N 16; e_image_type := Png |})
    (rows_for [97%N] (add_failed (add (add_failed [] [97%N] 0%Z) [97%N]
          {| e_timestamp := 2%Z; e_digest := repeat 1%N 16; e_image_type := Png |}) [97%N] 3%Z)) /\
  exists e, lookup_status (add_failed (add (add_failed [] [97%N] 0%Z) [97%N]
          {| e_timestamp := 2%Z; e_digest := repeat 1%N 16; e_image_type := Png |}) [97%N] 3%Z)
      [97%N] = Ok (Downloaded e) /\
    In (RowOk e) (rows_for [97%N] (add_failed (add (add_failed [] [97%N] 0%Z) [97%N]
          {| e_timestamp := 2%Z; e_digest := repeat 1%N 16; e_image_type := Png |}) [97%N] 3%Z)) /\
    (2 <= e_timestamp e)%Z /\
    forall e', In (RowOk e') (rows_for [97%N] (add_failed (add (add_failed [] [97%N] 0%Z) [97%N]
          {| e_timestamp := 2%Z; e_digest := repeat 1%N 16; e_image_type := Png |}) [97%N] 3%Z)) ->
      (e_timestamp e' <= e_timestamp e)%Z.
Proof.
  assert (Hb : built (add_failed (add (add_failed [] [97%N] 0%Z) [97%N]
          {| e_timestamp := 2%Z; e_digest := repeat 1%N 16; e_image_type := Png |}) [97%N] 3%Z)).
  { apply built_add_failed; [|reflexivity].
    apply built_add; [apply built_add_failed; [apply built_empty|reflexivity]|reflexivity|reflexivity|].
    simpl. unfold byte_ok. repeat constructor. }
  assert (NF : urls_nul_free (add_failed (add (add_failed [] [97%N] 0%Z) [97%N]
          {| e_timestamp := 2%Z; e_digest := repeat 1%N 16; e_image_type := Png |}) [97%N] 3%Z))
    by (apply urls_nul_freeb_spec; vm_compute; reflexivity).
  assert (Hin : In (RowOk {| e_timestamp := 2%Z; e_digest := repeat 1%N 16; e_image_type := Png |})
    (rows_for [97%N] (add_failed (add (add_failed [] [97%N] 0%Z) [97%N]
          {| e_timestamp := 2%Z; e_digest := repeat 1%N 16; e_image_type := Png |}) [97%N] 3%Z)))
    by (vm_compute; right; left; reflexivity).
  split; [exact Hb|]. split; [exact NF|]. split; [exact Hin|].
  exact (lookup_status_latest_success _ _ _ Hb NF Hin).
Defined.

(** C7 counterexample: ["a"] has a failure at time 0, a success at time 2
    and a failure at time 3, and the url ["a\x00"] a failure at time 0.
    The key of the latter sorts between the rows of ["a"] at times 0 and
    2, so [lookup "a"] only sees the failure at time 0 and the status is
    [Failed]. *)
Lemma lookup_status_nul_interleave :
  In (RowOk {| e_timestamp := 2%Z; e_digest := repeat 1%N 16; e_image_type := Png |})
    (rows_for [97%N] (add_failed (add_failed (add (add_failed [] [97%N] 0%Z) [97%N]
        {| e_timestamp := 2%Z; e_digest := repeat 1%N 16; e_image_type := Png |}) [97%N] 3%Z)
        [97%N; 0%N] 0%Z)) /\
  In (RowErr 3%Z)
    (rows_for [97%N] (add_failed (add_failed (add (add_failed [] [97%N] 0%Z) [97%N]
        {| e_timestamp := 2%Z; e_digest := repeat 1%N 16; e_image_type := Png |}) [97%N] 3%Z)
        [97%N; 0%N] 0%Z)) /\
  lookup_status (add_failed (add_failed (add (add_failed [] [97%N] 0%Z) [97%N]
      {| e_timestamp := 2%Z; e_digest := repeat 1%N 16; e_image_type := Png |}) [97%N] 3%Z)
      [97%N; 0%N] 0%Z) [97%N] = Ok (Failed 0%Z).
Proof.
  split; [vm_compute; right; left; reflexivity|].
  split; [vm_compute; right; right; left; reflexivity|].
  vm_compute. reflexivity.
Qed.

(** C10.  [Key::from_bytes] never looks at the separator byte: for every
    valid UTF-8 [u], any byte [x] and any four bytes, decoding
    [u ++ x :: b0 b1 b2 b3] gives the url [u] and the big-endian timestamp
    of the last four bytes, whether or not [x] is 0. *)
Theorem key_from_bytes_any_separator u x b0 b1 b2 b3 :
  utf8_valid u = true -> Forall byte_ok [b0; b1; b2; b3] ->
  key_from_bytes (u ++ x :: [b0; b1; b2; b3]) =
    Ok {| url := u; timestamp := Z.of_N (u32_from_be_bytes b0 b1 b2 b3) |}.
Proof. apply key_from_bytes_split. Qed.

Lemma key_from_bytes_any_separator_witness :
  utf8_valid [104%N] = true /\ Forall byte_ok [0%N; 0%N; 1%N; 0%N] /\
  key_from_bytes ([104%N] ++ 65%N :: [0%N; 0%N; 1%N; 0%N]) =
    Ok {| url := [104%N]; timestamp := Z.of_N (u32_from_be_bytes 0 0 1 0) |}.
Proof.
  assert (H1 : utf8_valid [104%N] = true) by reflexivity.
  assert (H2 : Forall byte_ok [0%N; 0%N; 1%N; 0%N]) by (unfold byte_ok; repeat constructor).
  split; [exact H1|]. split; [exact H2|].
  exact (key_from_bytes_any_separator _ _ _ _ _ _ H1 H2).
Defined.

End IndexClaims.

Module ManagerClaims.
Import Manager.

(** C6 (as amended).  Once a [close] has taken the join handle and
    returned [Ok], the request task has closed its receiver: a second
    [close] fails with [ShutdownError::Send] at its [send], leaves the state
    unchanged and awaits nothing; the handle has been awaited exactly once. *)
Theorem close_twice m m1 h :
  request_receiver_handle m = Some h -> close m = Some (Ok tt, m1) ->
  joins m1 = S (joins m) /\ request_receiver_handle m1 = None /\
  close m1 = Some (Err Send, m1).
Proof.
  intros Hh Hc. unfold close, send in Hc.
  destruct (rx_open m); [|discriminate]. simpl in Hc. rewrite Hh in Hc.
  unfold await_task in Hc. simpl in Hc.
  match type of Hc with
  | context [handle_requests ?q ?d] => destruct (handle_requests q d) as [s|]; [|discriminate]
  end.
  inversion Hc; subst m1. simpl. split; [reflexivity|]. split; reflexivity.
Qed.

Lemma close_twice_witness :
  request_receiver_handle new = Some RequestTask /\
  close new = Some (Ok tt, {| rx_open := false; queue := []; request_receiver_handle := None;
                              served := []; joins := 1 |}) /\
  joins {| rx_open := false; queue := []; request_receiver_handle := None;
           served := []; joins := 1 |} = S (joins new) /\
  request_receiver_handle {| rx_open := false; queue := []; request_receiver_handle := None;
                             served := []; joins := 1 |} = None /\
  close {| rx_open := false; queue := []; request_receiver_handle := None;
           served := []; joins := 1 |} =
    Some (Err Send, {| rx_open := false; queue := []; request_receiver_handle := None;
                       served := []; joins := 1 |}).
Proof.
  assert (H1 : request_receiver_handle new = Some RequestTask) by reflexivity.
  assert (H2 : close new = Some (Ok tt, {| rx_open := false; queue := [];
    request_receiver_handle := None; served := []; joins := 1 |})) by reflexivity.
  split; [exact H1|]. split; [exact H2|]. exact (close_twice _ _ _ H1 H2).
Defined.

(** C6 counterexample: on a fresh manager, [close] succeeds and a second
    [close] returns [Err ShutdownError::Send]. *)
Lemma close_new_twice :
  match close new with
  | Some (Ok tt, m1) => close m1 = Some (Err Send, m1)
  | _ => False
  end.
Proof. reflexivity. Qed.

End ManagerClaims.

Module StoreClaims.
Import Store StoreFacts.
Local Open Scope N_scope.

(** C1 (failing input).  With shard lengths [2; 2], a store whose first
    level holds the directory ["79"] and, below it, a directory ["abc"]
    (three characters where the shard length is two) holding a file with a
    valid 32-digit name is enumerated without any [InvalidFileName] error:
    the only item is the entry of that file. *)
Theorem entries_accept_wrong_length_shard :
  exists e,
    collect [2; 2]%nat
      (Dir [([55; 57], Dir [([97; 98; 99], Dir [([55; 57; 97; 98; 99] ++ repeat 48 27, File [])])])])
      100 entries = Some [Ok e] /\
    path e = [[55; 57]; [97; 98; 99]; [55; 57; 97; 98; 99] ++ repeat 48 27].
Proof. eexists. split; [vm_compute; reflexivity|reflexivity]. Qed.

(** C3.  Let [md5] return sixteen bytes and the shard lengths be valid.
    On a store built by [save]s, for a byte string [b] whose derived path
    does not exist yet, [save b] returns [Added e] and a second [save b]
    returns [Found e] with the same entry [e] (the digest [md5 b] and the
    derived path), and leaves the store unchanged: it writes nothing. *)
Theorem save_added_then_found md5 imghdr_from_bytes ppl fs b :
  md5_ok md5 -> valid_prefix_part_lengths ppl = true ->
  built_store md5 imghdr_from_bytes ppl fs ->
  (forall p, store_path ppl (md5 b) = Some p -> exists_ fs p = false) ->
  exists e it fs1,
    digest e = md5 b /\ store_path ppl (md5 b) = Some (path e) /\
    save md5 imghdr_from_bytes ppl fs b = Some (Ok (Added e it), fs1) /\
    save md5 imghdr_from_bytes ppl fs1 b = Some (Ok (Found e), fs1).
Proof.
  intros Hm Hv Hb Hn.
  destruct (built_shape _ _ Hm _ _ Hb) as [Sh Fu].
  unfold valid_prefix_part_lengths in Hv. apply andb_true_iff in Hv as [Hs _].
  apply Nat.leb_le in Hs.
  destruct (path_parts_some ppl (to_hex (md5 b))) as [parts P].
  { rewrite to_hex_length, (proj1 (Hm b)). lia. }
  assert (SP : store_path ppl (md5 b) = Some (parts ++ [to_hex (md5 b)]))
    by (unfold store_path; rewrite P; reflexivity).
  assert (G : get fs (parts ++ [to_hex (md5 b)]) = None).
  { specialize (Hn _ SP). unfold exists_ in Hn. destruct (get fs _); [discriminate|reflexivity]. }
  destruct (save_new _ imghdr_from_bytes Hm _ _ _ _ Sh Fu SP G) as (it & fs2 & E1 & _ & _ & G2).
  exists {| path := parts ++ [to_hex (md5 b)]; digest := md5 b |}, it, fs2.
  split; [reflexivity|]. split; [exact SP|]. split; [exact E1|].
  exact (save_found _ imghdr_from_bytes Hm _ _ _ _ _ SP G2).
Qed.

Lemma save_added_then_found_witness :
  md5_ok (fun _ => repeat 7 16) /\ valid_prefix_part_lengths [1]%nat = true /\
  built_store (fun _ => repeat 7 16) (fun _ => None) [1]%nat (Dir []) /\
  (forall p, store_path [1]%nat (repeat 7 16) = Some p -> exists_ (Dir []) p = false) /\
  exists e it fs1,
    digest e = repeat 7 16 /\ store_path [1]%nat (repeat 7 16) = Some (path e) /\
    save (fun _ => repeat 7 16) (fun _ => None) [1]%nat (Dir []) [] = Some (Ok (Added e it), fs1) /\
    save (fun _ => repeat 7 16) (fun _ => None) [1]%nat fs1 [] = Some (Ok (Found e), fs1).
Proof.
  assert (H1 : md5_ok (fun _ => repeat 7 16)).
  { intros x. split; [reflexivity|]. apply Forall_forall. intros y Hy.
    apply repeat_spec in Hy. subst. reflexivity. }
  assert (H2 : valid_prefix_part_lengths [1]%nat = true) by reflexivity.
  assert (H3 : built_store (fun _ => repeat 7 16) (fun _ => None) [1]%nat (Dir []))
    by apply built_store_empty.
  assert (H4 : forall p, store_path [1]%nat (repeat 7 16) = Some p -> exists_ (Dir []) p = false).
  { intros p E. vm_compute in E. injection E as <-. reflexivity. }
  split; [exact H1|]. split; [exact H2|]. split; [exact H3|]. split; [exact H4|].
  exact (save_added_then_found (fun _ => repeat 7 16) (fun _ => None) [1]%nat (Dir []) [] H1 H2 H3 H4).
Defined.

(** C8.  On a store built by [save]s with shard lengths [ppl] (and [md5]
    returning sixteen bytes) that holds a file, the inferred prefix part
    lengths are [Some ppl]; on any base directory with no file below it,
    whatever its directories, they are [None]. *)
Theorem infer_prefix_part_lengths_spec :
  (forall md5 imghdr_from_bytes ppl fs,
     md5_ok md5 -> built_store md5 imghdr_from_bytes ppl fs ->
     (exists p, is_file fs p = true) ->
     infer_prefix_part_lengths fs = Ok (Some ppl)) /\
  (forall cs, (forall p, is_file (Dir cs) p = false) ->
     infer_prefix_part_lengths (Dir cs) = Ok None).
Proof.
  split.
  - intros md5 imghdr_from_bytes ppl fs Hm Hb [p Hp].
    destruct (built_shape _ _ Hm _ _ Hb) as [Sh Fu].
    destruct (shape_dir _ _ _ Sh) as [cs ->].
    destruct cs as [|[c n] cs]; [apply is_file_root_nonempty in Hp; congruence|].
    simpl. rewrite (infer_rec_full _ _ _ _ _ [] Sh Fu). reflexivity.
  - intros [|[c n] cs] H; [reflexivity|]. simpl.
    assert (Hn : forall p, is_file n p = false).
    { intros p. specialize (H (c :: p)). unfold is_file in *. simpl in H.
      rewrite (proj2 (IndexFacts.bytes_eqb_spec c c) eq_refl) in H. exact H. }
    pose proof (infer_rec_no_file n c [] Hn) as E.
    destruct (infer_prefix_part_lengths_rec n c []) as [[|] acc]; [reflexivity|discriminate].
Qed.

Lemma infer_prefix_part_lengths_spec_witness :
  infer_prefix_part_lengths (Dir [([48], Dir [(to_hex (repeat 7 16), File [])])]) = Ok (Some [1%nat]) /\
  infer_prefix_part_lengths (Dir [([48], Dir [([49], Dir [])])]) = Ok None.
Proof.
  split.
  - apply (proj1 infer_prefix_part_lengths_spec (fun _ => repeat 7 16) (fun _ => None)).
    + intros x. split; [reflexivity|]. apply Forall_forall. intros y Hy.
      apply repeat_spec in Hy. subst. reflexivity.
    + eapply built_store_save with (b := []); [apply built_store_empty|vm_compute; reflexivity].
    + exists [[48]; to_hex (repeat 7 16)]. vm_compute. reflexivity.
  - apply (proj2 infer_prefix_part_lengths_spec).
    intros [|c [|c' [|c'' p]]]; unfold is_file; simpl; [reflexivity| | |];
      destruct (bytes_eqb [48] c); simpl; try reflexivity;
      destruct (bytes_eqb [49] c'); reflexivity.
Defined.

(** C9.  On a well-formed store (the layout [save] produces for the shard
    lengths [ppl]), the enumeration terminates with the entries [es] and no
    error, in strictly ascending order of their digests' hex strings; any
    run of it yields exactly these items; they are the entries of files of
    the store, and every file of the store is among them. *)
Theorem entries_sorted_and_stable ppl fs :
  shape ppl [] fs ->
  exists es,
    (exists fuel, collect ppl fs fuel entries = Some (map Ok es)) /\
    (forall fuel items, collect ppl fs fuel entries = Some items -> items = map Ok es) /\
    StronglySorted digest_lt es /\
    (forall e, In e es -> path_to_entry fs (path e) = Ok e) /\
    (forall q, is_file fs q = true -> exists e, In e es /\ path e = q).
Proof.
  intros Sh. destruct (shape_dir _ _ _ Sh) as [cs ->].
  pose proof (entries_run ppl cs Sh) as Run.
  assert (Fin : step ppl (Dir cs) {| stack := []; level := None |} = Finished) by reflexivity.
  destruct (dir_output (Dir cs) ppl [] [] cs eq_refl Sh) as (es & E & S & B).
  rewrite E in Run. exists es. split; [|split; [|split; [exact S|split]]].
  - exact (collect_complete _ _ _ _ _ Run Fin).
  - intros fuel items C. destruct (collect_sound _ _ _ _ _ C) as (sf & Hs & Hf).
    symmetry. exact (steps_det _ _ _ _ _ _ _ Run Fin Hs Hf).
  - intros e He. exact (proj2 (B e He)).
  - intros q Hq. unfold is_file in Hq. destruct (get (Dir cs) q) as [[b|]|] eqn:G; try discriminate.
    pose proof (dir_output_complete (Dir cs) ppl [] [] cs q b eq_refl Sh G) as Hin.
    rewrite E in Hin. simpl app in Hin. apply in_map_iff in Hin as (e & Pe & He).
    exists e. split; [exact He|]. apply (path_to_entry_path (Dir cs)). symmetry. exact Pe.
Qed.

Lemma entries_sorted_and_stable_witness :
  shape [1]%nat [] (Dir [([97], Dir [([97] ++ repeat 48 31, File [])]);
                       ([48], Dir [([48] ++ repeat 49 31, File [1]); ([48] ++ repeat 48 31, File [2])])]) /\
  exists es,
    (exists fuel, collect [1]%nat (Dir [([97], Dir [([97] ++ repeat 48 31, File [])]);
                       ([48], Dir [([48] ++ repeat 49 31, File [1]); ([48] ++ repeat 48 31, File [2])])])
                   fuel entries = Some (map Ok es)) /\
    StronglySorted digest_lt es.
Proof.
  assert (Sh : shape [1]%nat [] (Dir [([97], Dir [([97] ++ repeat 48 31, File [])]);
                       ([48], Dir [([48] ++ repeat 49 31, File [1]); ([48] ++ repeat 48 31, File [2])])]))
    by (apply shapeb_spec; vm_compute; reflexivity).
  split; [exact Sh|].
  destruct (entries_sorted_and_stable _ _ Sh) as (es & C & _ & S & _).
  exists es. split; [exact C|exact S].
Defined.

End StoreClaims.

(** * Further properties of the index: image types, timestamps, keys, values *)

Module IndexExtras.
Import Index IndexFacts.

Ltac pos_cases p :=
  destruct p as [p|p|]; try destruct p as [p|p|]; try destruct p as [p|p|];
  try destruct p as [p|p|]; try destruct p as [p|p|].

Lemma from_code_large c : (18 <= c)%N -> from_code c = None.
Proof.
  intros H. destruct c as [|p]; [exfalso; apply H; reflexivity|].
  pos_cases p; try reflexivity; exfalso; apply H; reflexivity.
Qed.

Lemma from_code_some c t : from_code c = Some t -> code t = c.
Proof.
  destruct c as [|p]; [intros H; injection H as <-; reflexivity|].
  pos_cases p; cbn; intros H; try discriminate; injection H as <-; reflexivity.
Qed.

Lemma from_code_none c : from_code c = None <-> (17 < c)%N.
Proof.
  split.
  - intros H. destruct (N.lt_ge_cases 17 c) as [L|L]; [exact L|].
    exfalso. destruct c as [|p]; [discriminate|].
    pos_cases p; try discriminate; apply L; reflexivity.
  - intros H. apply from_code_large. lia.
Qed.

(** X1.  Parsing the name of an image type gives the type back, except for
    [Bgp]: its name ["bgp"] is not among the names [from_str] accepts. *)
Theorem from_str_as_str t :
  from_str (as_str t) = match t with Some Bgp => Err "bgp"%string | _ => Ok t end.
Proof. destruct t as [[]|]; reflexivity. Qed.

(** X2.  A string accepted by [from_str] is exactly the name [as_str] gives
    the type it parses to. *)
Theorem as_str_from_str s t : from_str s = Ok t -> as_str t = s.
Proof.
  unfold from_str.
  repeat match goal with
  | |- context [String.eqb s ?x] =>
      destruct (String.eqb_spec s x) as [->|_]; [intros H; injection H as <-; reflexivity|]
  end.
  discriminate.
Qed.

Lemma as_str_from_str_witness :
  from_str "png" = Ok (Some Png) /\ as_str (Some Png) = "png"%string.
Proof.
  assert (H : from_str "png" = Ok (Some Png)) by reflexivity.
  split; [exact H|]. exact (as_str_from_str _ _ H).
Defined.

(** X3.  The one-byte image type codes are a bijection between the codes
    [0..17] and the image types: [from_code c] is [Some t] exactly when
    [code t = c], and [None] exactly when [c > 17]. *)
Theorem from_code_code_iff c :
  (forall t, from_code c = Some t <-> code t = c) /\ (from_code c = None <-> (17 < c)%N).
Proof.
  split; [|apply from_code_none].
  intros t. split; [apply from_code_some|]. intros <-. destruct t as [[]|]; reflexivity.
Qed.

Lemma datetime_u32 n : (n <= u32_max)%N -> datetime_from_timestamp (Z.of_N n) = Some (Z.of_N n).
Proof.
  intros H. unfold datetime_from_timestamp, chrono_min_secs, chrono_max_secs. unfold u32_max in H.
  replace ((-8334632851200 <=? Z.of_N n)%Z && (Z.of_N n <=? 8210298412799)%Z)
    with true by (symmetry; apply andb_true_intro; split; apply Z.leb_le; lia).
  reflexivity.
Qed.

Lemma u32_from_be_bytes_le b0 b1 b2 b3 :
  Forall byte_ok [b0; b1; b2; b3] -> (u32_from_be_bytes b0 b1 b2 b3 <= u32_max)%N.
Proof.
  rewrite Forall_forall. intros F.
  assert (B0 : byte_ok b0) by (apply F; simpl; auto).
  assert (B1 : byte_ok b1) by (apply F; simpl; auto).
  assert (B2 : byte_ok b2) by (apply F; simpl; auto).
  assert (B3 : byte_ok b3) by (apply F; simpl; auto).
  rewrite u32_from_be_bytes_arith by assumption. unfold byte_ok, u32_max in *. lia.
Qed.


(** X5.  Decoding a [Timestamp] from bytes fails only when fewer than four
    bytes are left, with [UnexpectedEnd]; otherwise it reads the first four
    bytes as a big-endian epoch second in [0 .. 2^32 - 1]: its
    ["invalid epoch second"] error is never raised. *)
Theorem timestamp_decode_total b :
  Forall byte_ok b ->
  ((length b < 4)%nat -> timestamp_decode b = Err UnexpectedEnd) /\
  ((4 <= length b)%nat -> exists t, timestamp_decode b = Ok (t, skipn 4 b) /\
     (0 <= t <= Z.of_N u32_max)%Z).
Proof.
  intros F. split.
  - intros L. destruct b as [|x0 [|x1 [|x2 [|x3 b]]]]; simpl in L; try lia; reflexivity.
  - intros L. destruct b as [|b0 [|b1 [|b2 [|b3 rest]]]]; simpl in L; try lia.
    assert (F4 : Forall byte_ok [b0; b1; b2; b3]).
    { rewrite Forall_forall in F |- *. intros x Hx. apply F. simpl in Hx |- *. tauto. }
    pose proof (u32_from_be_bytes_le _ _ _ _ F4) as Le.
    exists (Z.of_N (u32_from_be_bytes b0 b1 b2 b3)). unfold timestamp_decode.
    rewrite datetime_u32 by exact Le. split; [reflexivity|]. lia.
Qed.

Lemma timestamp_decode_total_witness :
  Forall byte_ok [1; 2; 3; 4; 5]%N /\
  ((length [1; 2; 3; 4; 5]%N < 4)%nat -> timestamp_decode [1; 2; 3; 4; 5]%N = Err UnexpectedEnd) /\
  ((4 <= length [1; 2; 3; 4; 5]%N)%nat -> exists t,
     timestamp_decode [1; 2; 3; 4; 5]%N = Ok (t, skipn 4 [1; 2; 3; 4; 5]%N) /\
     (0 <= t <= Z.of_N u32_max)%Z).
Proof.
  assert (F : Forall byte_ok [1; 2; 3; 4; 5]%N) by (repeat constructor).
  split; [exact F|]. exact (timestamp_decode_total _ F).
Defined.

(** X6.  Key decoding fails only with [InvalidKeyBytes] of the whole input,
    and only when the input is shorter than five bytes or its bytes before
    the last five are not valid UTF-8: the timestamp part never fails. *)
Theorem key_from_bytes_error b e :
  Forall byte_ok b -> key_from_bytes b = Err e ->
  e = InvalidKeyBytes b /\
  ((length b < 5)%nat \/ utf8_valid (firstn (length b - 5) b) = false).
Proof.
  intros F H. split.
  - revert H. unfold key_from_bytes.
    destruct (length b <? 5)%nat; [intros H; injection H as <-; reflexivity|].
    destruct (skipn (length b - 4) b) as [|b0 [|b1 [|b2 [|b3 [|? ?]]]]];
      try (intros H; injection H as <-; reflexivity).
    destruct (datetime_from_timestamp _); [|intros H; injection H as <-; reflexivity].
    destruct (utf8_valid _); [discriminate|intros H; injection H as <-; reflexivity].
  - destruct (Nat.lt_ge_cases (length b) 5) as [L|L]; [left; exact L|right].
    destruct (utf8_valid (firstn (length b - 5) b)) eqn:U; [|reflexivity].
    destruct (key_from_bytes_spec b L F U) as (b0 & b1 & b2 & b3 & _ & E).
    congruence.
Qed.

Lemma key_from_bytes_error_witness :
  Forall byte_ok [255; 0; 0; 0; 0; 0]%N /\
  key_from_bytes [255; 0; 0; 0; 0; 0]%N = Err (InvalidKeyBytes [255; 0; 0; 0; 0; 0]%N) /\
  InvalidKeyBytes [255; 0; 0; 0; 0; 0]%N = InvalidKeyBytes [255; 0; 0; 0; 0; 0]%N /\
  ((length [255; 0; 0; 0; 0; 0]%N < 5)%nat \/
   utf8_valid (firstn (length [255; 0; 0; 0; 0; 0]%N - 5) [255; 0; 0; 0; 0; 0]%N) = false).
Proof.
  assert (F : Forall byte_ok [255; 0; 0; 0; 0; 0]%N)
    by (repeat constructor; unfold byte_ok; lia).
  assert (E : key_from_bytes [255; 0; 0; 0; 0; 0]%N = Err (InvalidKeyBytes [255; 0; 0; 0; 0; 0]%N))
    by (vm_compute; reflexivity).
  split; [exact F|]. split; [exact E|].
  exact (key_from_bytes_error _ _ F E).
Defined.


Lemma code_le t : (code t <= 17)%N.
Proof. destruct t as [[]|]; simpl; lia. Qed.

Lemma nth_skipn_16 (v : bytes) c rest : skipn 16 v = c :: rest -> nth 16 v 0%N = c.
Proof.
  intros S. assert (L : (16 <= length v)%nat).
  { destruct (Nat.le_gt_cases 16 (length v)) as [L|L]; [exact L|].
    rewrite skipn_all2 in S by lia. discriminate. }
  rewrite <- (firstn_skipn 16 v), app_nth2; rewrite length_firstn; [|lia].
  replace (16 - Nat.min 16 (length v))%nat with 0%nat by lia. rewrite S. reflexivity.
Qed.

(** X7.  A stored value decodes to a row exactly when it is seventeen bytes
    long and its last byte is an image type code ([<= 17]). *)
Theorem decode_row_ok ts v :
  (exists r, decode_row ts v = Ok r) <-> length v = 17%nat /\ (nth 16 v 0 <= 17)%N.
Proof.
  unfold decode_row, decode_value.
  destruct (Nat.ltb_spec (length v) 16) as [L|L].
  - split; [intros [r H]; discriminate|lia].
  - pose proof (length_skipn 16 v) as Ls.
    destruct (skipn 16 v) as [|c rest] eqn:S.
    + simpl in Ls. split; [intros [r H]; discriminate|lia].
    + rewrite (nth_skipn_16 v c rest S). simpl in Ls.
      destruct (from_code c) as [t|] eqn:F.
      * apply from_code_some in F. subst c.
        destruct (Nat.eqb_spec 17 (length v)) as [E|E].
        -- split; [intros _; split; [lia|apply code_le]|intros _].
           destruct t; eexists; reflexivity.
        -- split; [intros [r H]; discriminate|lia].
      * apply from_code_none in F. split; [intros [r H]; discriminate|lia].
Qed.

(** X8.  On an index written only by [add] and [add_failed], [iter] never
    yields an error: every stored pair decodes to a url, valid UTF-8, and a
    row whose timestamp is in [0 .. 2^32 - 1]. *)
Theorem iter_built db :
  built db ->
  exists l, iter db = map Ok l /\
    Forall (fun ur => utf8_valid (fst ur) = true /\
                      (0 <= row_timestamp (snd ur) <= Z.of_N u32_max)%Z) l.
Proof.
  intros Hb. pose proof (built_rows _ Hb) as W. clear Hb.
  induction db as [|kv db IH].
  - exists []. split; constructor.
  - destruct IH as (l & E & F); [intros kv' H; apply W; right; exact H|].
    destruct (written_row_decode kv (W kv (or_introl eq_refl)))
      as (u & n & r & U & Le & _ & K & D).
    exists ((u, r) :: l). split.
    + simpl. fold (iter db). rewrite E, K. cbn [url timestamp]. rewrite D. reflexivity.
    + constructor; [|exact F]. cbn [fst snd]. split; [exact U|].
      rewrite (decode_row_timestamp _ _ _ D). lia.
Qed.

Lemma iter_built_witness :
  built (add_failed [] [97]%N 5%Z) /\
  exists l, iter (add_failed [] [97]%N 5%Z) = map Ok l /\
    Forall (fun ur => utf8_valid (fst ur) = true /\
                      (0 <= row_timestamp (snd ur) <= Z.of_N u32_max)%Z) l.
Proof.
  assert (B : built (add_failed [] [97]%N 5%Z)) by (apply built_add_failed; [apply built_empty|reflexivity]).
  split; [exact B|]. exact (iter_built _ B).
Defined.

Lemma put_put db k v v' : put (put db k v) k v' = put db k v'.
Proof.
  induction db as [|[k0 v0] db IH]; simpl.
  - rewrite bytes_compare_refl. reflexivity.
  - destruct (bytes_compare k k0) eqn:C; simpl.
    + rewrite bytes_compare_refl. reflexivity.
    + rewrite bytes_compare_refl. reflexivity.
    + rewrite C, IH. reflexivity.
Qed.

(** X9.  Recording a download and a failure for the same url at the same
    stored second (after clamping to 32 bits) keeps only the later one:
    [add_failed] after [add] leaves the index as if only [add_failed] had
    run, and [add] after [add_failed] as if only [add] had run. *)
Theorem add_failed_after_add db u e ts :
  u32_try_from_unwrap_or_max ts = u32_try_from_unwrap_or_max (e_timestamp e) ->
  add_failed (add db u e) u ts = add_failed db u ts /\
  add (add_failed db u ts) u e = add db u e.
Proof.
  intros H.
  assert (K : key_to_bytes {| url := u; timestamp := ts |} =
              key_to_bytes {| url := u; timestamp := e_timestamp e |})
    by (unfold key_to_bytes; cbn [timestamp url]; rewrite H; reflexivity).
  unfold add, add_failed, add_kv, add_failed_kv. rewrite K. split; apply put_put.
Qed.

Lemma add_failed_after_add_witness :
  u32_try_from_unwrap_or_max 4294967296%Z =
    u32_try_from_unwrap_or_max (e_timestamp {| e_timestamp := 5000000000%Z; e_digest := repeat 1%N 16; e_image_type := Png |}) /\
  add_failed (add [] [97]%N {| e_timestamp := 5000000000%Z; e_digest := repeat 1%N 16; e_image_type := Png |})
    [97]%N 4294967296%Z = add_failed [] [97]%N 4294967296%Z /\
  add (add_failed [] [97]%N 4294967296%Z) [97]%N
    {| e_timestamp := 5000000000%Z; e_digest := repeat 1%N 16; e_image_type := Png |} =
    add [] [97]%N {| e_timestamp := 5000000000%Z; e_digest := repeat 1%N 16; e_image_type := Png |}.
Proof.
  assert (H : u32_try_from_unwrap_or_max 4294967296%Z =
    u32_try_from_unwrap_or_max (e_timestamp {| e_timestamp := 5000000000%Z; e_digest := repeat 1%N 16; e_image_type := Png |}))
    by (vm_compute; reflexivity).
  split; [exact H|]. exact (add_failed_after_add _ _ _ _ H).
Defined.

Lemma In_put_self db k v : In (k, v) (put db k v).
Proof.
  induction db as [|[k0 v0] db IH]; simpl; [auto|].
  destruct (bytes_compare k k0); simpl; auto.
Qed.

Lemma rows_for_complete u l k v key r :
  In (k, v) l -> key_from_bytes k = Ok key -> url key = u ->
  decode_row (timestamp key) v = Ok r -> In r (rows_for u l).
Proof.
  intros Hin Hk Hu Hd. induction l as [|[k0 v0] l IH]; [destruct Hin|].
  destruct Hin as [E|Hin].
  - injection E as -> ->. simpl. rewrite Hk.
    replace (bytes_eqb (url key) u) with true by (symmetry; apply bytes_eqb_spec; exact Hu).
    rewrite Hd. left. reflexivity.
  - specialize (IH Hin). simpl.
    destruct (key_from_bytes k0) as [key0|]; [|exact IH].
    destruct (bytes_eqb (url key0) u); [|exact IH].
    destruct (decode_row (timestamp key0) v0); [right|]; exact IH.
Qed.


Lemma add_key u e :
  utf8_valid u = true ->
  key_from_bytes (fst (add_kv u e)) =
    Ok {| url := u; timestamp := Z.of_N (u32_try_from_unwrap_or_max (e_timestamp e)) |}.
Proof.
  intros Hu. destruct (key_from_bytes_key_to_bytes u (e_timestamp e) Hu) as (b0 & b1 & b2 & b3 & _ & _ & K).
  exact K.
Qed.

Lemma urls_nul_free_add db u e :
  urls_nul_free db -> utf8_valid u = true -> ~ In 0%N u -> urls_nul_free (add db u e).
Proof.
  intros NF Hu Hz k v key Hin Hk. unfold add in Hin.
  destruct (add_kv u e) as [k1 v1] eqn:A. apply In_put in Hin as [E|Hin].
  - injection E as -> ->. pose proof (add_key u e Hu) as K. rewrite A in K. simpl in K.
    rewrite K in Hk. injection Hk as <-. exact Hz.
  - exact (NF k v key Hin Hk).
Qed.



(** X11.  On an index written by [add] and [add_failed] with NUL-free urls,
    after [add] of an entry for a url, [lookup] of that url returns the
    entry, its time clamped to 32 bits, and the url's status is
    [Downloaded] with an entry at least as recent. *)
Theorem add_then_lookup db u e :
  built db -> urls_nul_free db -> utf8_valid u = true -> ~ In 0%N u ->
  length (e_digest e) = 16%nat -> Forall byte_ok (e_digest e) ->
  exists rows, lookup (add db u e) u = Ok rows /\
    In (RowOk {| e_timestamp := Z.of_N (u32_try_from_unwrap_or_max (e_timestamp e));
                 e_digest := e_digest e; e_image_type := e_image_type e |}) rows /\
    exists e', lookup_status (add db u e) u = Ok (Downloaded e') /\
      (Z.of_N (u32_try_from_unwrap_or_max (e_timestamp e)) <= e_timestamp e')%Z.
Proof.
  intros Hb NF Hu Hz L Ok_.
  assert (Hb' : built (add db u e)) by (apply built_add; assumption).
  pose proof (urls_nul_free_add db u e NF Hu Hz) as NF'.
  set (e1 := {| e_timestamp := Z.of_N (u32_try_from_unwrap_or_max (e_timestamp e));
                e_digest := e_digest e; e_image_type := e_image_type e |}).
  assert (Hin : In (RowOk e1) (rev (rows_for u (add db u e)))).
  { apply in_rev. rewrite rev_involutive.
    apply (rows_for_complete u _ (fst (add_kv u e)) (snd (add_kv u e))
             {| url := u; timestamp := Z.of_N (u32_try_from_unwrap_or_max (e_timestamp e)) |}).
    - unfold add. destruct (add_kv u e). apply In_put_self.
    - apply add_key. exact Hu.
    - reflexivity.
    - rewrite add_kv_value. apply decode_row_add. exact L. }
  exists (rev (rows_for u (add db u e))).
  pose proof (lookup_nul_free _ u Hb' NF') as Lk.
  split; [exact Lk|]. split; [exact Hin|].
  destruct (find_ok_exists _ _ Hin) as [e' F]. exists e'.
  split; [exact (lookup_status_downloaded _ _ _ _ Lk F)|].
  destruct (lookup_descending _ u Hb') as (rows & L2 & S & _).
  rewrite Lk in L2. injection L2 as <-.
  exact (find_ok_latest _ _ e1 S F Hin).
Qed.

Lemma add_then_lookup_witness :
  built [] /\ urls_nul_free [] /\ utf8_valid [97]%N = true /\ ~ In 0%N [97]%N /\
  length (e_digest {| e_timestamp := 5%Z; e_digest := repeat 1%N 16; e_image_type := Png |}) = 16%nat /\
  Forall byte_ok (e_digest {| e_timestamp := 5%Z; e_digest := repeat 1%N 16; e_image_type := Png |}) /\
  exists rows, lookup (add [] [97]%N {| e_timestamp := 5%Z; e_digest := repeat 1%N 16; e_image_type := Png |}) [97]%N = Ok rows /\
    In (RowOk {| e_timestamp := Z.of_N (u32_try_from_unwrap_or_max 5%Z);
                 e_digest := repeat 1%N 16; e_image_type := Png |}) rows /\
    exists e', lookup_status (add [] [97]%N {| e_timestamp := 5%Z; e_digest := repeat 1%N 16; e_image_type := Png |}) [97]%N = Ok (Downloaded e') /\
      (Z.of_N (u32_try_from_unwrap_or_max 5%Z) <= e_timestamp e')%Z.
Proof.
  assert (B : built []) by apply built_empty.
  assert (NF : urls_nul_free []) by (intros k v key []).
  assert (U : utf8_valid [97]%N = true) by reflexivity.
  assert (Z0 : ~ In 0%N [97]%N) by (intros [H|[]]; discriminate).
  assert (L : length (e_digest {| e_timestamp := 5%Z; e_digest := repeat 1%N 16; e_image_type := Png |}) = 16%nat)
    by reflexivity.
  assert (F : Forall byte_ok (e_digest {| e_timestamp := 5%Z; e_digest := repeat 1%N 16; e_image_type := Png |}))
    by (repeat constructor).
  do 6 (split; [assumption|]).
  exact (add_then_lookup _ _ _ B NF U Z0 L F).
Defined.

End IndexExtras.

(** * Further properties of the request manager *)

Module ManagerExtras.
Import Manager.

Lemma request_all_open m us :
  rx_open m = true ->
  request_all m us =
    Ok {| rx_open := true; queue := queue m ++ map Some us;
          request_receiver_handle := request_receiver_handle m;
          served := served m; joins := joins m |}.
Proof.
  revert m. induction us as [|u us IH]; intros m Ho; simpl.
  - rewrite app_nil_r. destruct m; simpl in *; subst; reflexivity.
  - unfold request, send. rewrite Ho. rewrite IH by reflexivity. simpl.
    rewrite <- app_assoc. reflexivity.
Qed.

Lemma handle_requests_served us d rest :
  handle_requests (map Some us ++ None :: rest) d = Some (d ++ us).
Proof.
  revert d. induction us as [|u us IH]; intros d; simpl.
  - rewrite app_nil_r. reflexivity.
  - rewrite IH, <- app_assoc. reflexivity.
Qed.

(** X12.  The urls requested on a fresh manager are all downloaded, in
    request order, by the time [close] returns [Ok]; the task's handle has
    then been awaited once, and any later [request] fails with
    [ChannelError::Send]. *)
Theorem close_after_requests us :
  exists m, request_all new us = Ok m /\
  exists m', close m = Some (Ok tt, m') /\ served m' = us /\ joins m' = 1%nat /\
    forall u, request m' u = Err ChannelSend.
Proof.
  rewrite request_all_open by reflexivity.
  eexists. split; [reflexivity|].
  unfold close, send. cbn [rx_open queue request_receiver_handle served joins new].
  unfold await_task. cbn [queue served request_receiver_handle joins app].
  rewrite handle_requests_served.
  eexists. split; [reflexivity|]. cbn [served joins app].
  split; [reflexivity|]. split; [reflexivity|].
  intros u. reflexivity.
Qed.

End ManagerExtras.

(** * Further properties of the store and of the [list] command *)

Module StoreExtras.
Import Store StoreFacts.

Lemma usize_sum_from_spec l : forall acc, (acc <= usize_max)%N ->
  usize_sum_from acc l =
    if (acc + N.of_nat (list_sum l) <=? usize_max)%N
    then Some (acc + N.of_nat (list_sum l))%N else None.
Proof.
  induction l as [|x l IH]; intros acc H; simpl.
  - rewrite N.add_0_r. destruct (N.leb_spec acc usize_max); [reflexivity|lia].
  - destruct (N.leb_spec (acc + N.of_nat x) usize_max) as [Le|Gt].
    + rewrite IH by exact Le. rewrite Nat2N.inj_add, N.add_assoc. reflexivity.
    + destruct (N.leb_spec (acc + N.of_nat (x + list_sum l)) usize_max); [|reflexivity].
      rewrite Nat2N.inj_add in *. lia.
Qed.

Lemma with_prefix_part_lengths_cases ppl :
  with_prefix_part_lengths ppl =
    if (N.of_nat (list_sum ppl) <=? usize_max)%N
    then Some (if valid_prefix_part_lengths ppl then Ok ppl
               else Err (InvalidPrefixPartLengths ppl))
    else None.
Proof.
  unfold with_prefix_part_lengths. rewrite usize_sum_from_spec by (unfold usize_max; lia).
  rewrite N.add_0_l.
  destruct (N.of_nat (list_sum ppl) <=? usize_max)%N; [|reflexivity].
  unfold valid_prefix_part_lengths.
  replace (32 <? N.of_nat (list_sum ppl))%N with (negb (list_sum ppl <=? 32)%nat).
  - destruct (list_sum ppl <=? 32)%nat, (existsb (Nat.eqb 0) ppl); reflexivity.
  - destruct (Nat.leb_spec (list_sum ppl) 32), (N.ltb_spec 32 (N.of_nat (list_sum ppl)));
      simpl; lia.
Qed.

Lemma existsb_zero ppl : existsb (Nat.eqb 0) ppl = true <-> In 0%nat ppl.
Proof.
  rewrite existsb_exists. split.
  - intros (x & Hx & E). apply Nat.eqb_eq in E. subst. exact Hx.
  - intros H. exists 0%nat. split; [exact H|reflexivity].
Qed.

(** X13.  [Store::with_prefix_part_lengths] panics (its [usize] sum
    overflows) exactly when the lengths add up to more than [usize::MAX];
    it accepts the lengths, unchanged, exactly when they add up to at most
    32 and none is 0; any other input gives
    [InvalidPrefixPartLengths] carrying the lengths. *)
Theorem with_prefix_part_lengths_spec ppl :
  (with_prefix_part_lengths ppl = None <-> (usize_max < N.of_nat (list_sum ppl))%N) /\
  (with_prefix_part_lengths ppl = Some (Ok ppl) <->
     (list_sum ppl <= 32)%nat /\ ~ In 0%nat ppl) /\
  (forall ppl', with_prefix_part_lengths ppl = Some (Ok ppl') -> ppl' = ppl) /\
  (forall e, with_prefix_part_lengths ppl = Some (Err e) -> e = InvalidPrefixPartLengths ppl).
Proof.
  rewrite with_prefix_part_lengths_cases. unfold valid_prefix_part_lengths.
  destruct (N.leb_spec (N.of_nat (list_sum ppl)) usize_max) as [Le|Gt].
  - split; [split; [discriminate|intros; lia]|].
    destruct (Nat.leb_spec (list_sum ppl) 32) as [S|S];
      destruct (existsb (Nat.eqb 0) ppl) eqn:Z; cbn [andb negb].
    + rewrite existsb_zero in Z. split; [split; [discriminate|tauto]|].
      split; [discriminate|intros e H; injection H as <-; reflexivity].
    + split; [split; [intros _; split; [exact S|]|reflexivity]|].
      * rewrite <- existsb_zero, Z. discriminate.
      * split; [intros ppl' H; injection H as <-; reflexivity|discriminate].
    + split; [split; [discriminate|lia]|].
      split; [discriminate|intros e H; injection H as <-; reflexivity].
    + split; [split; [discriminate|lia]|].
      split; [discriminate|intros e H; injection H as <-; reflexivity].
  - split; [split; [intros _; exact Gt|reflexivity]|].
    split; [split; [discriminate|intros [S _]; unfold usize_max in Gt; lia]|].
    split; discriminate.
Qed.

Lemma path_parts_lengths ppl s parts :
  path_parts ppl s = Some parts ->
  map (@length N) parts = ppl /\ exists rest, s = concat parts ++ rest.
Proof.
  revert s parts; induction ppl as [|len ppl IH]; intros s parts E; simpl in E.
  - injection E as <-. split; [reflexivity|]. exists s. reflexivity.
  - destruct (Nat.leb_spec len (length s)) as [Le|]; [|discriminate].
    destruct (path_parts ppl (skipn len s)) as [parts'|] eqn:E'; [|discriminate].
    injection E as <-. destruct (IH _ _ E') as [M [rest R]].
    split; [simpl; rewrite M, firstn_length_le by exact Le; reflexivity|].
    exists rest. simpl. rewrite <- app_assoc, <- R. symmetry. apply firstn_skipn.
Qed.

Lemma with_prefix_part_lengths_ok ppl ppl' :
  with_prefix_part_lengths ppl = Some (Ok ppl') ->
  ppl' = ppl /\ valid_prefix_part_lengths ppl = true.
Proof.
  rewrite with_prefix_part_lengths_cases.
  destruct (N.of_nat (list_sum ppl) <=? usize_max)%N; [|discriminate].
  destruct (valid_prefix_part_lengths ppl); [|discriminate].
  intros H. injection H as <-. auto.
Qed.

(** X14.  A store made by [with_prefix_part_lengths] never panics in
    [Store::path] on a sixteen-byte digest: the path is one directory per
    prefix part, of the given lengths, that together spell the start of
    the digest's hex string, then the hex string itself. *)
Theorem store_path_accepted ppl ppl' d :
  with_prefix_part_lengths ppl = Some (Ok ppl') -> length d = 16%nat ->
  exists parts, store_path ppl' d = Some (parts ++ [to_hex d]) /\
    map (@length N) parts = ppl /\ exists rest, to_hex d = concat parts ++ rest.
Proof.
  intros H L. destruct (with_prefix_part_lengths_ok _ _ H) as [-> V].
  unfold valid_prefix_part_lengths in V. apply andb_true_iff in V as [S _].
  apply Nat.leb_le in S.
  destruct (path_parts_some ppl (to_hex d)) as [parts P]; [rewrite to_hex_length, L; lia|].
  exists parts. unfold store_path. rewrite P. split; [reflexivity|].
  exact (path_parts_lengths _ _ _ P).
Qed.

Lemma store_path_accepted_witness :
  with_prefix_part_lengths [2; 3]%nat = Some (Ok [2; 3]%nat) /\ length (repeat 171%N 16) = 16%nat /\
  exists parts, store_path [2; 3]%nat (repeat 171%N 16) = Some (parts ++ [to_hex (repeat 171%N 16)]) /\
    map (@length N) parts = [2; 3]%nat /\
    exists rest, to_hex (repeat 171%N 16) = concat parts ++ rest.
Proof.
  assert (H : with_prefix_part_lengths [2; 3]%nat = Some (Ok [2; 3]%nat)) by (vm_compute; reflexivity).
  assert (L : length (repeat 171%N 16) = 16%nat) by reflexivity.
  split; [exact H|]. split; [exact L|]. exact (store_path_accepted _ _ _ H L).
Defined.

(** ** Files written by [save] *)

Lemma lookup_child_set_other c c0 n cs :
  c0 <> c -> lookup_child c0 (set_child c n cs) = lookup_child c0 cs.
Proof.
  intros Ne. induction cs as [|[c' n'] cs IH]; simpl; [reflexivity|].
  destruct (bytes_eqb c' c) eqn:E; simpl.
  - apply IndexFacts.bytes_eqb_spec in E. subst c'.
    destruct (bytes_eqb c c0) eqn:E0; [apply IndexFacts.bytes_eqb_spec in E0; congruence|reflexivity].
  - destruct (bytes_eqb c' c0); [reflexivity|exact IH].
Qed.

Lemma lookup_child_app_other c c0 n cs :
  c0 <> c -> lookup_child c0 (cs ++ [(c, n)]) = lookup_child c0 cs.
Proof.
  intros Ne. induction cs as [|[c' n'] cs IH]; simpl.
  - destruct (bytes_eqb c c0) eqn:E0; [apply IndexFacts.bytes_eqb_spec in E0; congruence|reflexivity].
  - destruct (bytes_eqb c' c0); [reflexivity|exact IH].
Qed.

Lemma get_empty_dir q x : get (Dir []) q <> Some (File x).
Proof. destruct q; simpl; discriminate. Qed.

Lemma create_dir_all_files p : forall n n1 q x,
  create_dir_all n p = Some n1 -> get n1 q = Some (File x) -> get n q = Some (File x).
Proof.
  induction p as [|c p IH]; intros n n1 q x E G; simpl in E.
  - destruct n; [discriminate|]. injection E as <-. exact G.
  - destruct n as [|cs]; [discriminate|].
    destruct (lookup_child c cs) as [n'|] eqn:L.
    + destruct (create_dir_all n' p) as [n''|] eqn:E'; [|discriminate]. injection E as <-.
      destruct q as [|c0 q]; [discriminate|]. simpl in G |- *.
      destruct (list_eq_dec N.eq_dec c0 c) as [->|Ne].
      * rewrite lookup_child_set in G by congruence. rewrite L. exact (IH _ _ _ _ E' G).
      * rewrite lookup_child_set_other in G by exact Ne. exact G.
    + destruct (create_dir_all (Dir []) p) as [n''|] eqn:E'; [|discriminate]. injection E as <-.
      destruct q as [|c0 q]; [discriminate|]. simpl in G |- *.
      destruct (list_eq_dec N.eq_dec c0 c) as [->|Ne].
      * rewrite lookup_child_app_new in G by exact L.
        exfalso. exact (get_empty_dir _ _ (IH _ _ _ _ E' G)).
      * rewrite lookup_child_app_other in G by exact Ne. exact G.
Qed.

Lemma create_file_files p : forall n n1 b q x,
  create_file n p b = Some n1 -> get n1 q = Some (File x) ->
  (q = p /\ x = b) \/ get n q = Some (File x).
Proof.
  induction p as [|c p IH]; intros n n1 b q x E G.
  - destruct n; simpl in E; discriminate.
  - destruct n as [|cs]; [destruct p; discriminate|].
    destruct p as [|c1 p'].
    + simpl in E.
      destruct (lookup_child c cs) as [[y|cs']|] eqn:L; try discriminate; injection E as <-;
        (destruct q as [|c0 q]; [discriminate|]); simpl in G |- *;
        (destruct (list_eq_dec N.eq_dec c0 c) as [->|Ne]).
      * rewrite lookup_child_set in G by congruence.
        destruct q; simpl in G; [|discriminate]. injection G as <-. left; auto.
      * rewrite lookup_child_set_other in G by exact Ne. right; exact G.
      * rewrite lookup_child_app_new in G by exact L.
        destruct q; simpl in G; [|discriminate]. injection G as <-. left; auto.
      * rewrite lookup_child_app_other in G by exact Ne. right; exact G.
    + rewrite create_file_cons in E.
      destruct (lookup_child c cs) as [n'|] eqn:L; [|discriminate].
      destruct (create_file n' (c1 :: p') b) as [n''|] eqn:E'; [|discriminate]. injection E as <-.
      destruct q as [|c0 q]; [discriminate|]. simpl in G |- *.
      destruct (list_eq_dec N.eq_dec c0 c) as [->|Ne].
      * rewrite lookup_child_set in G by congruence. rewrite L.
        destruct (IH _ _ _ _ _ E' G) as [[-> ->]|G']; [left; auto|right; exact G'].
      * rewrite lookup_child_set_other in G by exact Ne. right; exact G.
Qed.

(** Every file of a store built by [save]s is named by the hex string of
    the [md5] of its contents. *)
Lemma built_files md5 imghdr_from_bytes ppl fs :
  built_store md5 imghdr_from_bytes ppl fs ->
  forall q c x, get fs (q ++ [c]) = Some (File x) -> c = to_hex (md5 x).
Proof.
  induction 1 as [|fs b r fs' _ IH E]; intros q c x G.
  - exfalso. destruct q as [|c0 q]; simpl in G; discriminate.
  - unfold save in E. destruct (store_path ppl (md5 b)) as [p|] eqn:SP; [|discriminate].
    destruct (create_dir_all fs (parent p)) as [fs1|] eqn:C.
    2: { injection E as _ <-. exact (IH _ _ _ G). }
    destruct (exists_ fs1 p).
    + injection E as _ <-. exact (IH _ _ _ (create_dir_all_files _ _ _ _ _ C G)).
    + destruct (create_file fs1 p b) as [fs2|] eqn:CF.
      * injection E as _ <-. destruct (create_file_files _ _ _ _ _ _ CF G) as [[Ep ->]|G1].
        -- unfold store_path in SP. destruct (path_parts ppl (to_hex (md5 b))); [|discriminate].
           injection SP as <-. apply app_inj_tail in Ep as [_ ->]. reflexivity.
        -- exact (IH _ _ _ (create_dir_all_files _ _ _ _ _ C G1)).
      * injection E as _ <-. exact (IH _ _ _ (create_dir_all_files _ _ _ _ _ C G)).
Qed.

Lemma val_hex_digit v j : (v < 16)%N -> val (hex_digit v) j = Ok v.
Proof.
  intros H. unfold val, hex_digit, in_range.
  destruct (N.ltb_spec v 10);
  [ destruct (N.leb_spec 65 (48 + v)), (N.leb_spec (48 + v) 70), (N.leb_spec 97 (48 + v)),
      (N.leb_spec (48 + v) 102), (N.leb_spec 48 (48 + v)), (N.leb_spec (48 + v) 57)
  | destruct (N.leb_spec 65 (87 + v)), (N.leb_spec (87 + v) 70), (N.leb_spec 97 (87 + v)),
      (N.leb_spec (87 + v) 102), (N.leb_spec 48 (87 + v)), (N.leb_spec (87 + v) 57) ];
  cbn [andb]; try lia; f_equal; lia.
Qed.

Lemma decode_pairs_to_hex d : forall i, Forall byte_ok d -> decode_pairs (to_hex d) i = Ok d.
Proof.
  induction d as [|x d IH]; intros i F; [reflexivity|].
  inversion F as [|? ? Hx Fd]; subst. unfold byte_ok in Hx.
  assert (H1 : (x / 16 < 16)%N) by (apply N.Div0.div_lt_upper_bound; lia).
  assert (H2 : (x mod 16 < 16)%N) by (apply N.mod_lt; discriminate).
  change (to_hex (x :: d)) with (hex_digit (x / 16) :: hex_digit (x mod 16) :: to_hex d)%N.
  cbn [decode_pairs]. rewrite !val_hex_digit by assumption. rewrite IH by assumption.
  destruct (hex_pair (x / 16) (x mod 16) H1 H2) as [E _]. rewrite E.
  pose proof (N.Div0.div_mod x 16). do 2 f_equal. lia.
Qed.

Lemma from_hex16_to_hex d :
  length d = 16%nat -> Forall byte_ok d -> from_hex16 (to_hex d) = Ok d.
Proof.
  intros L F. unfold from_hex16. rewrite to_hex_length, L. simpl.
  apply decode_pairs_to_hex. exact F.
Qed.

Lemma entry_validate_built md5 imghdr_from_bytes ppl fs e :
  md5_ok md5 -> built_store md5 imghdr_from_bytes ppl fs ->
  path_to_entry fs (path e) = Ok e -> entry_validate md5 fs e = Ok (Ok tt).
Proof.
  intros Hm Hb P. destruct e as [pe de]. cbn [path digest] in *.
  unfold path_to_entry in P.
  destruct (is_file fs pe) eqn:F; [|discriminate].
  unfold is_file in F. destruct (get fs pe) as [[x|]|] eqn:G; try discriminate.
  destruct (file_name pe) as [c|] eqn:N; [|discriminate].
  destruct (forallb is_valid_char c); [|discriminate].
  destruct (from_hex16 c) as [d|] eqn:H; [|discriminate]. injection P as Pd. subst de.
  assert (Ep : exists q, pe = q ++ [c]).
  { unfold file_name in N. destruct (rev pe) as [|c' l] eqn:R; [discriminate|].
    injection N as ->. exists (rev l). rewrite <- (rev_involutive pe), R. reflexivity. }
  destruct Ep as [q Ep]. rewrite Ep in G.
  pose proof (built_files _ _ _ _ Hb q c x G) as Hc. subst c.
  destruct (Hm x) as [L O]. rewrite from_hex16_to_hex in H by assumption. injection H as <-.
  unfold entry_validate. cbn [path digest]. rewrite Ep, G.
  replace (bytes_eqb (md5 x) (md5 x)) with true
    by (symmetry; apply IndexFacts.bytes_eqb_spec; reflexivity).
  reflexivity.
Qed.

Lemma steps_entries ppl fs st items st' :
  steps ppl fs st items st' -> forall e, In (Ok e) items -> path_to_entry fs (path e) = Ok e.
Proof.
  induction 1 as [st|st st' l st'' E H IH|st x st' l st'' E H IH]; intros e Hin;
    [destruct Hin|exact (IH e Hin)|].
  destruct Hin as [Hx|Hin]; [subst x|exact (IH e Hin)].
  unfold step in E. destruct (stack st) as [|next_paths stack']; [discriminate|].
  destruct (is_last ppl st).
  - destruct next_paths as [|next_path rest]; [discriminate|]. injection E as Ex _.
    rewrite (path_to_entry_path _ _ _ Ex). exact Ex.
  - destruct next_paths as [|next_path rest]; [discriminate|].
    destruct (path_to_paths _ _ _); [discriminate|]. injection E as Ex _. discriminate Ex.
Qed.

Lemma collect_entries ppl fs fuel items :
  collect ppl fs fuel entries = Some items ->
  forall e, In (Ok e) items -> path_to_entry fs (path e) = Ok e.
Proof.
  intros C. destruct (collect_sound _ _ _ _ _ C) as (st' & S & _).
  exact (steps_entries _ _ _ _ _ S).
Qed.

Lemma validate_all md5 fs items :
  (forall e, In (Ok e) items -> entry_validate md5 fs e = Ok (Ok tt)) ->
  validate md5 fs items =
    map (fun item => match item with Ok e => Ok (Valid e) | Err e => Err e end) items /\
  validate_fail_fast md5 fs items =
    map (fun item => match item with Ok e => Ok e | Err e => Err (Iteration e) end) items.
Proof.
  induction items as [|[e|er] items IH]; intros H; [split; reflexivity| |];
    (destruct IH as [IH1 IH2]; [intros e' He'; apply H; right; exact He'|]);
    unfold validate_fail_fast, validate in *; cbn [map].
  - rewrite (H e (or_introl eq_refl)). split; [f_equal; exact IH1|].
    cbn [validation_result]. f_equal. exact IH2.
  - split; f_equal; assumption.
Qed.

(** X15.  On a store built by [save]s (with [md5] returning sixteen bytes),
    validating the items of an enumeration (with any shard lengths) never
    finds a digest mismatch or a read error: [Entries::validate] makes
    every entry [Valid], and [validate_fail_fast] passes every entry
    through, turning only the enumeration's own errors into
    [Error::Iteration]. *)
Theorem validate_built md5 imghdr_from_bytes ppl ppl' fs fuel items :
  md5_ok md5 -> built_store md5 imghdr_from_bytes ppl fs ->
  collect ppl' fs fuel entries = Some items ->
  validate md5 fs items =
    map (fun item => match item with Ok e => Ok (Valid e) | Err e => Err e end) items /\
  validate_fail_fast md5 fs items =
    map (fun item => match item with Ok e => Ok e | Err e => Err (Iteration e) end) items.
Proof.
  intros Hm Hb C. apply validate_all. intros e He.
  exact (entry_validate_built _ _ _ _ _ Hm Hb (collect_entries _ _ _ _ C e He)).
Qed.

Lemma validate_built_witness :
  md5_ok (fun _ => repeat 7%N 16) /\
  built_store (fun _ => repeat 7%N 16) (fun _ => None) [1]%nat
    (Dir [([48]%N, Dir [(to_hex (repeat 7%N 16), File [])])]) /\
  collect [1]%nat (Dir [([48]%N, Dir [(to_hex (repeat 7%N 16), File [])])]) 20 entries =
    Some [Ok {| path := [[48]%N; to_hex (repeat 7%N 16)]; digest := repeat 7%N 16 |}] /\
  validate (fun _ => repeat 7%N 16) (Dir [([48]%N, Dir [(to_hex (repeat 7%N 16), File [])])])
    [Ok {| path := [[48]%N; to_hex (repeat 7%N 16)]; digest := repeat 7%N 16 |}] =
    map (fun item => match item with Ok e => Ok (Valid e) | Err e => Err e end)
      [Ok {| path := [[48]%N; to_hex (repeat 7%N 16)]; digest := repeat 7%N 16 |}] /\
  validate_fail_fast (fun _ => repeat 7%N 16) (Dir [([48]%N, Dir [(to_hex (repeat 7%N 16), File [])])])
    [Ok {| path := [[48]%N; to_hex (repeat 7%N 16)]; digest := repeat 7%N 16 |}] =
    map (fun item => match item with Ok e => Ok e | Err e => Err (Iteration e) end)
      [Ok {| path := [[48]%N; to_hex (repeat 7%N 16)]; digest := repeat 7%N 16 |}].
Proof.
  assert (Hm : md5_ok (fun _ => repeat 7%N 16)).
  { intros x. split; [reflexivity|]. apply Forall_forall. intros y Hy.
    apply repeat_spec in Hy. subst. reflexivity. }
  assert (Hb : built_store (fun _ => repeat 7%N 16) (fun _ => None) [1]%nat
                 (Dir [([48]%N, Dir [(to_hex (repeat 7%N 16), File [])])]))
    by (eapply built_store_save with (b := []); [apply built_store_empty|vm_compute; reflexivity]).
  assert (C : collect [1]%nat (Dir [([48]%N, Dir [(to_hex (repeat 7%N 16), File [])])]) 20 entries =
    Some [Ok {| path := [[48]%N; to_hex (repeat 7%N 16)]; digest := repeat 7%N 16 |}])
    by (vm_compute; reflexivity).
  split; [exact Hm|]. split; [exact Hb|]. split; [exact C|].
  exact (validate_built _ _ _ _ _ _ _ Hm Hb C).
Defined.

(** ** The [list] command on a store built by [save]s *)

Lemma infer_built md5 imghdr_from_bytes ppl fs :
  md5_ok md5 -> built_store md5 imghdr_from_bytes ppl fs -> (exists p, is_file fs p = true) ->
  infer_prefix_part_lengths fs = Ok (Some ppl).
Proof.
  intros Hm Hb [p Hp].
  destruct (built_shape _ _ Hm _ _ Hb) as [Sh Fu].
  destruct (shape_dir _ _ _ Sh) as [cs ->].
  destruct cs as [|[c n] cs]; [apply is_file_root_nonempty in Hp; congruence|].
  simpl. rewrite (infer_rec_full _ _ _ _ _ [] Sh Fu). reflexivity.
Qed.

Lemma infer_no_file cs :
  (forall p, is_file (Dir cs) p = false) -> infer_prefix_part_lengths (Dir cs) = Ok None.
Proof.
  destruct cs as [|[c n] cs]; intros H; [reflexivity|]. simpl.
  assert (Hn : forall p, is_file n p = false).
  { intros p. specialize (H (c :: p)). unfold is_file in *. simpl in H.
    rewrite (proj2 (IndexFacts.bytes_eqb_spec c c) eq_refl) in H. exact H. }
  pose proof (infer_rec_no_file n c [] Hn) as E.
  destruct (infer_prefix_part_lengths_rec n c []) as [[|] acc]; [reflexivity|discriminate].
Qed.







(** X17.  [list] on a store built by [save]s that holds a file, given a
    [--prefix] other than the store's shard lengths, stops with
    [PrefixPartLengthsMismatch] naming the inferred and the provided
    lengths, before listing anything. *)
Theorem list_prefix_mismatch md5 imghdr_from_bytes ppl fs provided v fuel :
  md5_ok md5 -> built_store md5 imghdr_from_bytes ppl fs -> (exists p, is_file fs p = true) ->
  provided <> ppl ->
  Cli.list md5 fs (Some provided) v fuel =
    Some ([], Some (Cli.PrefixPartLengthsMismatch ppl provided)).
Proof.
  intros Hm Hb Hf Ne. unfold Cli.list. rewrite (infer_built _ _ _ _ Hm Hb Hf).
  cbn [Cli.check_prefix_part_lengths].
  destruct (list_eq_dec Nat.eq_dec ppl provided) as [E|_]; [congruence|reflexivity].
Qed.

Lemma list_prefix_mismatch_witness :
  md5_ok (fun _ => repeat 7%N 16) /\
  built_store (fun _ => repeat 7%N 16) (fun _ => None) [1]%nat
    (Dir [([48]%N, Dir [(to_hex (repeat 7%N 16), File [])])]) /\
  (exists p, is_file (Dir [([48]%N, Dir [(to_hex (repeat 7%N 16), File [])])]) p = true) /\
  [2]%nat <> [1]%nat /\
  Cli.list (fun _ => repeat 7%N 16) (Dir [([48]%N, Dir [(to_hex (repeat 7%N 16), File [])])])
    (Some [2]%nat) true 0 = Some ([], Some (Cli.PrefixPartLengthsMismatch [1]%nat [2]%nat)).
Proof.
  assert (Hm : md5_ok (fun _ => repeat 7%N 16)).
  { intros x. split; [reflexivity|]. apply Forall_forall. intros y Hy.
    apply repeat_spec in Hy. subst. reflexivity. }
  assert (Hb : built_store (fun _ => repeat 7%N 16) (fun _ => None) [1]%nat
                 (Dir [([48]%N, Dir [(to_hex (repeat 7%N 16), File [])])]))
    by (eapply built_store_save with (b := []); [apply built_store_empty|vm_compute; reflexivity]).
  assert (Hf : exists p, is_file (Dir [([48]%N, Dir [(to_hex (repeat 7%N 16), File [])])]) p = true)
    by (exists [[48]%N; to_hex (repeat 7%N 16)]; vm_compute; reflexivity).
  assert (Ne : [2]%nat <> [1]%nat) by discriminate.
  do 4 (split; [assumption|]).
  exact (list_prefix_mismatch _ _ _ _ _ true 0 Hm Hb Hf Ne).
Defined.

(** X18.  [list] on a base directory with no file below it (whatever its
    directories) and no [--prefix] stops with [MissingPrefixPartLengths],
    listing nothing. *)
Theorem list_no_file md5 cs v fuel :
  (forall p, is_file (Dir cs) p = false) ->
  Cli.list md5 (Dir cs) None v fuel = Some ([], Some Cli.MissingPrefixPartLengths).
Proof. intros H. unfold Cli.list. rewrite (infer_no_file cs H). reflexivity. Qed.

Lemma list_no_file_witness :
  (forall p, is_file (Dir [([48]%N, Dir [])]) p = false) /\
  Cli.list (fun _ => repeat 7%N 16) (Dir [([48]%N, Dir [])]) None false 10 =
    Some ([], Some Cli.MissingPrefixPartLengths).
Proof.
  assert (H : forall p, is_file (Dir [([48]%N, Dir [])]) p = false).
  { intros [|c [|c' p]]; unfold is_file; simpl; [reflexivity| |];
      destruct (bytes_eqb [48]%N c); reflexivity. }
  split; [exact H|]. exact (list_no_file _ _ false 10 H).
Defined.





End StoreExtras.

(** * Extra properties of the web service *)

Module ServiceExtras.
Import Store StoreFacts Service.

Lemma is_hex_lower_byte n : is_hex_lower n = true -> byte_ok n.
Proof.
  unfold is_hex_lower, in_range, byte_ok. intros H.
  apply orb_true_iff in H as [H|H]; apply andb_true_iff in H as [H1 H2];
    apply N.leb_le in H1; apply N.leb_le in H2; lia.
Qed.

Lemma hex_not_dot n : is_hex_lower n = true -> Ascii.eqb (ascii_of_N n) "." = false.
Proof.
  intros H. destruct (Ascii.eqb_spec (ascii_of_N n) ".") as [E|]; [|reflexivity].
  exfalso. apply (f_equal N_of_ascii) in E.
  rewrite N_ascii_embedding in E by exact (is_hex_lower_byte _ H).
  simpl in E. subst n. discriminate H.
Qed.

Lemma split_nonempty c s : Service.split c s <> [].
Proof.
  destruct s as [|a s]; simpl; [discriminate|].
  destruct (Ascii.eqb a c); [discriminate|]. destruct (Service.split c s); discriminate.
Qed.

(** Hex digits hold no ['.'], so [split] keeps them in the first part. *)
Lemma split_hex_app b rest p ps :
  forallb is_hex_lower b = true -> Service.split "." rest = p :: ps ->
  Service.split "." (string_of_bytes b ++ rest) = (string_of_bytes b ++ p)%string :: ps.
Proof.
  intros H E. induction b as [|x b IH]; [exact E|].
  simpl in H. apply andb_true_iff in H as [Hx Hb].
  cbn [string_of_bytes map string_of_list_ascii append Service.split].
  fold (string_of_bytes b). rewrite (IH Hb), (hex_not_dot _ Hx). reflexivity.
Qed.

Lemma bytes_of_string_of_bytes b : Forall byte_ok b -> bytes_of_string (string_of_bytes b) = b.
Proof.
  intros H. unfold bytes_of_string, string_of_bytes.
  rewrite list_ascii_of_string_of_list_ascii, map_map.
  induction H as [|x b Hx _ IH]; [reflexivity|]. simpl. rewrite N_ascii_embedding by exact Hx.
  f_equal. exact IH.
Qed.

Lemma forallb_hex_byte b : forallb is_hex_lower b = true -> Forall byte_ok b.
Proof.
  intros H. apply Forall_forall. intros x Hx. apply is_hex_lower_byte.
  exact (proj1 (forallb_forall _ _) H x Hx).
Qed.

Lemma string_app_empty s : (s ++ "")%string = s.
Proof. induction s as [|a s IH]; simpl; [reflexivity|]. rewrite IH. reflexivity. Qed.

(** X20.  The path segment that [static_url] writes after [static/] is one
    that [static_image] serves: for a type with a MIME type, the contents
    of the file at [path_for_digest] under that MIME type, or
    [ImageNotFound] when no file is there; for the unknown type ([static_url]
    writes no extension) [InvalidFormat], and for a type without a MIME type
    [InvalidExtension]. *)
Theorem static_url_served cfg d t style ppl fs :
  length d = 16%nat -> Forall byte_ok d ->
  exists seg,
    static_url cfg d t style = (url_prefix cfg style ++ "static/" ++ seg)%string /\
    static_image ppl fs seg =
      match Index.mime_type t with
      | Some mime =>
          match path_for_digest ppl fs d with
          | None => None
          | Some None => Some (Err (ImageNotFound d))
          | Some (Some p) => Some (Ok (mime, p))
          end
      | None =>
          Some (Err (if String.eqb (Index.as_str t) "" then InvalidFormat seg
                     else InvalidExtension (Index.as_str t)))
      end.
Proof.
  intros L B. pose proof (to_hex_hex _ B) as H.
  pose proof (split_hex_app _ "" "" [] H eq_refl) as S0.
  rewrite string_app_empty in S0.
  unfold static_url. destruct (String.eqb (Index.as_str t) "") eqn:E.
  - exists (string_of_bytes (to_hex d)). split; [reflexivity|].
    apply String.eqb_eq in E. destruct t as [t|]; [destruct t; discriminate|].
    unfold static_image. rewrite S0. reflexivity.
  - exists (string_of_bytes (to_hex d) ++ "." ++ Index.as_str t)%string. split; [reflexivity|].
    assert (S1 : Service.split "." ("." ++ Index.as_str t) = [""; Index.as_str t]%string)
      by (destruct t as [[]|]; reflexivity).
    unfold static_image. rewrite (split_hex_app _ _ _ _ H S1), string_app_empty.
    rewrite bytes_of_string_of_bytes by exact (forallb_hex_byte _ H).
    rewrite StoreExtras.from_hex16_to_hex by assumption.
    destruct t as [[]|]; try discriminate E; reflexivity.
Qed.

Lemma static_url_served_witness :
  length (repeat 171%N 16) = 16%nat /\ Forall byte_ok (repeat 171%N 16) /\
  exists seg,
    static_url {| secure := true; server := "example.com"; base_path := "/" |}
      (repeat 171%N 16) (Some Index.Png) Full =
      (url_prefix {| secure := true; server := "example.com"; base_path := "/" |} Full
         ++ "static/" ++ seg)%string /\
    static_image [2; 3]%nat (Dir []) seg =
      match Index.mime_type (Some Index.Png) with
      | Some mime =>
          match path_for_digest [2; 3]%nat (Dir []) (repeat 171%N 16) with
          | None => None
          | Some None => Some (Err (ImageNotFound (repeat 171%N 16)))
          | Some (Some p) => Some (Ok (mime, p))
          end
      | None =>
          Some (Err (if String.eqb (Index.as_str (Some Index.Png)) "" then InvalidFormat seg
                     else InvalidExtension (Index.as_str (Some Index.Png))))
      end.
Proof.
  assert (L : length (repeat 171%N 16) = 16%nat) by reflexivity.
  assert (B : Forall byte_ok (repeat 171%N 16)).
  { apply Forall_forall. intros y Hy. apply repeat_spec in Hy. subst. reflexivity. }
  split; [exact L|]. split; [exact B|].
  exact (static_url_served _ _ _ _ _ _ L B).
Defined.

Lemma shape_get_file ns : forall pre n q m,
  shape ns pre n -> get n q = Some m -> length q = S (length ns) -> exists b, m = File b.
Proof.
  induction ns as [|k ns IH]; intros pre n q m Sh G Lq;
    destruct n as [b|cs]; try contradiction;
    (destruct q as [|c q]; [discriminate|]); simpl in G;
    destruct (lookup_child c cs) as [n'|] eqn:Lc; try discriminate;
    apply lookup_child_In in Lc; destruct Sh as [_ Sh]; specialize (Sh _ _ Lc).
  - destruct q; [|discriminate]. injection G as <-. apply Sh.
  - destruct Sh as (_ & _ & Sh). injection Lq as Lq. exact (IH _ _ _ _ Sh G Lq).
Qed.

(** X21.  After a successful [save] on a store built by [save]s,
    [path_for_digest] of the saved bytes' digest finds the file, at the path
    of the returned entry, whether [save] added or found it. *)
Theorem save_then_path_for_digest md5 imghdr_from_bytes ppl fs b a fs' :
  md5_ok md5 -> built_store md5 imghdr_from_bytes ppl fs ->
  save md5 imghdr_from_bytes ppl fs b = Some (Ok a, fs') ->
  digest (action_entry a) = md5 b /\
  path_for_digest ppl fs' (md5 b) = Some (Some (path (action_entry a))).
Proof.
  intros Hm Hb E. destruct (built_shape _ _ Hm _ _ Hb) as [Sh Fu].
  destruct (store_path ppl (md5 b)) as [p|] eqn:SP;
    [|unfold save in E; rewrite SP in E; discriminate].
  unfold path_for_digest. rewrite SP.
  destruct (get fs p) as [m|] eqn:G.
  - rewrite (save_found _ imghdr_from_bytes Hm _ _ _ _ _ SP G) in E.
    injection E as <- <-. split; [reflexivity|]. cbn [action_entry path].
    destruct (store_path_spec _ _ _ _ Hm SP) as (parts & -> & F & _).
    assert (Lp : length (parts ++ [to_hex (md5 b)]) = S (length ppl))
      by (rewrite length_app, (Forall2_length F); apply Nat.add_1_r).
    destruct (shape_get_file _ _ _ _ _ Sh G Lp) as [x ->].
    unfold exists_, is_file. rewrite G. reflexivity.
  - destruct (save_new _ imghdr_from_bytes Hm _ _ _ _ Sh Fu SP G) as (it & fs2 & E2 & _ & _ & G2).
    rewrite E2 in E. injection E as <- <-. split; [reflexivity|]. cbn [action_entry path].
    unfold exists_, is_file. rewrite G2. reflexivity.
Qed.

Lemma save_then_path_for_digest_witness :
  md5_ok (fun _ => repeat 7%N 16) /\
  built_store (fun _ => repeat 7%N 16) (fun _ => None) [1]%nat (Dir []) /\
  save (fun _ => repeat 7%N 16) (fun _ => None) [1]%nat (Dir []) [] =
    Some (Ok (Added {| path := [[48]%N; to_hex (repeat 7%N 16)];
                       digest := repeat 7%N 16 |} None),
          Dir [([48]%N, Dir [(to_hex (repeat 7%N 16), File [])])]) /\
  digest (action_entry (Added {| path := [[48]%N; to_hex (repeat 7%N 16)];
                                 digest := repeat 7%N 16 |} None)) = repeat 7%N 16 /\
  path_for_digest [1]%nat (Dir [([48]%N, Dir [(to_hex (repeat 7%N 16), File [])])])
    (repeat 7%N 16) =
    Some (Some (path (action_entry (Added {| path := [[48]%N; to_hex (repeat 7%N 16)];
                                             digest := repeat 7%N 16 |} None)))).
Proof.
  assert (Hm : md5_ok (fun _ => repeat 7%N 16)).
  { intros x. split; [reflexivity|]. apply Forall_forall. intros y Hy.
    apply repeat_spec in Hy. subst. reflexivity. }
  assert (Hb : built_store (fun _ => repeat 7%N 16) (fun _ => None) [1]%nat (Dir []))
    by apply built_store_empty.
  assert (E : save (fun _ => repeat 7%N 16) (fun _ => None) [1]%nat (Dir []) [] =
    Some (Ok (Added {| path := [[48]%N; to_hex (repeat 7%N 16)];
                       digest := repeat 7%N 16 |} None),
          Dir [([48]%N, Dir [(to_hex (repeat 7%N 16), File [])])]))
    by (vm_compute; reflexivity).
  split; [exact Hm|]. split; [exact Hb|]. split; [exact E|].
  exact (save_then_path_for_digest _ _ _ _ _ _ _ Hm Hb E).
Defined.

End ServiceExtras.
